(** * The dial queue of the connection manager

    A shallow embedding of [DialQueue] (class [DialQueue], methods [dial],
    [calculateMultiaddrs], [isDialable] and the job body handed to the
    priority queue) together with the properties its specification states.

    Conventions of the embedding:
    - a JavaScript [Set<string>] or [Map<string, _>] is a list in insertion
      order (both iterate in insertion order, and the order is observable);
    - a [number] used as a counter or a limit is an integer of [Z];
    - an [async] method is a computation of the monad [M]: it threads the state
      of the outside world and the trace of observable calls, and either
      returns a value or throws an [Error];
    - collaborators reached through [this.components] are the fields of the
      class [Components]; nothing is assumed about what they answer. *)

From Stdlib Require Import String List ZArith Bool Lia.
Import ListNotations.

Open Scope string_scope.
Open Scope Z_scope.
Open Scope list_scope.

Set Implicit Arguments.

(* ================================================================== *)
(** * Part I: definitions *)
(* ================================================================== *)

(** ** Errors

    Every error the dial queue looks at is inspected through [name] and
    [message]; an [AggregateError] also carries the wrapped [errors]. *)

#[warnings="-register-all"]
Inductive Error : Type :=
| MkError (name message : string) (errors : list Error).

Definition err_name (e : Error) : string :=
  match e with MkError n _ _ => n end.

Definition err_message (e : Error) : string :=
  match e with MkError _ m _ => m end.

Definition err_errors (e : Error) : list Error :=
  match e with MkError _ _ es => es end.

Definition DialError (message : string) : Error :=
  MkError "DialError" message [].

Definition TimeoutError (message : string) : Error :=
  MkError "TimeoutError" message [].

Definition DialDeniedError (message : string) : Error :=
  MkError "DialDeniedError" message [].

Definition NoValidAddressesError (message : string) : Error :=
  MkError "NoValidAddressesError" message [].

Definition AggregateError (errors : list Error) (message : string) : Error :=
  MkError "AggregateError" message errors.

(** ** Peer ids, multiaddrs, addresses, connections *)

(** A [PeerId] is used through [equals] and [toString] only; it is
    represented by its string form, and [equals] is equality of that form. *)
Definition PeerId : Type := string.

Definition peerId_equals (p : PeerId) (q : option PeerId) : bool :=
  match q with
  | Some q' => String.eqb p q'
  | None => false
  end.

(** The operations of [@multiformats/multiaddr] (and the [Circuit] matcher)
    that the dial queue calls.  The library is not part of the repository:
    its operations are parameters. *)
Class MultiaddrOps : Type := {
  Multiaddr : Type;
  (** [multiaddr(str)]: parses, throws on an invalid string *)
  multiaddr : string -> Error + Multiaddr;
  (** [ma.toString()] *)
  ma_toString : Multiaddr -> string;
  (** [ma.equals(other)] *)
  ma_equals : Multiaddr -> Multiaddr -> bool;
  (** [ma.getPeerId()] *)
  ma_getPeerId : Multiaddr -> option string;
  (** [ma.protos().pop()?.path === true] *)
  ma_lastProtoIsPath : Multiaddr -> bool;
  (** [ma.encapsulate(str)] *)
  ma_encapsulate : Multiaddr -> string -> Multiaddr;
  (** [Circuit.matches(ma)] *)
  Circuit_matches : Multiaddr -> bool
}.

Section DataModel.
Context {MA : MultiaddrOps}.

Record Address : Type := mkAddress {
  addr_multiaddr : Multiaddr;
  isCertified : bool
}.

Inductive ConnectionStatus : Type := open | closing | closed.

Definition status_is_open (s : ConnectionStatus) : bool :=
  match s with open => true | _ => false end.

(** [conn_id] stands for the identity of the JavaScript object. *)
Record Connection : Type := mkConnection {
  conn_id : nat;
  remotePeer : PeerId;
  remoteAddr : Multiaddr;
  status : ConnectionStatus
}.

(** The result of [getPeerAddress(peerIdOrMultiaddr)], the first statement of
    [dial]. *)
Record Target : Type := mkTarget {
  target_peerId : option PeerId;
  target_multiaddrs : list Multiaddr
}.

(** The argument of [peerStore.merge]: the multiaddrs to add and the metadata
    key that is set to the current time. *)
Record PeerData : Type := mkPeerData {
  pd_multiaddrs : list Multiaddr;
  pd_metadata_key : string
}.

End DataModel.

(** ** Insertion-ordered string sets ([Set<string>]) *)

Definition StringSet : Type := list string.

Definition set_has (s : StringSet) (x : string) : bool :=
  existsb (String.eqb x) s.

Definition set_add (s : StringSet) (x : string) : StringSet :=
  if set_has s x then s else s ++ [x].

Definition set_add_all (s : StringSet) (xs : list string) : StringSet :=
  fold_left set_add xs s.

(** [new Set(xs)] *)
Definition set_of_list (xs : list string) : StringSet :=
  set_add_all [] xs.

(** ** Collaborators and configuration *)

Definition LAST_DIAL_SUCCESS_KEY : string := "last-dial-success".
Definition LAST_DIAL_FAILURE_KEY : string := "last-dial-failure".

(** [DialQueueComponents], with [resolveMultiaddrs] (of [./utils.js]),
    [defaultAddressSorter] (of [./address-sorter.js]) and the composite
    abort signal of the running job.  [World] is the
    state of everything outside the dial queue: peer store, network, clock.
    An asynchronous collaborator maps a world to its answer, a value or a
    thrown error, and the next world.  The two gater methods are optional. *)
Class Components {MA : MultiaddrOps} : Type := {
  World : Type;
  components_peerId : PeerId;
  peerStore_get : PeerId -> World -> (Error + list Address) * World;
  peerStore_merge : PeerId -> PeerData -> World -> (Error + unit) * World;
  peerRouting_findPeer : PeerId -> World -> (Error + list Multiaddr) * World;
  transportManager_dial : Multiaddr -> World -> (Error + Connection) * World;
  transportManager_dialTransportForMultiaddr : Multiaddr -> bool;
  connectionGater_denyDialPeer :
    option (PeerId -> World -> (Error + bool) * World);
  connectionGater_denyDialMultiaddr :
    option (Multiaddr -> World -> (Error + bool) * World);
  resolveMultiaddrs : Multiaddr -> World -> (Error + list Multiaddr) * World;
  defaultAddressSorter : list Address -> list Address;
  (** [signal.aborted] of the signal made by [createDialAbortController]:
      dial timeout, shutdown controller or user signal *)
  signal_aborted : World -> bool
}.

Section Model.
Context {MA : MultiaddrOps} {C : Components}.

(** ** Observable calls *)

Inductive Event : Type :=
| EvTransportDial (ma : Multiaddr)
| EvPeerStoreGet (p : PeerId)
| EvPeerStoreMerge (p : PeerId) (data : PeerData)
| EvFindPeer (p : PeerId)
| EvResolve (ma : Multiaddr)
| EvDenyDialPeer (p : PeerId)
| EvDenyDialMultiaddr (ma : Multiaddr)
| EvLogError (message : string)
| EvLogTrace (message : string)
| EvProgress (name : string)
| EvSignalClear.

Definition is_transport_dial (e : Event) : bool :=
  match e with EvTransportDial _ => true | _ => false end.

(** Number of calls of [transportManager.dial] in a trace. *)
Definition transport_dials (t : list Event) : nat :=
  length (filter is_transport_dial t).

Record St : Type := mkSt {
  st_world : World;
  st_trace : list Event
}.

(** ** The monad of asynchronous computations *)

Definition M (A : Type) : Type := St -> (Error + A) * St.

Definition ret {A} (a : A) : M A := fun s => (inr a, s).

Definition throw {A} (e : Error) : M A := fun s => (inl e, s).

Definition bind {A B} (m : M A) (k : A -> M B) : M B :=
  fun s =>
    match m s with
    | (inr a, s') => k a s'
    | (inl e, s') => (inl e, s')
    end.

(** [try { m } catch (err) { h err }] *)
Definition try_catch {A} (m : M A) (h : Error -> M A) : M A :=
  fun s =>
    match m s with
    | (inr a, s') => (inr a, s')
    | (inl e, s') => h e s'
    end.

(** [try { m } finally { c }], for a [c] that does not throw *)
Definition try_finally {A} (m : M A) (c : St -> St) : M A :=
  fun s => let (r, s') := m s in (r, c s').

Definition emit (e : Event) : M unit :=
  fun s => (inr tt, mkSt (st_world s) (st_trace s ++ [e])).

(** A call of a collaborator: recorded in the trace, answered by the world. *)
Definition call {A} (e : Event) (f : World -> (Error + A) * World) : M A :=
  fun s =>
    let (r, w) := f (st_world s) in
    (r, mkSt w (st_trace s ++ [e])).

Definition read_aborted : M bool :=
  fun s => (inr (signal_aborted (st_world s)), s).

Definition clear_signal (s : St) : St :=
  mkSt (st_world s) (st_trace s ++ [EvSignalClear]).

Notation "x <- m ;; k" := (bind m (fun x => k))
  (at level 61, m at next level, right associativity).
Notation "m ;;; k" := (bind m (fun _ => k))
  (at level 61, right associativity).

Fixpoint mapM {A B} (f : A -> M B) (l : list A) : M (list B) :=
  match l with
  | [] => ret []
  | a :: l' => b <- f a ;; bs <- mapM f l' ;; ret (b :: bs)
  end.

(** [onProgress?.(new CustomProgressEvent(name))] *)
Definition progress (onProgress : bool) (name : string) : M unit :=
  if onProgress then emit (EvProgress name) else ret tt.

(** ** Configuration: [DialerInit] and the defaults of the constructor *)

Record DialerInit : Type := mkDialerInit {
  init_addressSorter : option (Address -> Address -> Z);
  init_maxDialQueueLength : option Z;
  init_maxPeerAddrsToDial : option Z
}.

(** Modelled from the spec: [./constants.js] is missing; the defaults are
    those of the configuration table ([maxDialQueueLength] 500,
    [maxPeerAddrsToDial] 25). *)
Definition MAX_DIAL_QUEUE_LENGTH : Z := 500.
Definition MAX_PEER_ADDRS_TO_DIAL : Z := 25.

Record Config : Type := mkConfig {
  addressSorter : option (Address -> Address -> Z);
  maxPeerAddrsToDial : Z;
  maxDialQueueLength : Z
}.

Definition nullish {A} (o : option A) (d : A) : A :=
  match o with Some a => a | None => d end.

(** The fields the constructor of [DialQueue] derives from [init]. *)
Definition configure (init : DialerInit) : Config :=
  {| addressSorter := init_addressSorter init;
     maxPeerAddrsToDial :=
       nullish (init_maxPeerAddrsToDial init) MAX_PEER_ADDRS_TO_DIAL;
     maxDialQueueLength :=
       nullish (init_maxDialQueueLength init) MAX_DIAL_QUEUE_LENGTH |}.

(** ** [calculateMultiaddrs] *)

(** [[...multiaddrs].map((ma) => ({ multiaddr: multiaddr(ma), isCertified: false }))] *)
Definition seedAddresses (multiaddrs : StringSet) : M (list Address) :=
  mapM (fun ma =>
          match multiaddr ma with
          | inr m => ret (mkAddress m false)
          | inl e => throw e
          end) multiaddrs.

(** First [if (addrs.length === 0)] block: load the peer's addresses from
    the peer store. *)
Definition loadFromPeerStore (peerId : PeerId) (addrs : list Address)
  : M (list Address) :=
  match addrs with
  | [] =>
      try_catch
        (peer <- call (EvPeerStoreGet peerId) (peerStore_get peerId) ;;
         ret (addrs ++ peer))
        (fun err =>
           if negb (String.eqb (err_name err) "NotFoundError")
           then throw err
           else ret addrs)
  | _ :: _ => ret addrs
  end.

(** Second [if (addrs.length === 0)] block: look the peer up in the peer
    routing. *)
Definition lookUpInPeerRouting (peerId : PeerId) (addrs : list Address)
  : M (list Address) :=
  match addrs with
  | [] =>
      try_catch
        (peerInfo <- call (EvFindPeer peerId) (peerRouting_findPeer peerId) ;;
         ret (addrs ++ map (fun ma => mkAddress ma false) peerInfo))
        (fun err =>
           (if negb (String.eqb (err_name err) "NoPeerRoutersError")
            then emit (EvLogError
                   "looking up multiaddrs for %p in the peer routing failed")
            else ret tt) ;;;
           ret addrs)
  | _ :: _ => ret addrs
  end.

(** [(await this.components.connectionGater.denyDialPeer?.(peerId)) === true] *)
Definition denyDialPeer (peerId : PeerId) : M bool :=
  match connectionGater_denyDialPeer with
  | Some deny => call (EvDenyDialPeer peerId) (deny peerId)
  | None => ret false
  end.

(** The block guarded by [if (peerId != null)]. *)
Definition discoverAddresses (peerId : option PeerId) (addrs : list Address)
  : M (list Address) :=
  match peerId with
  | None => ret addrs
  | Some p =>
      if peerId_equals components_peerId (Some p)
      then throw (DialError "Tried to dial self")
      else
        denied <- denyDialPeer p ;;
        if denied
        then throw (DialDeniedError
                      "The dial request is blocked by gater.allowDialPeer")
        else
          addrs1 <- loadFromPeerStore p addrs ;;
          lookUpInPeerRouting p addrs1
  end.

(** The callback of [addrs.map] under [Promise.all]; the resolutions are
    taken in list order. *)
Definition resolveAddress (addr : Address) : M (list Address) :=
  result <- call (EvResolve (addr_multiaddr addr))
                 (resolveMultiaddrs (addr_multiaddr addr)) ;;
  match result with
  | [r] =>
      if ma_equals r (addr_multiaddr addr)
      then ret [addr]
      else ret (map (fun ma => mkAddress ma false) result)
  | _ => ret (map (fun ma => mkAddress ma false) result)
  end.

Definition resolveAddresses (addrs : list Address) : M (list Address) :=
  rs <- mapM resolveAddress addrs ;; ret (concat rs).

(** Append [/p2p/<peerId>] unless the multiaddr ends in a path or already
    names a peer. *)
Definition appendPeerId (peerId : PeerId) (addr : Address) : Address :=
  if ma_lastProtoIsPath (addr_multiaddr addr) then addr
  else
    match ma_getPeerId (addr_multiaddr addr) with
    | None =>
        mkAddress (ma_encapsulate (addr_multiaddr addr) ("/p2p/" ++ peerId)%string)
                  (isCertified addr)
    | Some _ => addr
    end.

Definition ensurePeerId (peerId : option PeerId) (addrs : list Address)
  : list Address :=
  match peerId with
  | Some p => map (appendPeerId p) addrs
  | None => addrs
  end.

(** The predicate of [resolvedAddresses.filter]. *)
Definition dialable (peerId : option PeerId) (addr : Address) : bool :=
  if negb (transportManager_dialTransportForMultiaddr (addr_multiaddr addr))
  then false
  else
    match peerId, ma_getPeerId (addr_multiaddr addr) with
    | Some p, Some addrPeerId => peerId_equals p (Some addrPeerId)
    | _, _ => true
    end.

(** *** Deduplication: [dedupedAddrs], a [Map<string, Address>] *)

Definition AddressMap : Type := list (string * Address).

Fixpoint map_get (m : AddressMap) (k : string) : option Address :=
  match m with
  | [] => None
  | (k', v) :: m' => if String.eqb k k' then Some v else map_get m' k
  end.

(** [m.set(k, v)] for a key that is absent appends the entry. *)
Definition map_set (m : AddressMap) (k : string) (v : Address) : AddressMap :=
  m ++ [(k, v)].

(** The assignment [existing.isCertified = c] on the entry stored under [k]. *)
Fixpoint map_set_certified (m : AddressMap) (k : string) (c : bool)
  : AddressMap :=
  match m with
  | [] => []
  | (k', v) :: m' =>
      if String.eqb k k'
      then (k', mkAddress (addr_multiaddr v) c) :: m'
      else (k', v) :: map_set_certified m' k c
  end.

(** One iteration of [for (const addr of filteredAddrs)]. *)
Definition dedupe_step (dedupedAddrs : AddressMap) (addr : Address)
  : AddressMap :=
  let maStr := ma_toString (addr_multiaddr addr) in
  match map_get dedupedAddrs maStr with
  | Some existing =>
      map_set_certified dedupedAddrs maStr
        (isCertified existing || isCertified addr || false)
  | None => map_set dedupedAddrs maStr addr
  end.

(** [[...dedupedAddrs.values()]] after the loop. *)
Definition dedupe (filteredAddrs : list Address) : list Address :=
  map snd (fold_left dedupe_step filteredAddrs []).

(** The loop that fills [gatedAdrs]. *)
Fixpoint gateAddresses (addrs : list Address) : M (list Address) :=
  match addrs with
  | [] => ret []
  | addr :: rest =>
      denied <- match connectionGater_denyDialMultiaddr with
                | Some deny =>
                    call (EvDenyDialMultiaddr (addr_multiaddr addr))
                         (deny (addr_multiaddr addr))
                | None => ret false
                end ;;
      gated <- gateAddresses rest ;;
      ret (if denied then gated else addr :: gated)
  end.

(** [Array.prototype.sort(cmp)]: a stable sort; [cmp a b < 0] puts [a]
    first. *)
Fixpoint sort_insert (cmp : Address -> Address -> Z) (x : Address)
  (sorted : list Address) : list Address :=
  match sorted with
  | [] => [x]
  | y :: sorted' =>
      if cmp x y <? 0 then x :: y :: sorted'
      else y :: sort_insert cmp x sorted'
  end.

Definition array_sort (cmp : Address -> Address -> Z) (l : list Address)
  : list Address :=
  fold_left (fun sorted x => sort_insert cmp x sorted) l [].

Definition sortAddresses (cfg : Config) (gatedAdrs : list Address)
  : list Address :=
  match addressSorter cfg with
  | None => defaultAddressSorter gatedAdrs
  | Some sorter => array_sort sorter gatedAdrs
  end.

Definition calculateMultiaddrs (cfg : Config) (peerId : option PeerId)
  (multiaddrs : StringSet) : M (list Address) :=
  addrs0 <- seedAddresses multiaddrs ;;
  addrs <- discoverAddresses peerId addrs0 ;;
  resolved <- resolveAddresses addrs ;;
  let resolvedAddresses := ensurePeerId peerId resolved in
  let filteredAddrs := filter (dialable peerId) resolvedAddresses in
  let dedupedMultiaddrs := dedupe filteredAddrs in
  match dedupedMultiaddrs with
  | [] => throw (NoValidAddressesError
                   "The dial request has no valid addresses")
  | _ :: _ =>
      gatedAdrs <- gateAddresses dedupedMultiaddrs ;;
      match sortAddresses cfg gatedAdrs with
      | [] => throw (DialDeniedError
           "The connection gater denied all addresses in the dial request")
      | sortedGatedAddrs =>
          emit (EvLogTrace "addresses for %p before filtering") ;;;
          emit (EvLogTrace "addresses for %p after filtering") ;;;
          ret sortedGatedAddrs
      end
  end.

(** ** [isDialable] *)

Definition isDialable (cfg : Config) (multiaddrs : list Multiaddr)
  (runOnLimitedConnection : option bool) : M bool :=
  try_catch
    (addresses <- calculateMultiaddrs cfg None
                    (set_of_list (map ma_toString multiaddrs)) ;;
     match runOnLimitedConnection with
     | Some false =>
         ret (match find (fun addr => negb (Circuit_matches (addr_multiaddr addr)))
                         addresses with
              | Some _ => true
              | None => false
              end)
     | _ => ret true
     end)
    (fun err =>
       emit (EvLogTrace "error calculating if multiaddr(s) were dialable") ;;;
       ret false).

(** ** The attempt loop of a job *)

(** The [peerStore.merge] after a successful dial, inside its own
    [try]/[catch]: a failure is logged and dropped. *)
Definition recordDialSuccess (conn : Connection) : M unit :=
  let data := mkPeerData [remoteAddr conn] LAST_DIAL_SUCCESS_KEY in
  try_catch
    (call (EvPeerStoreMerge (remotePeer conn) data)
          (peerStore_merge (remotePeer conn) data))
    (fun _ => emit (EvLogError "could not update last dial failure key for %p")).

(** The [peerStore.merge] after a failed dial, made when [peerId != null]. *)
Definition recordDialFailure (peerId : option PeerId) : M unit :=
  match peerId with
  | Some p =>
      let data := mkPeerData [] LAST_DIAL_FAILURE_KEY in
      try_catch
        (call (EvPeerStoreMerge p data) (peerStore_merge p data))
        (fun _ => emit (EvLogError "could not update last dial failure key for %p"))
  | None => ret tt
  end.

(** The [catch] block of a failed dial up to the test of the signal: the
    failure is logged and, for a known peer, recorded. *)
Definition noteDialFailure (peerId : option PeerId) : M unit :=
  emit (EvLogError "dial failed to %a") ;;;
  recordDialFailure peerId.

(** [for (const address of addrsToDial) { ... }] and the two [throw]s after
    it, started with [dialed] dials made and [errors] collected. *)
Fixpoint attemptLoop (cfg : Config) (peerId : option PeerId) (dialed : Z)
  (errors : list Error) (addrsToDial : list Address) : M Connection :=
  match addrsToDial with
  | [] =>
      match errors with
      | [e] => throw e
      | _ => throw (AggregateError errors "All multiaddr dials failed")
      end
  | address :: rest =>
      if dialed =? maxPeerAddrsToDial cfg
      then throw (DialError "Peer had more than maxPeerAddrsToDial")
      else
        try_catch
          (conn <- call (EvTransportDial (addr_multiaddr address))
                        (transportManager_dial (addr_multiaddr address)) ;;
           recordDialSuccess conn ;;;
           ret conn)
          (fun err =>
             noteDialFailure peerId ;;;
             aborted <- read_aborted ;;
             if aborted
             then throw (TimeoutError (err_message err))
             else attemptLoop cfg peerId (dialed + 1) (errors ++ [err]) rest)
  end.

(** The second [try { ... } finally { signal.clear() }] of the job. *)
Definition dialAddresses (cfg : Config) (peerId : option PeerId)
  (addrsToDial : list Address) : M Connection :=
  try_finally (attemptLoop cfg peerId 0 [] addrsToDial) clear_signal.

(** *** The loop as a transition system

    A state of the loop at the head of an iteration: the counter, the errors
    collected, the addresses not yet visited and the state of the world. *)
Record LoopState : Type := mkLoopState {
  ls_dialed : Z;
  ls_errors : list Error;
  ls_todo : list Address;
  ls_st : St
}.

(** The state at which the [catch] block tests [signal.aborted], after a
    dial of [ma] made at [s] left the world at [w]. *)
Definition afterFailedDial (peerId : option PeerId) (ma : Multiaddr) (s : St)
  (w : World) : St :=
  snd (noteDialFailure peerId (mkSt w (st_trace s ++ [EvTransportDial ma]))).

(** The only way from the head of one iteration to the head of the next: the
    limit is not reached, the dial fails, and the signal is not aborted when
    the [catch] block tests it. *)
Inductive loop_next (cfg : Config) (peerId : option PeerId)
  : LoopState -> LoopState -> Prop :=
| next_after_failure dialed errors address rest s err w :
    dialed <> maxPeerAddrsToDial cfg ->
    transportManager_dial (addr_multiaddr address) (st_world s) = (inl err, w) ->
    signal_aborted
      (st_world (afterFailedDial peerId (addr_multiaddr address) s w)) = false ->
    loop_next cfg peerId
      (mkLoopState dialed errors (address :: rest) s)
      (mkLoopState (dialed + 1) (errors ++ [err]) rest
         (afterFailedDial peerId (addr_multiaddr address) s w)).

Inductive loop_reaches (cfg : Config) (peerId : option PeerId)
  : LoopState -> LoopState -> Prop :=
| reaches_here l : loop_reaches cfg peerId l l
| reaches_next l1 l2 l3 :
    loop_reaches cfg peerId l1 l2 ->
    loop_next cfg peerId l2 l3 ->
    loop_reaches cfg peerId l1 l3.

(** The loop as the job starts it. *)
Definition loop_start (addrsToDial : list Address) (s : St) : LoopState :=
  mkLoopState 0 [] addrsToDial s.

Definition runLoop (cfg : Config) (peerId : option PeerId) (l : LoopState)
  : (Error + Connection) * St :=
  attemptLoop cfg peerId (ls_dialed l) (ls_errors l) (ls_todo l) (ls_st l).

(** ** The queue and its jobs *)

(** [DialQueueJobOptions] of a queued job, with the identity of the job and
    the number of callers waiting for its shared result. *)
Record Job : Type := mkJob {
  job_id : nat;
  job_peerId : option PeerId;
  job_multiaddrs : StringSet;
  job_priority : Z;
  job_onProgress : bool;
  job_recipients : nat
}.

(** The mutable state of a [DialQueue] next to its configuration:
    [this.connections] (a [PeerMap], in insertion order) and
    [this.queue.queue]. *)
Record DialQueue : Type := mkDialQueue {
  config : Config;
  connections : list (PeerId * list Connection);
  queue : list Job;
  next_job_id : nat
}.

(** [this.queue.size] *)
Definition queue_size (dq : DialQueue) : Z := Z.of_nat (length (queue dq)).

(** Modelled from the spec: [PriorityQueue.add] belongs to
    [@libp2p/utils]; a job is added behind the jobs of higher or equal
    priority (higher priority first, first in first out for ties). *)
Fixpoint queue_insert (job : Job) (q : list Job) : list Job :=
  match q with
  | [] => [job]
  | j :: q' =>
      if job_priority j <? job_priority job
      then job :: j :: q'
      else j :: queue_insert job q'
  end.

(** Modelled from the spec: [./index.js] is missing; the default priority
    is 50. *)
Definition DEFAULT_DIAL_PRIORITY : Z := 50.

Record OpenConnectionOptions : Type := mkOptions {
  force : option bool;
  priority : option Z;
  onProgress : bool
}.

(** What the caller of [dial] gets: an existing connection, a seat on a
    queued job (the promise of [join]), a rejection, or the promise of a
    new job. *)
Inductive DialOutcome : Type :=
| AlreadyConnected (conn : Connection)
| JoinedJob (id : nat)
| Rejected (err : Error)
| AddedJob (id : nat).

Record DialStep : Type := mkDialStep {
  outcome : DialOutcome;
  emitted : list string;
  after : DialQueue
}.

(** The predicate of the [find] over the connections. *)
Definition connectionMatches (options : OpenConnectionOptions)
  (target : Target) (conn : Connection) : bool :=
  match force options with
  | Some true => false
  | _ =>
      if peerId_equals (remotePeer conn) (target_peerId target) then true
      else
        match find (fun addr => ma_equals addr (remoteAddr conn))
                   (target_multiaddrs target) with
        | Some _ => true
        | None => false
        end
  end.

(** [Array.from(this.connections.values()).flat().find(...)] *)
Definition existingConnection (dq : DialQueue) (options : OpenConnectionOptions)
  (target : Target) : option Connection :=
  find (connectionMatches options target) (concat (map snd (connections dq))).

(** The predicate of [this.queue.queue.find]; a job always carries its
    [multiaddrs] set, so the [addresses == null] branch is not taken. *)
Definition jobMatches (target : Target) (job : Job) : bool :=
  if match target_peerId target with
     | Some p => peerId_equals p (job_peerId job)
     | None => false
     end
  then true
  else existsb (fun ma => set_has (job_multiaddrs job) (ma_toString ma))
               (target_multiaddrs target).

Definition existingDial (dq : DialQueue) (target : Target) : option Job :=
  find (jobMatches target) (queue dq).

(** The effect, on the queue, of the statements run on [existingDial]: every
    target address is added to its set and the caller joins it.  The job
    touched is the first one that matches, the object [find] returned. *)
Fixpoint joinFirst (target : Target) (q : list Job) : list Job :=
  match q with
  | [] => []
  | job :: q' =>
      if jobMatches target job
      then mkJob (job_id job) (job_peerId job)
             (set_add_all (job_multiaddrs job)
                (map ma_toString (target_multiaddrs target)))
             (job_priority job) (job_onProgress job)
             (S (job_recipients job)) :: q'
      else job :: joinFirst target q'
  end.

Definition emit_if (onProgress : bool) (name : string) : list string :=
  if onProgress then [name] else [].

(** [dial] from the search for [existingDial] on: join the first matching
    job, or refuse when the queue is full, or add a job. *)
Definition joinOrAdd (dq : DialQueue) (target : Target)
  (options : OpenConnectionOptions) : DialStep :=
  match existingDial dq target with
  | Some job =>
      mkDialStep (JoinedJob (job_id job))
        (emit_if (onProgress options) "dial-queue:already-in-dial-queue")
        (mkDialQueue (config dq) (connections dq)
           (joinFirst target (queue dq)) (next_job_id dq))
  | None =>
      if queue_size dq >=? maxDialQueueLength (config dq)
      then mkDialStep (Rejected (DialError "Dial queue is full")) [] dq
      else
        mkDialStep (AddedJob (next_job_id dq))
          (emit_if (onProgress options) "dial-queue:add-to-dial-queue")
          (mkDialQueue (config dq) (connections dq)
             (queue_insert
                (mkJob (next_job_id dq) (target_peerId target)
                   (set_of_list (map ma_toString (target_multiaddrs target)))
                   (nullish (priority options) DEFAULT_DIAL_PRIORITY)
                   (onProgress options) 1)
                (queue dq))
             (S (next_job_id dq)))
  end.

(** [dial], after [getPeerAddress], up to the promise it returns. *)
Definition dial (dq : DialQueue) (target : Target)
  (options : OpenConnectionOptions) : DialStep :=
  match existingConnection dq options target with
  | Some conn =>
      if status_is_open (status conn)
      then mkDialStep (AlreadyConnected conn)
             (emit_if (onProgress options) "dial-queue:already-connected") dq
      else joinOrAdd dq target options
  | None => joinOrAdd dq target options
  end.

(** ** The body of a job

    The function handed to [this.queue.add].  It reads the job's
    [multiaddrs] set when it starts, and writes to it once the addresses are
    calculated; the set is the one [dial] looks at and extends, so it lives
    in the [DialQueue]. *)

(** First part: [start-dial], the abort signal, the first [try] up to the
    [calculated-addresses] event.  When the calculation throws the signal is
    cleared and the error rethrown. *)
Definition calculateForJob (cfg : Config) (job : Job) : M (list Address) :=
  progress (job_onProgress job) "dial-queue:start-dial" ;;;
  try_catch
    (addrsToDial <- calculateMultiaddrs cfg (job_peerId job)
                      (job_multiaddrs job) ;;
     progress (job_onProgress job) "dial-queue:calculated-addresses" ;;;
     ret addrsToDial)
    (fun err => fun s => (inl err, clear_signal s)).

(** [addrsToDial.map(({ multiaddr }) => multiaddr.toString()).forEach((addr)
    => { options?.multiaddrs.add(addr) })], on the job with identity [id]. *)
Definition recordCalculated (id : nat) (addrsToDial : list Address)
  (q : list Job) : list Job :=
  map (fun job =>
         if Nat.eqb (job_id job) id
         then mkJob (job_id job) (job_peerId job)
                (set_add_all (job_multiaddrs job)
                   (map (fun a => ma_toString (addr_multiaddr a)) addrsToDial))
                (job_priority job) (job_onProgress job) (job_recipients job)
         else job) q.

Definition withQueue (dq : DialQueue) (q : list Job) : DialQueue :=
  mkDialQueue (config dq) (connections dq) q (next_job_id dq).

(** The job from the moment [calculateMultiaddrs] has returned
    [addrsToDial]: it adds the string forms to its set, in the queue [dq] as
    it is by then, and runs the attempt loop (lines 240-317).  The queue it
    leaves is the one later calls of [dial] search. *)
Definition resumeJob (dq : DialQueue) (job : Job) (addrsToDial : list Address)
  : St -> (Error + Connection) * DialQueue * St :=
  fun s1 =>
    let dq1 := withQueue dq (recordCalculated (job_id job) addrsToDial (queue dq)) in
    let (r, s2) := dialAddresses (config dq) (job_peerId job) addrsToDial s1 in
    (r, dq1, s2).

(** A whole run of the job, when no other call touches the queue meanwhile. *)
Definition runJob (dq : DialQueue) (job : Job)
  : St -> (Error + Connection) * DialQueue * St :=
  fun s =>
    match calculateForJob (config dq) job s with
    | (inl err, s1) => (inl err, dq, s1)
    | (inr addrsToDial, s1) => resumeJob dq job addrsToDial s1
    end.

(** ** Overlap of a target with a connection or a job, and later states *)

(** The connection is to the target peer, or at one of the target
    multiaddrs. *)
Definition connection_overlaps (target : Target) (conn : Connection) : Prop :=
  target_peerId target = Some (remotePeer conn) \/
  exists addr, In addr (target_multiaddrs target) /\
               ma_equals addr (remoteAddr conn) = true.

(** The job is for the target peer, or its address set shares a string with
    the target. *)
Definition job_overlaps (target : Target) (job : Job) : Prop :=
  (exists p, target_peerId target = Some p /\ job_peerId job = Some p) \/
  exists ma, In ma (target_multiaddrs target) /\
             In (ma_toString ma) (job_multiaddrs job).




(** ** Notions the properties are stated with *)

(** A computation that never calls [transportManager.dial]. *)
Definition quiet {A} (m : M A) : Prop :=
  forall s, transport_dials (st_trace (snd (m s))) = transport_dials (st_trace s).

(** The number of transport dials between a state and the end of a run. *)
Definition dials_added {A} (s : St) (r : A * St) : Z :=
  Z.of_nat (transport_dials (st_trace (snd r))) -
  Z.of_nat (transport_dials (st_trace s)).

(** [err] is what a transport dial of the address answered, in some world. *)
Definition dial_failed_with (address : Address) (err : Error) : Prop :=
  exists w w', transportManager_dial (addr_multiaddr address) w = (inl err, w').

(** What a failed [peerRouting.findPeer] leaves in the trace: the call, and
    a logged error unless the error is a [NoPeerRoutersError]. *)
Definition routing_failure_trace (p : PeerId) (err : Error) : list Event :=
  EvFindPeer p ::
  (if String.eqb (err_name err) "NoPeerRoutersError" then []
   else [EvLogError "looking up multiaddrs for %p in the peer routing failed"]).

End Model.

(** ** Deduplication as the specification words it

    The first record of each string form stays, in the order of first
    appearance, and it is certified exactly when some record of that string
    form is. *)

Section DedupeSpec.
Context {MA : MultiaddrOps}.

Definition addr_string (a : Address) : string :=
  ma_toString (addr_multiaddr a).

(** The records whose string form was not [seen] before them. *)
Fixpoint first_occurrences (seen : list string) (l : list Address)
  : list Address :=
  match l with
  | [] => []
  | a :: l' =>
      if set_has seen (addr_string a)
      then first_occurrences seen l'
      else a :: first_occurrences (seen ++ [addr_string a]) l'
  end.

(** The OR of the [isCertified] flags of the records of [l] whose string form
    is [k]. *)
Definition certified_any (l : list Address) (k : string) : bool :=
  existsb (fun a => String.eqb (addr_string a) k && isCertified a) l.

Definition dedupe_spec (l : list Address) : list Address :=
  map (fun a => mkAddress (addr_multiaddr a) (certified_any l (addr_string a)))
      (first_occurrences [] l).

(** Entries of the map are stored under the string form of their multiaddr,
    each key once. *)
Definition map_wf (m : AddressMap) : Prop :=
  NoDup (map fst m) /\ Forall (fun kv => addr_string (snd kv) = fst kv) m.

(** An entry of the map once the records of [l] are merged into it, and the
    entry a first occurrence in [l] ends up as. *)
Definition settle (l : list Address) (kv : string * Address) : string * Address :=
  (fst kv, mkAddress (addr_multiaddr (snd kv))
                     (isCertified (snd kv) || certified_any l (fst kv))).

Definition settle_new (l : list Address) (a : Address) : string * Address :=
  (addr_string a, mkAddress (addr_multiaddr a) (certified_any l (addr_string a))).

(** *** The loop on shared objects

    The records of [filteredAddrs] are JavaScript objects, and the loop
    assigns to [existing.isCertified]: here the same loop on references into
    a heap of records, where one object may occur several times in the
    list. *)

(** A reference names an object of the heap. *)
Definition Ref : Type := nat.
Definition Heap : Type := Ref -> Address.

(** [existing.isCertified = c] on the object [existing]. *)
Definition heap_set_certified (h : Heap) (existing : Ref) (c : bool) : Heap :=
  fun r => if Nat.eqb r existing
           then mkAddress (addr_multiaddr (h existing)) c
           else h r.

Definition RefMap : Type := list (string * Ref).

Fixpoint refmap_get (m : RefMap) (k : string) : option Ref :=
  match m with
  | [] => None
  | (k', r) :: m' => if String.eqb k k' then Some r else refmap_get m' k
  end.

Definition dedupe_step_store (st : RefMap * Heap) (addr : Ref) : RefMap * Heap :=
  let maStr := ma_toString (addr_multiaddr (snd st addr)) in
  match refmap_get (fst st) maStr with
  | Some existing =>
      (fst st,
       heap_set_certified (snd st) existing
         (isCertified (snd st existing) || isCertified (snd st addr) || false))
  | None => (fst st ++ [(maStr, addr)], snd st)
  end.

Definition dedupe_store (h : Heap) (filteredAddrs : list Ref) : list Ref * Heap :=
  let st := fold_left dedupe_step_store filteredAddrs ([], h) in
  (map snd (fst st), snd st).

(** The map of objects, read through the heap. *)
Definition view (h : Heap) (m : RefMap) : AddressMap :=
  map (fun kr => (fst kr, h (snd kr))) m.

(** What the loop keeps true of the map [m] and the current heap [hc], the
    heap at the start being [h]. *)
Record store_inv (h : Heap) (m : RefMap) (hc : Heap) : Prop := {
  inv_keys : NoDup (map fst m);
  inv_named : forall k r, In (k, r) m -> addr_string (h r) = k;
  inv_multiaddr : forall r, addr_multiaddr (hc r) = addr_multiaddr (h r);
  inv_certified : forall r, isCertified (h r) = true -> isCertified (hc r) = true;
  inv_untouched : forall r, (forall k, ~ In (k, r) m) -> hc r = h r
}.

End DedupeSpec.

(** ** A concrete setting, for running the model

    Multiaddrs are their string forms; the world is a clock that ticks at
    every call of a collaborator, and the abort signal fires at a deadline. *)

Definition string_getPeerId (s : string) : option string :=
  match String.index 0 "/p2p/" s with
  | Some n => Some (String.substring (n + 5) (String.length s - (n + 5)) s)
  | None => None
  end.

Definition string_contains (needle s : string) : bool :=
  match String.index 0 needle s with
  | Some _ => true
  | None => false
  end.

#[export] Instance StringMultiaddr : MultiaddrOps := {|
  Multiaddr := string;
  multiaddr := fun s =>
    if String.prefix "/" s then inr s
    else inl (MkError "InvalidMultiaddrError" "invalid multiaddr" []);
  ma_toString := fun s => s;
  ma_equals := String.eqb;
  ma_getPeerId := string_getPeerId;
  ma_lastProtoIsPath := String.prefix "/unix/";
  ma_encapsulate := String.append;
  Circuit_matches := string_contains "/p2p-circuit"
|}.

Record Script : Type := mkScript {
  script_self : PeerId;
  script_store : PeerId -> Error + list (@Address StringMultiaddr);
  script_routing : PeerId -> Error + list string;
  script_dial : string -> Error + @Connection StringMultiaddr;
  script_supported : string -> bool;
  script_deadline : nat
}.

Definition tick {A} (r : A) (w : nat) : A * nat := (r, S w).

Definition connection_to (id : nat) (p : PeerId) (ma : string)
  (st : ConnectionStatus) : @Connection StringMultiaddr :=
  mkConnection (MA := StringMultiaddr) id p ma st.

Definition ScriptedComponents (sc : Script) : @Components StringMultiaddr := {|
  World := nat;
  components_peerId := script_self sc;
  peerStore_get := fun p => tick (script_store sc p);
  peerStore_merge := fun _ _ => tick (inr tt);
  peerRouting_findPeer := fun p => tick (script_routing sc p);
  transportManager_dial := fun ma => tick (script_dial sc ma);
  transportManager_dialTransportForMultiaddr := script_supported sc;
  connectionGater_denyDialPeer := None;
  connectionGater_denyDialMultiaddr := None;
  resolveMultiaddrs := fun ma => tick (inr [ma]);
  defaultAddressSorter := fun l => l;
  signal_aborted := fun w => Nat.leb (script_deadline sc) w
|}.

Definition NotFoundError : Error := MkError "NotFoundError" "peer not found" [].
Definition NoPeerRoutersError : Error :=
  MkError "NoPeerRoutersError" "no peer routers available" [].
Definition QueryFailedError : Error := MkError "QueryError" "query failed" [].
Definition ConnectionRefused : Error :=
  MkError "ECONNREFUSED" "connection refused" [].

(** A peer store without records, a routing that fails, a transport that
    refuses every dial, and a signal that does not abort for a long time. *)
Definition refusing : Script := {|
  script_self := "self";
  script_store := fun _ => inl NotFoundError;
  script_routing := fun _ => inl QueryFailedError;
  script_dial := fun _ => inl ConnectionRefused;
  script_supported := fun _ => true;
  script_deadline := 1000
|}.

(** As [refusing], with a signal aborted from the start. *)
Definition refusing_aborted : Script := {|
  script_self := "self";
  script_store := fun _ => inl NotFoundError;
  script_routing := fun _ => inl QueryFailedError;
  script_dial := fun _ => inl ConnectionRefused;
  script_supported := fun _ => true;
  script_deadline := 0
|}.

(** A peer store that fails for another reason than a missing record. *)
Definition DatabaseError : Error := MkError "DatabaseError" "disk failure" [].

Definition broken_store : Script := {|
  script_self := "self";
  script_store := fun _ => inl DatabaseError;
  script_routing := fun _ => inl NoPeerRoutersError;
  script_dial := fun _ => inl ConnectionRefused;
  script_supported := fun _ => true;
  script_deadline := 1000
|}.

(** A peer store that knows one address of every peer. *)
Definition known_peer : Script := {|
  script_self := "self";
  script_store := fun _ =>
    inr [mkAddress ("/ip4/1.2.3.4/tcp/1" : @Multiaddr StringMultiaddr) true];
  script_routing := fun _ => inl NoPeerRoutersError;
  script_dial := fun _ => inl ConnectionRefused;
  script_supported := fun _ => true;
  script_deadline := 1000
|}.

(** A peer with two known addresses: the transport refuses the first and
    connects at the second. *)
Definition first_refused : Script := {|
  script_self := "self";
  script_store := fun _ =>
    inr [mkAddress ("/ip4/1.2.3.4/tcp/1" : @Multiaddr StringMultiaddr) false;
         mkAddress ("/ip4/1.2.3.4/tcp/2" : @Multiaddr StringMultiaddr) false];
  script_routing := fun _ => inl NoPeerRoutersError;
  script_dial := fun ma =>
    if String.eqb ma "/ip4/1.2.3.4/tcp/1/p2p/P" then inl ConnectionRefused
    else inr (connection_to 9 "P" ma open);
  script_supported := fun _ => true;
  script_deadline := 1000
|}.

(** A node without a transport for any address. *)
Definition no_transport : Script := {|
  script_self := "self";
  script_store := fun _ => inl NotFoundError;
  script_routing := fun _ => inl NoPeerRoutersError;
  script_dial := fun _ => inl ConnectionRefused;
  script_supported := fun _ => false;
  script_deadline := 1000
|}.

Definition start_of_world (sc : Script) : @St StringMultiaddr (ScriptedComponents sc) :=
  mkSt (C := ScriptedComponents sc) 0%nat [].

Definition plain (s : string) : @Address StringMultiaddr := mkAddress (s : @Multiaddr StringMultiaddr) false.

Definition default_config : @Config StringMultiaddr :=
  configure (mkDialerInit None None None).

Definition config_with (queueLength addrsToDial : Z) : @Config StringMultiaddr :=
  configure (mkDialerInit None (Some queueLength) (Some addrsToDial)).

Definition no_options : OpenConnectionOptions := mkOptions None None false.

Definition to_peer (p : PeerId) (mas : list string) : @Target StringMultiaddr :=
  mkTarget (MA := StringMultiaddr) (Some p) mas.

Definition job_for (id : nat) (p : PeerId) (strs : list string)
  : @Job :=
  mkJob id (Some p) strs 50 false 1.

(** Two connections to peer [P]: the older one closing, the newer one open. *)
Definition closing_then_open : @DialQueue StringMultiaddr :=
  mkDialQueue default_config
    [("P", [connection_to 1 "P" "/ip4/1.2.3.4/tcp/1" closing;
            connection_to 2 "P" "/ip4/1.2.3.4/tcp/2" open])]
    [] 0.

(** One open connection to peer [P]. *)
Definition open_only : @DialQueue StringMultiaddr :=
  mkDialQueue default_config
    [("P", [connection_to 2 "P" "/ip4/1.2.3.4/tcp/2" open])] [] 0.

(** A job for peer [P] in the queue, without and with an open connection to
    [P] (the peer connected to us while the job was queued, or the job was
    added by a dial with [force]). *)
Definition queued_only : @DialQueue StringMultiaddr :=
  mkDialQueue default_config []
    [job_for 7 "P" ["/ip4/1.2.3.4/tcp/1/p2p/P"]] 8.

Definition connected_and_queued : @DialQueue StringMultiaddr :=
  mkDialQueue default_config
    [("P", [connection_to 2 "P" "/ip4/1.2.3.4/tcp/40000/p2p/P" open])]
    [job_for 7 "P" ["/ip4/1.2.3.4/tcp/1/p2p/P"]] 8.

(** A queue of length two that may not grow beyond two. *)
Definition full_queue : @DialQueue StringMultiaddr :=
  mkDialQueue (config_with 2 25) []
    [job_for 0 "A" []; job_for 1 "B" []] 2.

(** A job for peer [P] queued from the peer id alone, without and with an
    open connection to [P]. *)
Definition queued_peer : @DialQueue StringMultiaddr :=
  mkDialQueue default_config [] [job_for 7 "P" []] 8.


(** ** Further notions: what a computation leaves in the trace *)

From Stdlib Require Import Permutation DecimalString.

Section TraceNotions.
Context {MA : MultiaddrOps} {C : Components}.

(** A computation that adds no event of the kind [p] to the trace. *)
Definition silent {A} (p : Event -> bool) (m : M A) : Prop :=
  forall s, filter p (st_trace (snd (m s))) = filter p (st_trace s).

Definition is_peer_store_get (e : Event) : bool :=
  match e with EvPeerStoreGet _ => true | _ => false end.

Definition is_find_peer (e : Event) : bool :=
  match e with EvFindPeer _ => true | _ => false end.

Definition is_peer_store_merge (e : Event) : bool :=
  match e with EvPeerStoreMerge _ _ => true | _ => false end.

Definition is_signal_clear (e : Event) : bool :=
  match e with EvSignalClear => true | _ => false end.

(** The calls [isDialable] may make: resolving, asking the gater about a
    multiaddr, logging at trace level. *)
Definition is_probe_event (e : Event) : bool :=
  match e with
  | EvResolve _ | EvDenyDialMultiaddr _ | EvLogTrace _ => true
  | _ => false
  end.

(** With no [addressSorter] configured, [defaultAddressSorter] (not among
    the sources) decides the order; it is taken to reorder its argument and
    nothing else. *)
Definition sorter_reorders (cfg : Config) : Prop :=
  addressSorter cfg = None ->
  forall l, Permutation (defaultAddressSorter l) l.

(** The gater has a [denyDialMultiaddr] method that denies whatever it is
    asked. *)
Definition gater_denies_all : Prop :=
  exists deny, connectionGater_denyDialMultiaddr = Some deny /\
               forall ma w, fst (deny ma w) = inr true.

(** The [peerStore.merge] calls of a trace. *)
Definition peer_store_merges (t : list Event) : nat :=
  length (filter is_peer_store_merge t).

End TraceNotions.

(** ** [transport-websockets/filters.ts] *)

(** The matchers of [@multiformats/multiaddr-matcher] the filters use. *)
Class MatcherOps {MA : MultiaddrOps} : Type := {
  WebSockets_exactMatch : Multiaddr -> bool;
  WebSocketsSecure_exactMatch : Multiaddr -> bool;
  DNS_matches : Multiaddr -> bool
}.

Module Filters.
Section Filters.
Context {MA : MultiaddrOps} {MO : MatcherOps}.

Definition all (multiaddrs : list Multiaddr) : list Multiaddr :=
  filter (fun ma => WebSocketsSecure_exactMatch ma || WebSockets_exactMatch ma)
         multiaddrs.

Definition wss (multiaddrs : list Multiaddr) : list Multiaddr :=
  filter (fun ma => WebSocketsSecure_exactMatch ma) multiaddrs.

Definition dnsWss (multiaddrs : list Multiaddr) : list Multiaddr :=
  filter (fun ma => DNS_matches ma && WebSocketsSecure_exactMatch ma)
         multiaddrs.

Definition dnsWsOrWss (multiaddrs : list Multiaddr) : list Multiaddr :=
  filter (fun ma => DNS_matches ma &&
                    (WebSocketsSecure_exactMatch ma || WebSockets_exactMatch ma))
         multiaddrs.

End Filters.
End Filters.

(** ** [transport-tcp/utils.ts] *)

(** A JavaScript object with string, number and boolean properties, its keys
    in insertion order. *)
Inductive JsValue : Type :=
| JsString (s : string)
| JsNumber (n : Z)
| JsBoolean (b : bool).

Definition JsObject : Type := list (string * JsValue).

Fixpoint obj_get (o : JsObject) (k : string) : option JsValue :=
  match o with
  | [] => None
  | (k', v) :: o' => if String.eqb k k' then Some v else obj_get o' k
  end.

(** [o[k] = v]: an existing key keeps its place. *)
Fixpoint obj_set (o : JsObject) (k : string) (v : JsValue) : JsObject :=
  match o with
  | [] => [(k, v)]
  | (k', v') :: o' =>
      if String.eqb k k' then (k', v) :: o' else (k', v') :: obj_set o' k v
  end.

(** [{ ...a, ...b }] *)
Definition obj_spread (a b : JsObject) : JsObject :=
  fold_left (fun o kv => obj_set o (fst kv) (snd kv)) b a.

(** What [multiaddrToNetConfig] takes from the multiaddr and from Node:
    [addr.getPath()], [addr.toOptions()] (which throws for an address without
    host and port), [os.platform()] and [path.join]. *)
Class NetOps {MA : MultiaddrOps} : Type := {
  ma_getPath : Multiaddr -> option string;
  ma_toOptions : Multiaddr -> Error + JsObject;
  os_platform : string;
  path_join : string -> string -> string
}.

Module TcpUtils.

Inductive Proto : Type := ip4 | ip6.

Definition proto_name (proto : Proto) : string :=
  match proto with ip4 => "ip4" | ip6 => "ip6" end.

(** [ProtoFamily[proto]] *)
Definition ProtoFamily (proto : Proto) : string :=
  match proto with ip4 => "IPv4" | ip6 => "IPv6" end.

(** An entry of [os.networkInterfaces()]: the fields the code reads. *)
Record NetworkInterfaceInfo : Type := mkNetworkInterfaceInfo {
  ni_address : string;
  ni_family : string
}.

(** [Object.entries(os.networkInterfaces())]: an interface may have no
    address list. *)
Definition Networks : Type :=
  list (string * option (list NetworkInterfaceInfo)).

Definition isAnyAddr (ip : string) : bool :=
  existsb (String.eqb ip) ["0.0.0.0"; "::"].

(** The two nested loops that push onto [addresses]. *)
Definition getNetworkAddrs (networks : Networks) (family : string)
  : list string :=
  fold_left
    (fun addresses entry =>
       match snd entry with
       | Some netAddrs =>
           fold_left
             (fun addresses netAddr =>
                if String.eqb (ni_family netAddr) family
                then addresses ++ [ni_address netAddr]
                else addresses)
             netAddrs addresses
       | None => addresses
       end)
    networks [].

(** The addresses of one interface that have the family: what the inner
    loop adds for one entry. *)
Definition family_addresses (family : string)
  (netAddrs : option (list NetworkInterfaceInfo)) : list string :=
  match netAddrs with
  | Some l => map ni_address
                (filter (fun n => String.eqb (ni_family n) family) l)
  | None => []
  end.

(** [`${port}`] for a port number. *)
Definition port_string (port : N) : string :=
  NilZero.string_of_uint (N.to_uint port).

(** [array.map(f)] for an [f] that may throw. *)
Fixpoint map_throwing {A B} (f : A -> Error + B) (l : list A)
  : Error + list B :=
  match l with
  | [] => inr []
  | a :: l' =>
      match f a with
      | inl e => inl e
      | inr b =>
          match map_throwing f l' with
          | inl e => inl e
          | inr bs => inr (b :: bs)
          end
      end
  end.

Section TcpUtils.
Context {MA : MultiaddrOps} {NO : NetOps}.

(** The string [toMa] hands to [multiaddr]. *)
Definition listen_string (proto : Proto) (port : N) (ip : string) : string :=
  ("/" ++ proto_name proto ++ "/" ++ ip ++ "/tcp/" ++ port_string port)%string.

Definition getMultiaddrs (networks : Networks) (proto : Proto) (ip : string)
  (port : N) : Error + list Multiaddr :=
  map_throwing (fun ip => multiaddr (listen_string proto port ip))
    (if isAnyAddr ip then getNetworkAddrs networks (ProtoFamily proto)
     else [ip]).

Definition multiaddrToNetConfig (addr : Multiaddr) (config : JsObject)
  : Error + JsObject :=
  match ma_getPath addr with
  | Some listenPath =>
      if String.eqb os_platform "win32"
      then inr [("path", JsString (path_join "\\.\pipe\" listenPath))]
      else inr [("path", JsString listenPath)]
  | None =>
      match ma_toOptions addr with
      | inr options => inr (obj_spread config options)
      | inl e => inl e
      end
  end.

End TcpUtils.
End TcpUtils.

(** ** Further concrete settings *)

(** As [ScriptedComponents], with a connection gater that denies the peer
    [banned] and every multiaddr. *)
Definition GatedComponents (sc : Script) : @Components StringMultiaddr := {|
  World := nat;
  components_peerId := script_self sc;
  peerStore_get := fun p => tick (script_store sc p);
  peerStore_merge := fun _ _ => tick (inr tt);
  peerRouting_findPeer := fun p => tick (script_routing sc p);
  transportManager_dial := fun ma => tick (script_dial sc ma);
  transportManager_dialTransportForMultiaddr := script_supported sc;
  connectionGater_denyDialPeer :=
    Some (fun p => tick (inr (String.eqb p "banned")));
  connectionGater_denyDialMultiaddr := Some (fun _ => tick (inr true));
  resolveMultiaddrs := fun ma => tick (inr [ma]);
  defaultAddressSorter := fun l => l;
  signal_aborted := fun w => Nat.leb (script_deadline sc) w
|}.

Definition start_of_gated (sc : Script)
  : @St StringMultiaddr (GatedComponents sc) :=
  mkSt (C := GatedComponents sc) 0%nat [].






(** A dial queue without connections and without jobs. *)
Definition idle : @DialQueue StringMultiaddr :=
  mkDialQueue default_config [] [] 0.

Definition forced : OpenConnectionOptions := mkOptions (Some true) None false.

(** Unix socket addresses carry a path; an [ip4] address listens on its
    host at port 4001; anything else has no options. *)
Definition StringNetOps : @NetOps StringMultiaddr := {|
  ma_getPath := fun s =>
    if String.prefix "/unix/" s
    then Some (String.substring 5 (String.length s - 5) s)
    else None;
  ma_toOptions := fun s =>
    if String.prefix "/ip4/" s
    then inr [("host", JsString "127.0.0.1"); ("port", JsNumber 4001)]
    else inl (MkError "Error" "no host and port" []);
  os_platform := "linux";
  path_join := String.append
|}.

(* ================================================================== *)
(** * Part II: properties *)
(* ================================================================== *)

Unset Implicit Arguments.

(** ** Lists, string sets, [find] *)

Lemma set_has_true (s : StringSet) (x : string) :
  set_has s x = true <-> In x s.
Proof.
  unfold set_has. rewrite existsb_exists. split.
  - intros [y [Hy Heq]]. apply String.eqb_eq in Heq. now subst.
  - intros H. exists x. split; [assumption | apply String.eqb_refl].
Qed.

Lemma set_has_false (s : StringSet) (x : string) :
  set_has s x = false <-> ~ In x s.
Proof.
  rewrite <- set_has_true. destruct (set_has s x); intuition congruence.
Qed.

Lemma set_has_app (s t : StringSet) (x : string) :
  set_has (s ++ t) x = set_has s x || set_has t x.
Proof. unfold set_has. apply existsb_app. Qed.

Lemma set_add_in (s : StringSet) (x y : string) :
  In y (set_add s x) <-> In y s \/ y = x.
Proof.
  unfold set_add. destruct (set_has s x) eqn:H.
  - apply set_has_true in H. split; [tauto|]. intros [?| ->]; assumption.
  - rewrite in_app_iff. simpl. intuition.
Qed.

Lemma set_add_all_in (xs : list string) : forall (s : StringSet) (y : string),
  In y (set_add_all s xs) <-> In y s \/ In y xs.
Proof.
  unfold set_add_all.
  induction xs as [|x xs IH]; simpl; intros s y; [tauto|].
  rewrite IH, set_add_in. intuition.
Qed.

(** [find] returns the first element that satisfies the predicate. *)
Lemma find_first {A} (f : A -> bool) (l : list A) (x : A) :
  find f l = Some x <->
  exists pre post, l = pre ++ x :: post /\
                   (forall y, In y pre -> f y = false) /\ f x = true.
Proof.
  induction l as [|a l IH]; simpl.
  - split; [discriminate|]. intros (pre & post & H & _). now destruct pre.
  - destruct (f a) eqn:Ha.
    + split.
      * intros [= ->]. exists [], l. simpl. intuition.
      * intros (pre & post & H & Hpre & Hx). destruct pre as [|b pre].
        -- simpl in H. now injection H as ->.
        -- simpl in H. injection H as -> _.
           rewrite (Hpre b (or_introl eq_refl)) in Ha. discriminate.
    + rewrite IH. split.
      * intros (pre & post & -> & Hpre & Hx). exists (a :: pre), post.
        simpl. split; [reflexivity|]. split; [|assumption].
        intros y [<-|Hy]; auto.
      * intros (pre & post & H & Hpre & Hx). destruct pre as [|b pre].
        -- simpl in H. injection H as -> _. congruence.
        -- simpl in H. injection H as -> ->. exists pre, post.
           split; [reflexivity|]. split; [|assumption].
           intros y Hy. apply Hpre. now right.
Qed.

Lemma find_none_iff {A} (f : A -> bool) (l : list A) :
  find f l = None <-> forall y, In y l -> f y = false.
Proof.
  split.
  - intros H y Hy. now apply (find_none f l H).
  - induction l as [|a l IH]; simpl; intros H; [reflexivity|].
    rewrite (H a (or_introl eq_refl)). apply IH. intros y Hy. apply H. now right.
Qed.

Lemma find_existsb {A} (f : A -> bool) (l : list A) :
  match find f l with Some _ => true | None => false end = existsb f l.
Proof.
  induction l as [|a l IH]; simpl; [reflexivity|].
  destruct (f a); [reflexivity | exact IH].
Qed.

(** ** Deduplication *)

Section DedupeProperties.
Context {MA : MultiaddrOps}.

Local Arguments certified_any : simpl never.

Lemma map_get_none (m : AddressMap) (k : string) :
  map_get m k = None <-> set_has (map fst m) k = false.
Proof.
  induction m as [|[k' v] m IH]; simpl.
  - tauto.
  - destruct (String.eqb k k'); simpl; [split; discriminate | exact IH].
Qed.

Lemma map_set_certified_keys (m : AddressMap) k c :
  map fst (map_set_certified m k c) = map fst m.
Proof.
  induction m as [|[k' v] m IH]; simpl; [reflexivity|].
  destruct (String.eqb k k'); simpl; [reflexivity | now rewrite IH].
Qed.

Lemma map_set_certified_wf (m : AddressMap) k c :
  map_wf m -> map_wf (map_set_certified m k c).
Proof.
  intros [Hnd Hall]. split.
  - now rewrite map_set_certified_keys.
  - clear Hnd. induction Hall as [|[k' v] m Hkv Hall IH]; simpl; [constructor|].
    destruct (String.eqb k k'); constructor; auto.
Qed.

Lemma map_set_wf (m : AddressMap) (a : Address) :
  map_wf m -> map_get m (addr_string a) = None ->
  map_wf (map_set m (addr_string a) a).
Proof.
  intros [Hnd Hall] Hnone. unfold map_set. split.
  - rewrite map_app. simpl.
    apply map_get_none, set_has_false in Hnone.
    clear Hall. induction m as [|[k v] m IH]; simpl in *.
    + constructor; [tauto | constructor].
    + inversion Hnd; subst. constructor.
      * rewrite in_app_iff. simpl. intros [H|[H|[]]]; [tauto|].
        apply Hnone. left. now symmetry.
      * apply IH; tauto.
  - apply Forall_app. split; [assumption | repeat constructor].
Qed.

Lemma first_occurrences_unseen (l : list Address) : forall seen a,
  In a (first_occurrences seen l) -> set_has seen (addr_string a) = false.
Proof.
  induction l as [|b l IH]; simpl; intros seen a Hin; [contradiction|].
  destruct (set_has seen (addr_string b)) eqn:Hb.
  - now apply IH.
  - destruct Hin as [->|Hin]; [assumption|].
    apply IH in Hin. rewrite set_has_app in Hin.
    now apply orb_false_iff in Hin.
Qed.

Lemma first_occurrences_not_new (l : list Address) : forall seen k a,
  In a (first_occurrences (seen ++ [k]) l) -> addr_string a <> k.
Proof.
  intros seen k a Hin Heq.
  apply first_occurrences_unseen in Hin.
  rewrite set_has_app, orb_false_iff in Hin. destruct Hin as [_ Hin].
  simpl in Hin. rewrite Heq, String.eqb_refl in Hin. discriminate.
Qed.

Lemma certified_any_cons (a : Address) (l : list Address) (k : string) :
  certified_any (a :: l) k =
  (String.eqb (addr_string a) k && isCertified a) || certified_any l k.
Proof. reflexivity. Qed.

Lemma certified_any_true (l : list Address) (k : string) :
  certified_any l k = true <->
  exists a, In a l /\ addr_string a = k /\ isCertified a = true.
Proof.
  unfold certified_any. rewrite existsb_exists.
  split; intros [a [Hin H]]; exists a; (split; [assumption|]).
  - apply andb_true_iff in H. now rewrite String.eqb_eq in H.
  - apply andb_true_iff. now rewrite String.eqb_eq.
Qed.

(** The assignment to [existing.isCertified] turns the entries merged with
    [l] into the entries merged with [a :: l]. *)
Lemma settle_after_update (m : AddressMap) (a : Address) (l : list Address) :
  forall existing,
  NoDup (map fst m) ->
  map_get m (addr_string a) = Some existing ->
  map (settle l)
      (map_set_certified m (addr_string a)
         (isCertified existing || isCertified a || false)) =
  map (settle (a :: l)) m.
Proof.
  induction m as [|[k v] m IH]; simpl; intros existing Hnd Hget; [discriminate|].
  inversion Hnd as [|? ? Hnotin Hnd']; subst.
  destruct (String.eqb (addr_string a) k) eqn:Hk.
  - injection Hget as <-. apply String.eqb_eq in Hk. subst k.
    simpl. f_equal.
    + unfold settle. simpl. rewrite certified_any_cons, String.eqb_refl. simpl.
      f_equal. f_equal. rewrite orb_false_r. now rewrite orb_assoc.
    + apply map_ext_in. intros [k' v'] Hin. unfold settle. simpl.
      rewrite certified_any_cons.
      destruct (String.eqb (addr_string a) k') eqn:Hk'; [|reflexivity].
      apply String.eqb_eq in Hk'. subst k'. exfalso. apply Hnotin.
      now apply (in_map fst) in Hin.
  - simpl. f_equal.
    + unfold settle. simpl. now rewrite certified_any_cons, Hk.
    + now apply IH.
Qed.

(** The loop, started on any well-formed map. *)
Lemma fold_dedupe (l : list Address) : forall m,
  map_wf m ->
  fold_left dedupe_step l m =
  map (settle l) m ++ map (settle_new l) (first_occurrences (map fst m) l).
Proof.
  induction l as [|a l IH]; intros m Hwf.
  - simpl. rewrite app_nil_r. symmetry.
    rewrite <- (map_id m) at 2. apply map_ext_in.
    intros [k [ma c]] _. unfold settle. simpl. now rewrite orb_false_r.
  - simpl fold_left. unfold dedupe_step at 2. fold (addr_string a).
    destruct (map_get m (addr_string a)) as [existing|] eqn:Hget.
    + rewrite IH by now apply map_set_certified_wf.
      rewrite map_set_certified_keys.
      assert (Hseen : set_has (map fst m) (addr_string a) = true).
      { destruct (set_has (map fst m) (addr_string a)) eqn:E; [reflexivity|].
        apply map_get_none in E. congruence. }
      simpl first_occurrences. rewrite Hseen.
      rewrite (settle_after_update m a l existing (proj1 Hwf) Hget).
      f_equal. apply map_ext_in. intros b Hb.
      apply first_occurrences_unseen in Hb.
      unfold settle_new. rewrite certified_any_cons.
      destruct (String.eqb (addr_string a) (addr_string b)) eqn:E; [|reflexivity].
      apply String.eqb_eq in E. rewrite <- E in Hb. congruence.
    + rewrite IH by now apply map_set_wf.
      unfold map_set. rewrite !map_app. simpl map.
      pose proof Hget as Hunseen. apply map_get_none in Hunseen.
      simpl first_occurrences. rewrite Hunseen. simpl map.
      rewrite <- app_assoc. simpl. f_equal; [|f_equal].
      * apply map_ext_in. intros [k v] Hin. unfold settle. simpl.
        rewrite certified_any_cons.
        destruct (String.eqb (addr_string a) k) eqn:E; [|reflexivity].
        apply String.eqb_eq in E. subst k.
        apply set_has_false in Hunseen. exfalso. apply Hunseen.
        now apply (in_map fst) in Hin.
      * unfold settle, settle_new. simpl.
        now rewrite certified_any_cons, String.eqb_refl.
      * apply map_ext_in. intros b Hb.
        apply first_occurrences_not_new in Hb.
        unfold settle_new. rewrite certified_any_cons.
        destruct (String.eqb (addr_string a) (addr_string b)) eqn:E; [|reflexivity].
        apply String.eqb_eq in E. congruence.
Qed.

Lemma dedupe_refines_spec (filteredAddrs : list Address) :
  dedupe filteredAddrs = dedupe_spec filteredAddrs.
Proof.
  unfold dedupe, dedupe_spec.
  rewrite fold_dedupe by (split; constructor).
  simpl. rewrite map_map. reflexivity.
Qed.

(** *** What [first_occurrences] keeps *)

Lemma first_occurrences_strings_nodup (l : list Address) : forall seen,
  NoDup (map addr_string (first_occurrences seen l)).
Proof.
  induction l as [|a l IH]; simpl; intros seen; [constructor|].
  destruct (set_has seen (addr_string a)); [apply IH|].
  simpl. constructor; [|apply IH].
  rewrite in_map_iff. intros [b [Heq Hb]].
  now apply first_occurrences_not_new in Hb.
Qed.

Lemma first_occurrences_cover (l : list Address) : forall seen a,
  In a l ->
  set_has seen (addr_string a) = true \/
  In (addr_string a) (map addr_string (first_occurrences seen l)).
Proof.
  induction l as [|b l IH]; simpl; intros seen a Hin; [contradiction|].
  destruct (set_has seen (addr_string b)) eqn:Hb.
  - destruct Hin as [->|Hin]; [now left | now apply IH].
  - simpl. destruct Hin as [->|Hin]; [right; now left|].
    destruct (IH (seen ++ [addr_string b]) a Hin) as [H|H]; [|right; now right].
    rewrite set_has_app in H. apply orb_true_iff in H. destruct H as [H|H].
    + now left.
    + right. left. simpl in H. rewrite orb_false_r in H.
      apply String.eqb_eq in H. now symmetry.
Qed.

(** A record that is kept comes before every other record of its string
    form. *)
Lemma first_occurrences_first (l : list Address) : forall seen a,
  In a (first_occurrences seen l) ->
  exists pre post, l = pre ++ a :: post /\
                   forall b, In b pre -> addr_string b <> addr_string a.
Proof.
  induction l as [|a0 l IH]; simpl; intros seen a Hin; [contradiction|].
  destruct (set_has seen (addr_string a0)) eqn:H0.
  - pose proof (first_occurrences_unseen _ _ _ Hin) as Hnew.
    destruct (IH _ _ Hin) as (pre & post & -> & Hpre).
    exists (a0 :: pre), post. split; [reflexivity|].
    intros b [<-|Hb]; [congruence | now apply Hpre].
  - destruct Hin as [->|Hin].
    + exists [], l. split; [reflexivity | intros b []].
    + pose proof (first_occurrences_not_new _ _ _ _ Hin) as Hne.
      destruct (IH _ _ Hin) as (pre & post & -> & Hpre).
      exists (a0 :: pre), post. split; [reflexivity|].
      intros b [<-|Hb]; [congruence | now apply Hpre].
Qed.

(** *** The loop on shared objects agrees with the loop on values *)

Lemma map_get_view (hc : Heap) (m : RefMap) (k : string) :
  map_get (view hc m) k = option_map hc (refmap_get m k).
Proof.
  induction m as [|[k' r] m IH]; simpl; [reflexivity|].
  destruct (String.eqb k k'); [reflexivity | exact IH].
Qed.

Lemma refmap_get_in (m : RefMap) (k : string) (r : Ref) :
  refmap_get m k = Some r -> In (k, r) m.
Proof.
  induction m as [|[k' r'] m IH]; simpl; [discriminate|].
  destruct (String.eqb k k') eqn:E.
  - intros [= ->]. apply String.eqb_eq in E. subst. now left.
  - intros H. right. auto.
Qed.

Lemma refmap_get_unique (m : RefMap) (k : string) (r r' : Ref) :
  NoDup (map fst m) -> refmap_get m k = Some r -> In (k, r') m -> r' = r.
Proof.
  induction m as [|[k0 r0] m IH]; simpl; intros Hnd Hget Hin; [contradiction|].
  inversion Hnd as [|? ? Hnotin Hnd']; subst.
  destruct (String.eqb k k0) eqn:E.
  - injection Hget as <-. apply String.eqb_eq in E. subst k0.
    destruct Hin as [[= <-]|Hin]; [reflexivity|].
    exfalso. apply Hnotin. now apply (in_map fst) in Hin.
  - destruct Hin as [[= <- <-]|Hin]; [now rewrite String.eqb_refl in E|].
    now apply IH.
Qed.

Lemma refmap_get_none (m : RefMap) (k : string) :
  refmap_get m k = None -> forall r, ~ In (k, r) m.
Proof.
  induction m as [|[k' r'] m IH]; simpl; intros Hget r; [tauto|].
  destruct (String.eqb k k') eqn:E; [discriminate|].
  intros [[= <- <-]|Hin]; [now rewrite String.eqb_refl in E|].
  now apply (IH Hget r).
Qed.

Lemma view_set_certified (hc : Heap) (m : RefMap) (h : Heap) k e c :
  NoDup (map fst m) ->
  (forall k r, In (k, r) m -> addr_string (h r) = k) ->
  refmap_get m k = Some e ->
  view (heap_set_certified hc e c) m = map_set_certified (view hc m) k c.
Proof.
  intros Hnd Hnamed Hget.
  assert (Hke : addr_string (h e) = k)
    by (apply Hnamed; now apply refmap_get_in).
  induction m as [|[k0 r0] m IH]; simpl in *; [discriminate|].
  inversion Hnd as [|? ? Hnotin Hnd']; subst.
  destruct (String.eqb (addr_string (h e)) k0) eqn:E.
  - injection Hget as ->. apply String.eqb_eq in E. subst k0.
    unfold heap_set_certified at 1. rewrite Nat.eqb_refl. f_equal.
    apply map_ext_in. intros [k1 r1] Hin. simpl.
    unfold heap_set_certified. destruct (Nat.eqb r1 e) eqn:Er; [|reflexivity].
    apply Nat.eqb_eq in Er. subst r1. exfalso. apply Hnotin.
    rewrite (Hnamed k1 e (or_intror Hin)).
    now apply (in_map fst) in Hin.
  - assert (Hne : r0 <> e).
    { intros ->. rewrite (Hnamed k0 e (or_introl eq_refl)) in E.
      now rewrite String.eqb_refl in E. }
    unfold heap_set_certified at 1. apply Nat.eqb_neq in Hne. rewrite Hne.
    f_equal. apply IH; auto.
Qed.

(** One iteration on objects is one iteration on values, and keeps the
    invariant. *)
Lemma dedupe_step_store_sim (h : Heap) (m : RefMap) (hc : Heap) (r : Ref) :
  store_inv h m hc ->
  let st := dedupe_step_store (m, hc) r in
  dedupe_step (view hc m) (h r) = view (snd st) (fst st) /\
  store_inv h (fst st) (snd st).
Proof.
  intros [Hkeys Hnamed Hma Hcert Hun]. cbv zeta.
  unfold dedupe_step, dedupe_step_store. cbn [fst snd].
  rewrite Hma. fold (addr_string (h r)). rewrite map_get_view.
  destruct (refmap_get m (addr_string (h r))) as [e|] eqn:Hget; cbn [option_map fst snd].
  - assert (Hflag : isCertified (hc e) || isCertified (hc r) =
                    isCertified (hc e) || isCertified (h r)).
    { destruct (Nat.eq_dec r e) as [->|Hne].
      - destruct (isCertified (h e)) eqn:He.
        + now rewrite (Hcert e He).
        + now rewrite orb_false_r, orb_diag.
      - rewrite (Hun r); [reflexivity|].
        intros k Hin. apply Hne.
        apply (refmap_get_unique m (addr_string (h r)) e r Hkeys Hget).
        now rewrite (Hnamed k r Hin). }
    rewrite !orb_false_r, Hflag. split.
    + symmetry. now apply view_set_certified with (h := h).
    + constructor; try assumption.
      * intros r'. unfold heap_set_certified.
        destruct (Nat.eqb r' e) eqn:E; [|apply Hma].
        apply Nat.eqb_eq in E. subst r'. simpl. apply Hma.
      * intros r' Hr'. unfold heap_set_certified.
        destruct (Nat.eqb r' e) eqn:E; [|now apply Hcert].
        apply Nat.eqb_eq in E. subst r'. simpl.
        now rewrite (Hcert e Hr').
      * intros r' Hr'. unfold heap_set_certified.
        destruct (Nat.eqb r' e) eqn:E; [|now apply Hun].
        apply Nat.eqb_eq in E. subst r'. exfalso.
        apply (Hr' (addr_string (h r))). now apply refmap_get_in.
  - assert (Hfresh : hc r = h r).
    { apply Hun. intros k Hin.
      apply (refmap_get_none m (addr_string (h r)) Hget r).
      now rewrite (Hnamed k r Hin). }
    split.
    + unfold map_set, view. rewrite map_app. simpl. now rewrite Hfresh.
    + constructor; try assumption.
      * rewrite map_app. simpl.
        assert (Hnew : ~ In (addr_string (h r)) (map fst m)).
        { rewrite in_map_iff. intros [[k r'] [Hk Hin]]. simpl in Hk. subst k.
          exact (refmap_get_none m _ Hget r' Hin). }
        clear - Hkeys Hnew. induction m as [|[k r'] m IH]; simpl in *.
        -- constructor; [tauto | constructor].
        -- inversion Hkeys; subst. constructor.
           ++ rewrite in_app_iff. simpl. intros [H|[H|[]]]; [tauto|].
              apply Hnew. now left.
           ++ apply IH; tauto.
      * intros k r' Hin. apply in_app_iff in Hin.
        destruct Hin as [Hin|[[= <- <-]|[]]]; [now apply Hnamed | reflexivity].
      * intros r' Hr'. apply Hun. intros k Hin. apply (Hr' k).
        apply in_app_iff. now left.
Qed.

Lemma fold_dedupe_store (h : Heap) (rs : list Ref) : forall m hc,
  store_inv h m hc ->
  let st := fold_left dedupe_step_store rs (m, hc) in
  fold_left dedupe_step (map h rs) (view hc m) = view (snd st) (fst st).
Proof.
  induction rs as [|r rs IH]; intros m hc Hinv; [reflexivity|].
  cbv zeta. simpl fold_left.
  destruct (dedupe_step_store_sim h m hc r Hinv) as [Hstep Hinv'].
  rewrite Hstep.
  destruct (dedupe_step_store (m, hc) r) as [m1 hc1]. cbn [fst snd] in *.
  now apply IH.
Qed.

(** Whatever objects the list shares, reading the deduplicated objects
    after the loop gives [dedupe] of the records read before it. *)
Lemma dedupe_store_reads_dedupe (h : Heap) (filteredAddrs : list Ref) :
  map (snd (dedupe_store h filteredAddrs)) (fst (dedupe_store h filteredAddrs)) =
  dedupe (map h filteredAddrs).
Proof.
  unfold dedupe_store, dedupe. cbn [fst snd].
  pose proof (fold_dedupe_store h filteredAddrs [] h) as H.
  cbv zeta in H. simpl view at 1 in H. rewrite H.
  - unfold view. rewrite !map_map. reflexivity.
  - constructor; simpl; [constructor | tauto | reflexivity | auto | reflexivity].
Qed.

(** C8.  Deduplication in [calculateMultiaddrs] goes by the exact string
    form of the multiaddr: the result holds each string form once, and every
    string form of the input; each record kept is the first of its string
    form, the kept records stand in the order of their first appearance
    (the result is [dedupe_spec], the specification's wording), and a kept
    record is certified exactly when some input record of its string form
    is.  The loop run on shared objects reads back as the same result. *)
Theorem dedupe_first_occurrence_sticky_certified (filteredAddrs : list Address) :
  (forall (h : Heap) (refs : list Ref),
     map (snd (dedupe_store h refs)) (fst (dedupe_store h refs)) =
     dedupe (map h refs)) /\
  dedupe filteredAddrs = dedupe_spec filteredAddrs /\
  NoDup (map addr_string (dedupe filteredAddrs)) /\
  (forall a, In a filteredAddrs ->
     In (addr_string a) (map addr_string (dedupe filteredAddrs))) /\
  (forall r, In r (dedupe filteredAddrs) ->
     (exists pre a post,
        filteredAddrs = pre ++ a :: post /\
        addr_multiaddr r = addr_multiaddr a /\
        forall b, In b pre -> addr_string b <> addr_string r) /\
     (isCertified r = true <->
      exists a, In a filteredAddrs /\ addr_string a = addr_string r /\
                isCertified a = true)).
Proof.
  split; [intros h refs; apply dedupe_store_reads_dedupe|].
  rewrite dedupe_refines_spec. unfold dedupe_spec.
  assert (Hkeys : map addr_string
            (map (fun a => mkAddress (addr_multiaddr a)
                             (certified_any filteredAddrs (addr_string a)))
                 (first_occurrences [] filteredAddrs)) =
          map addr_string (first_occurrences [] filteredAddrs)).
  { rewrite map_map. apply map_ext. reflexivity. }
  split; [reflexivity|]. rewrite Hkeys. split; [|split].
  - apply first_occurrences_strings_nodup.
  - intros a Ha.
    destruct (first_occurrences_cover filteredAddrs [] a Ha) as [H|H];
      [discriminate | assumption].
  - intros r Hr. apply in_map_iff in Hr. destruct Hr as [a [<- Ha]].
    unfold addr_string at 2 3. simpl. fold (addr_string a). split.
    + destruct (first_occurrences_first _ _ _ Ha) as (pre & post & Heq & Hpre).
      exists pre, a, post. auto.
    + apply certified_any_true.
Qed.

End DedupeProperties.

(** ** The monad and the trace *)

Section TraceProperties.
Context {MA : MultiaddrOps} {C : Components}.

Lemma bind_ret_l {A B} (a : A) (k : A -> M B) : bind (ret a) k = k a.
Proof. reflexivity. Qed.

Lemma bind_run {A B} (m : M A) (k : A -> M B) (s : St) :
  bind m k s =
  match m s with
  | (inr a, s') => k a s'
  | (inl e, s') => (inl e, s')
  end.
Proof. reflexivity. Qed.

Lemma transport_dials_app (t u : list Event) :
  transport_dials (t ++ u) = (transport_dials t + transport_dials u)%nat.
Proof. unfold transport_dials. now rewrite filter_app, length_app. Qed.

Lemma transport_dials_snoc_other (t : list Event) (e : Event) :
  is_transport_dial e = false -> transport_dials (t ++ [e]) = transport_dials t.
Proof.
  intros H. rewrite transport_dials_app. unfold transport_dials at 2.
  simpl. rewrite H. simpl. lia.
Qed.

Lemma transport_dials_snoc_dial (t : list Event) (ma : Multiaddr) :
  transport_dials (t ++ [EvTransportDial ma]) = S (transport_dials t).
Proof. rewrite transport_dials_app. unfold transport_dials at 2. simpl. lia. Qed.

Lemma clear_signal_dials (s : St) :
  transport_dials (st_trace (clear_signal s)) = transport_dials (st_trace s).
Proof. unfold clear_signal. simpl. now apply transport_dials_snoc_other. Qed.

(** *** Computations that dial nothing *)

Lemma quiet_ret {A} (a : A) : quiet (ret a).
Proof. intros s. reflexivity. Qed.

Lemma quiet_throw {A} (e : Error) : quiet (@throw _ _ A e).
Proof. intros s. reflexivity. Qed.

Lemma quiet_bind {A B} (m : M A) (k : A -> M B) :
  quiet m -> (forall a, quiet (k a)) -> quiet (bind m k).
Proof.
  intros Hm Hk s. unfold bind. specialize (Hm s).
  destruct (m s) as [[e|a] s']; simpl in *; [assumption|].
  now rewrite Hk.
Qed.

Lemma quiet_try_catch {A} (m : M A) (h : Error -> M A) :
  quiet m -> (forall e, quiet (h e)) -> quiet (try_catch m h).
Proof.
  intros Hm Hh s. unfold try_catch. specialize (Hm s).
  destruct (m s) as [[e|a] s']; simpl in *; [|assumption].
  now rewrite Hh.
Qed.

Lemma quiet_emit (e : Event) : is_transport_dial e = false -> quiet (emit e).
Proof. intros H s. simpl. now apply transport_dials_snoc_other. Qed.

Lemma quiet_call {A} (e : Event) (f : World -> (Error + A) * World) :
  is_transport_dial e = false -> quiet (call e f).
Proof.
  intros H s. unfold call. destruct (f (st_world s)) as [r w]. simpl.
  now apply transport_dials_snoc_other.
Qed.

Lemma quiet_mapM {A B} (f : A -> M B) (l : list A) :
  (forall a, quiet (f a)) -> quiet (mapM f l).
Proof.
  intros Hf. induction l as [|a l IH]; simpl.
  - apply quiet_ret.
  - apply quiet_bind; [apply Hf|]. intros b.
    apply quiet_bind; [apply IH|]. intros bs. apply quiet_ret.
Qed.

Lemma quiet_progress (onProgress : bool) (name : string) :
  quiet (progress onProgress name).
Proof.
  unfold progress. destruct onProgress; [now apply quiet_emit | apply quiet_ret].
Qed.

End TraceProperties.

(** ** Address calculation *)

Section CalculateProperties.
Context {MA : MultiaddrOps} {C : Components}.

Lemma quiet_gateAddresses (addrs : list Address) : quiet (gateAddresses addrs).
Proof.
  induction addrs as [|addr rest IH]; simpl; [apply quiet_ret|].
  apply quiet_bind.
  - destruct connectionGater_denyDialMultiaddr;
      [now apply quiet_call | apply quiet_ret].
  - intros denied. apply quiet_bind; [exact IH|]. intros gated. apply quiet_ret.
Qed.

Lemma quiet_discoverAddresses peerId addrs : quiet (discoverAddresses peerId addrs).
Proof.
  unfold discoverAddresses. destruct peerId as [p|]; [|apply quiet_ret].
  destruct (peerId_equals components_peerId (Some p)); [apply quiet_throw|].
  apply quiet_bind.
  - unfold denyDialPeer. destruct connectionGater_denyDialPeer;
      [now apply quiet_call | apply quiet_ret].
  - intros [|]; [apply quiet_throw|]. apply quiet_bind.
    + unfold loadFromPeerStore. destruct addrs; [|apply quiet_ret].
      apply quiet_try_catch.
      * apply quiet_bind; [now apply quiet_call | intros; apply quiet_ret].
      * intros e. destruct (negb _); [apply quiet_throw | apply quiet_ret].
    + intros addrs1. unfold lookUpInPeerRouting.
      destruct addrs1; [|apply quiet_ret].
      apply quiet_try_catch.
      * apply quiet_bind; [now apply quiet_call | intros; apply quiet_ret].
      * intros e. apply quiet_bind; [|intros; apply quiet_ret].
        destruct (negb _); [now apply quiet_emit | apply quiet_ret].
Qed.

(** [calculateMultiaddrs] never calls [transportManager.dial]. *)
Lemma quiet_calculateMultiaddrs cfg peerId multiaddrs :
  quiet (calculateMultiaddrs cfg peerId multiaddrs).
Proof.
  unfold calculateMultiaddrs.
  apply quiet_bind.
  { apply quiet_mapM. intros ma.
    destruct (multiaddr ma); [apply quiet_throw | apply quiet_ret]. }
  intros addrs0. apply quiet_bind; [apply quiet_discoverAddresses|].
  intros addrs. apply quiet_bind.
  { unfold resolveAddresses. apply quiet_bind; [|intros; apply quiet_ret].
    apply quiet_mapM. intros addr. unfold resolveAddress.
    apply quiet_bind; [now apply quiet_call|].
    intros [|r [|r' result]]; try apply quiet_ret.
    destruct (ma_equals r (addr_multiaddr addr)); apply quiet_ret. }
  intros resolved.
  destruct (dedupe _) as [|d ds]; [apply quiet_throw|].
  apply quiet_bind; [apply quiet_gateAddresses|].
  intros gated. destruct (sortAddresses cfg gated); [apply quiet_throw|].
  apply quiet_bind; [now apply quiet_emit|]. intros _.
  apply quiet_bind; [now apply quiet_emit|]. intros _. apply quiet_ret.
Qed.

Lemma quiet_calculateForJob cfg job : quiet (calculateForJob cfg job).
Proof.
  unfold calculateForJob.
  apply quiet_bind; [apply quiet_progress|]. intros _.
  apply quiet_try_catch.
  - apply quiet_bind; [apply quiet_calculateMultiaddrs|]. intros addrs.
    apply quiet_bind; [apply quiet_progress | intros; apply quiet_ret].
  - intros e s. simpl. now apply transport_dials_snoc_other.
Qed.

(** *** Errors of the peer store and of the peer routing *)

Lemma loadFromPeerStore_throws (p : PeerId) (s : St) err w :
  peerStore_get p (st_world s) = (inl err, w) ->
  loadFromPeerStore p [] s =
  (if String.eqb (err_name err) "NotFoundError" then inr [] else inl err,
   mkSt w (st_trace s ++ [EvPeerStoreGet p])).
Proof.
  intros Hget. unfold loadFromPeerStore, try_catch, bind, call. rewrite Hget.
  destruct (String.eqb (err_name err) "NotFoundError"); reflexivity.
Qed.

Lemma lookUpInPeerRouting_throws (p : PeerId) (s : St) err w :
  peerRouting_findPeer p (st_world s) = (inl err, w) ->
  lookUpInPeerRouting p [] s =
  (inr [], mkSt w (st_trace s ++ routing_failure_trace p err)).
Proof.
  intros Hfind. unfold lookUpInPeerRouting, try_catch, bind, call.
  rewrite Hfind. unfold routing_failure_trace.
  destruct (String.eqb (err_name err) "NoPeerRoutersError"); simpl.
  - reflexivity.
  - now rewrite <- app_assoc.
Qed.

(** With an empty seed, what discovery throws is what the calculation
    throws, and discovering nothing ends in [NoValidAddressesError]. *)
Lemma calculate_without_addresses cfg (p : PeerId) (s s' : St) r :
  discoverAddresses (Some p) [] s = (r, s') ->
  fst (calculateMultiaddrs cfg (Some p) [] s) =
  match r with
  | inl err => inl err
  | inr [] => inl (NoValidAddressesError "The dial request has no valid addresses")
  | inr (a :: l) => fst (calculateMultiaddrs cfg (Some p) [] s)
  end.
Proof.
  intros Hd. destruct r as [err|[|a l]]; [| |reflexivity].
  - unfold calculateMultiaddrs. cbn [seedAddresses mapM].
    rewrite bind_ret_l, bind_run, Hd. reflexivity.
  - unfold calculateMultiaddrs. cbn [seedAddresses mapM].
    rewrite bind_ret_l, bind_run, Hd. reflexivity.
Qed.

(** C1, amended.  During address discovery in [calculateMultiaddrs] (peer id
    present, not our own and not denied by the gater; seed empty):
    an error of [peerStore.get] other than [NotFoundError] is what the
    calculation throws; a [NotFoundError] of [peerStore.get] is swallowed;
    every error of [peerRouting.findPeer] is swallowed, a
    [NoPeerRoutersError] silently and any other after being logged, and no
    address is added; so when the peer store has nothing and the routing
    fails, the calculation throws [NoValidAddressesError], whatever the
    routing threw. *)
Theorem discovery_error_policy cfg (p : PeerId) (s s1 : St) :
  peerId_equals components_peerId (Some p) = false ->
  denyDialPeer p s = (inr false, s1) ->
  (forall err w,
     peerStore_get p (st_world s1) = (inl err, w) ->
     err_name err <> "NotFoundError" ->
     fst (calculateMultiaddrs cfg (Some p) [] s) = inl err) /\
  (forall err w,
     peerStore_get p (st_world s1) = (inl err, w) ->
     err_name err = "NotFoundError" ->
     loadFromPeerStore p [] s1 =
       (inr [], mkSt w (st_trace s1 ++ [EvPeerStoreGet p]))) /\
  (forall s2 err w,
     peerRouting_findPeer p (st_world s2) = (inl err, w) ->
     lookUpInPeerRouting p [] s2 =
       (inr [], mkSt w (st_trace s2 ++ routing_failure_trace p err))) /\
  (forall addrs w err' w',
     peerStore_get p (st_world s1) = (addrs, w) ->
     addrs = inr [] \/
       (exists err, addrs = inl err /\ err_name err = "NotFoundError") ->
     peerRouting_findPeer p w = (inl err', w') ->
     fst (calculateMultiaddrs cfg (Some p) [] s) =
       inl (NoValidAddressesError "The dial request has no valid addresses")).
Proof.
  intros Hself Hgate.
  assert (Hdisc : discoverAddresses (Some p) [] s =
                  bind (loadFromPeerStore p [])
                       (fun addrs1 => lookUpInPeerRouting p addrs1) s1).
  { unfold discoverAddresses. rewrite Hself. unfold bind at 1. now rewrite Hgate. }
  split; [|split; [|split]].
  - intros err w Hget Hname.
    rewrite (calculate_without_addresses cfg p s
               (mkSt w (st_trace s1 ++ [EvPeerStoreGet p])) (inl err)).
    + reflexivity.
    + rewrite Hdisc. unfold bind. rewrite (loadFromPeerStore_throws p s1 err w Hget).
      apply String.eqb_neq in Hname. now rewrite Hname.
  - intros err w Hget Hname.
    rewrite (loadFromPeerStore_throws p s1 err w Hget).
    apply String.eqb_eq in Hname. now rewrite Hname.
  - intros s2 err w Hfind. now apply lookUpInPeerRouting_throws.
  - intros addrs w err' w' Hget Hnone Hfind.
    set (s2 := mkSt w (st_trace s1 ++ [EvPeerStoreGet p])).
    assert (Hload : loadFromPeerStore p [] s1 = (inr [], s2)).
    { destruct Hnone as [->|[err [-> Hname]]].
      - unfold loadFromPeerStore, try_catch, bind, call. now rewrite Hget.
      - rewrite (loadFromPeerStore_throws p s1 err w Hget).
        apply String.eqb_eq in Hname. now rewrite Hname. }
    rewrite (calculate_without_addresses cfg p s
               (mkSt w' (st_trace s2 ++ routing_failure_trace p err')) (inr [])).
    + reflexivity.
    + rewrite Hdisc. unfold bind. rewrite Hload.
      now apply lookUpInPeerRouting_throws.
Qed.

(** C9.  [isDialable] never rejects.  It runs [calculateMultiaddrs] without
    a peer id on the set of the string forms of the given multiaddrs; when
    that throws, whatever the error, it returns [false]; when that succeeds
    it returns [true], except that with [runOnLimitedConnection = false] it
    returns whether some calculated address is not a circuit relay
    address. *)
Theorem isDialable_never_rejects cfg (multiaddrs : list Multiaddr)
  (runOnLimitedConnection : option bool) (s : St) :
  fst (isDialable cfg multiaddrs runOnLimitedConnection s) =
  inr match fst (calculateMultiaddrs cfg None
                   (set_of_list (map ma_toString multiaddrs)) s) with
      | inl _ => false
      | inr addresses =>
          match runOnLimitedConnection with
          | Some false =>
              existsb (fun addr => negb (Circuit_matches (addr_multiaddr addr)))
                      addresses
          | _ => true
          end
      end.
Proof.
  unfold isDialable, try_catch, bind.
  destruct (calculateMultiaddrs cfg None _ s) as [[err|addresses] s']; simpl.
  - reflexivity.
  - destruct runOnLimitedConnection as [[|]|]; simpl; try reflexivity.
    now rewrite find_existsb.
Qed.

End CalculateProperties.

(** ** The attempt loop *)

Section LoopProperties.
Context {MA : MultiaddrOps} {C : Components}.

(** The bookkeeping after a dial never throws and dials nothing. *)
Lemma recordDialSuccess_returns (conn : Connection) (s : St) :
  fst (recordDialSuccess conn s) = inr tt /\
  transport_dials (st_trace (snd (recordDialSuccess conn s))) =
  transport_dials (st_trace s).
Proof.
  unfold recordDialSuccess, try_catch, call, emit.
  destruct (peerStore_merge _ _ _) as [[e|[]] w]; simpl;
    rewrite ?transport_dials_snoc_other by reflexivity; auto.
Qed.

Lemma noteDialFailure_returns (peerId : option PeerId) (s : St) :
  fst (noteDialFailure peerId s) = inr tt /\
  transport_dials (st_trace (snd (noteDialFailure peerId s))) =
  transport_dials (st_trace s).
Proof.
  unfold noteDialFailure, recordDialFailure, bind, try_catch, call, emit, ret.
  destruct peerId as [p|]; simpl.
  - destruct (peerStore_merge _ _ _) as [[e|[]] w]; simpl;
      rewrite ?transport_dials_snoc_other by reflexivity; auto.
  - rewrite transport_dials_snoc_other by reflexivity. auto.
Qed.

Lemma afterFailedDial_dials peerId ma s w :
  transport_dials (st_trace (afterFailedDial peerId ma s w)) =
  S (transport_dials (st_trace s)).
Proof.
  unfold afterFailedDial.
  rewrite (proj2 (noteDialFailure_returns _ _)). simpl.
  apply transport_dials_snoc_dial.
Qed.

(** *** One iteration, case by case *)

Lemma attempt_at_limit cfg peerId dialed errors address rest s :
  dialed = maxPeerAddrsToDial cfg ->
  attemptLoop cfg peerId dialed errors (address :: rest) s =
  (inl (DialError "Peer had more than maxPeerAddrsToDial"), s).
Proof. intros ->. simpl. now rewrite Z.eqb_refl. Qed.

Lemma attempt_succeeds cfg peerId dialed errors address rest s conn w :
  dialed <> maxPeerAddrsToDial cfg ->
  transportManager_dial (addr_multiaddr address) (st_world s) = (inr conn, w) ->
  attemptLoop cfg peerId dialed errors (address :: rest) s =
  (inr conn,
   snd (recordDialSuccess conn
          (mkSt w (st_trace s ++ [EvTransportDial (addr_multiaddr address)])))).
Proof.
  intros Hlim Hdial. simpl. apply Z.eqb_neq in Hlim. rewrite Hlim.
  unfold try_catch, bind at 1, call at 1. rewrite Hdial.
  unfold bind, ret.
  pose proof (recordDialSuccess_returns conn
    (mkSt w (st_trace s ++ [EvTransportDial (addr_multiaddr address)]))) as [H _].
  destruct (recordDialSuccess conn _) as [r s']. simpl in *. now subst r.
Qed.

Lemma attempt_fails cfg peerId dialed errors address rest s err w :
  dialed <> maxPeerAddrsToDial cfg ->
  transportManager_dial (addr_multiaddr address) (st_world s) = (inl err, w) ->
  attemptLoop cfg peerId dialed errors (address :: rest) s =
  let s' := afterFailedDial peerId (addr_multiaddr address) s w in
  if signal_aborted (st_world s')
  then (inl (TimeoutError (err_message err)), s')
  else attemptLoop cfg peerId (dialed + 1) (errors ++ [err]) rest s'.
Proof.
  intros Hlim Hdial. simpl. apply Z.eqb_neq in Hlim. rewrite Hlim.
  unfold try_catch, bind at 1, call at 1. rewrite Hdial.
  unfold afterFailedDial, bind, read_aborted.
  pose proof (noteDialFailure_returns peerId
    (mkSt w (st_trace s ++ [EvTransportDial (addr_multiaddr address)]))) as [H _].
  destruct (noteDialFailure peerId _) as [r s']. simpl in *. subst r.
  destruct (signal_aborted (st_world s')); reflexivity.
Qed.

(** *** Along the transition system *)

Lemma loop_next_run cfg peerId l1 l2 :
  loop_next cfg peerId l1 l2 -> runLoop cfg peerId l1 = runLoop cfg peerId l2.
Proof.
  intros H. destruct H as [dialed errors address rest s err w Hlim Hdial Hgo].
  unfold runLoop. simpl ls_dialed. simpl ls_errors. simpl ls_todo. simpl ls_st.
  rewrite (attempt_fails cfg peerId dialed errors address rest s err w Hlim Hdial).
  cbv zeta. now rewrite Hgo.
Qed.

Lemma loop_reaches_run cfg peerId l1 l2 :
  loop_reaches cfg peerId l1 l2 -> runLoop cfg peerId l1 = runLoop cfg peerId l2.
Proof.
  induction 1 as [|l1 l2 l3 _ IH Hnext]; [reflexivity|].
  rewrite IH. now apply loop_next_run.
Qed.

(** What holds at the head of every iteration of a loop started by the job:
    one error and one transport dial per address visited, in order, and the
    counter counts them. *)
Lemma loop_reaches_invariant cfg peerId addrsToDial s0 l :
  loop_reaches cfg peerId (loop_start addrsToDial s0) l ->
  ls_dialed l = Z.of_nat (length (ls_errors l)) /\
  transport_dials (st_trace (ls_st l)) =
    (transport_dials (st_trace s0) + length (ls_errors l))%nat /\
  exists visited, addrsToDial = visited ++ ls_todo l /\
                  Forall2 dial_failed_with visited (ls_errors l).
Proof.
  remember (loop_start addrsToDial s0) as l0 eqn:E.
  induction 1 as [|l1 l2 l3 _ IH Hnext]; subst.
  - simpl. repeat split; [lia|]. exists []. split; [reflexivity | constructor].
  - destruct (IH eq_refl) as (Hd & Ht & visited & Hv & Herrs). clear IH.
    destruct Hnext as [dialed errors address rest s err w Hlim Hdial Hgo].
    simpl in *. rewrite length_app. simpl. repeat split.
    + lia.
    + rewrite afterFailedDial_dials. lia.
    + exists (visited ++ [address]). rewrite <- app_assoc. simpl.
      split; [assumption|]. apply Forall2_app; [assumption|].
      constructor; [|constructor]. now exists (st_world s), w.
Qed.

(** From any iteration on, the loop dials at most as often as the counter
    is below the limit. *)
Lemma attemptLoop_dials_bounded cfg peerId addrsToDial :
  forall dialed errors s,
  dialed <= maxPeerAddrsToDial cfg ->
  0 <= dials_added s (attemptLoop cfg peerId dialed errors addrsToDial s)
    <= maxPeerAddrsToDial cfg - dialed.
Proof.
  unfold dials_added.
  induction addrsToDial as [|address rest IH]; intros dialed errors s Hle.
  - simpl. destruct errors as [|e [|e' errors]]; simpl; lia.
  - destruct (Z.eq_dec dialed (maxPeerAddrsToDial cfg)) as [Heq|Hne].
    + rewrite attempt_at_limit by assumption. simpl. lia.
    + destruct (transportManager_dial (addr_multiaddr address) (st_world s))
        as [[err|conn] w] eqn:Hdial.
      * rewrite (attempt_fails cfg peerId dialed errors address rest s err w
                   Hne Hdial). cbv zeta.
        pose proof (afterFailedDial_dials peerId (addr_multiaddr address) s w) as Hd.
        destruct (signal_aborted _).
        -- simpl. lia.
        -- specialize (IH (dialed + 1) (errors ++ [err])
                         (afterFailedDial peerId (addr_multiaddr address) s w)).
           lia.
      * rewrite (attempt_succeeds cfg peerId dialed errors address rest s conn w
                   Hne Hdial). simpl.
        rewrite (proj2 (recordDialSuccess_returns _ _)). simpl.
        rewrite transport_dials_snoc_dial. lia.
Qed.

Lemma dialAddresses_unfold cfg peerId addrsToDial s :
  dialAddresses cfg peerId addrsToDial s =
  (fst (runLoop cfg peerId (loop_start addrsToDial s)),
   clear_signal (snd (runLoop cfg peerId (loop_start addrsToDial s)))).
Proof.
  unfold dialAddresses, try_finally, runLoop, loop_start. simpl.
  now destruct (attemptLoop _ _ _ _ _ _).
Qed.

Lemma dialAddresses_dials_bounded cfg peerId addrsToDial s :
  0 <= maxPeerAddrsToDial cfg ->
  0 <= dials_added s (dialAddresses cfg peerId addrsToDial s)
    <= maxPeerAddrsToDial cfg.
Proof.
  intros Hcap.
  pose proof (attemptLoop_dials_bounded cfg peerId addrsToDial 0 [] s Hcap) as H.
  unfold dials_added in *. rewrite dialAddresses_unfold. cbn [snd].
  rewrite clear_signal_dials. unfold runLoop, loop_start. simpl. lia.
Qed.

(** C2.  With a limit [maxPeerAddrsToDial] that is a count (not negative):
    the attempt loop of a job calls [transportManager.dial] at most
    [maxPeerAddrsToDial] times, and so does the whole run of the job; and
    when the loop comes to a further address with the counter at the limit
    (which it does only after that many failed dials and no successful one),
    the job rejects with [DialError("Peer had more than maxPeerAddrsToDial")]
    from the state it is in, the signal cleared and no further call made:
    exactly [maxPeerAddrsToDial] transport dials were made. *)
Theorem transport_dials_capped cfg peerId addrsToDial s :
  0 <= maxPeerAddrsToDial cfg ->
  dials_added s (dialAddresses cfg peerId addrsToDial s)
    <= maxPeerAddrsToDial cfg /\
  (forall dq job, config dq = cfg ->
     dials_added s (runJob dq job s) <= maxPeerAddrsToDial cfg) /\
  forall l address rest,
    loop_reaches cfg peerId (loop_start addrsToDial s) l ->
    ls_dialed l = maxPeerAddrsToDial cfg ->
    ls_todo l = address :: rest ->
    dialAddresses cfg peerId addrsToDial s =
      (inl (DialError "Peer had more than maxPeerAddrsToDial"),
       clear_signal (ls_st l)) /\
    dials_added s (dialAddresses cfg peerId addrsToDial s) =
      maxPeerAddrsToDial cfg.
Proof.
  intros Hcap. split; [|split].
  - apply dialAddresses_dials_bounded; assumption.
  - intros dq job <-. unfold runJob, resumeJob, dials_added.
    pose proof (quiet_calculateForJob (config dq) job s) as Hq.
    destruct (calculateForJob (config dq) job s) as [[err|addrs] s1];
      simpl in Hq.
    + simpl. lia.
    + pose proof (dialAddresses_dials_bounded (config dq) (job_peerId job)
                    addrs s1 Hcap) as Hb.
      unfold dials_added in Hb.
      destruct (dialAddresses (config dq) (job_peerId job) addrs s1) as [r s2].
      simpl in *. lia.
  - intros l address rest Hreach Hd Htodo.
    pose proof (loop_reaches_invariant _ _ _ _ _ Hreach) as (Hcount & Htrace & _).
    assert (Hrun : runLoop cfg peerId (loop_start addrsToDial s) =
                   (inl (DialError "Peer had more than maxPeerAddrsToDial"),
                    ls_st l)).
    { rewrite (loop_reaches_run _ _ _ _ Hreach). unfold runLoop. rewrite Htodo.
      now apply attempt_at_limit. }
    rewrite dialAddresses_unfold, Hrun. cbn [fst snd]. split; [reflexivity|].
    unfold dials_added. cbn [snd]. rewrite clear_signal_dials. lia.
Qed.

(** C4.  When a transport dial attempt of the loop fails and the composite
    signal is aborted where the [catch] block tests it (after the failure is
    logged and recorded; an abort signal does not reset, so one aborted when
    the dial fails is aborted there), the loop stops: the job rejects with a
    [TimeoutError] that carries the message of the failed dial, and the
    failed dial is the last transport dial of the job. *)
Theorem failed_dial_under_abort_times_out
  cfg peerId addrsToDial s0 l address rest err w :
  loop_reaches cfg peerId (loop_start addrsToDial s0) l ->
  ls_todo l = address :: rest ->
  ls_dialed l <> maxPeerAddrsToDial cfg ->
  transportManager_dial (addr_multiaddr address) (st_world (ls_st l))
    = (inl err, w) ->
  signal_aborted
    (st_world (afterFailedDial peerId (addr_multiaddr address) (ls_st l) w))
    = true ->
  dialAddresses cfg peerId addrsToDial s0 =
    (inl (TimeoutError (err_message err)),
     clear_signal (afterFailedDial peerId (addr_multiaddr address) (ls_st l) w)) /\
  transport_dials (st_trace (snd (dialAddresses cfg peerId addrsToDial s0))) =
    S (transport_dials (st_trace (ls_st l))).
Proof.
  intros Hreach Htodo Hlim Hdial Habort.
  assert (Hrun : runLoop cfg peerId (loop_start addrsToDial s0) =
                 (inl (TimeoutError (err_message err)),
                  afterFailedDial peerId (addr_multiaddr address) (ls_st l) w)).
  { rewrite (loop_reaches_run _ _ _ _ Hreach). unfold runLoop. rewrite Htodo.
    rewrite (attempt_fails cfg peerId (ls_dialed l) (ls_errors l) address rest
               (ls_st l) err w Hlim Hdial).
    cbv zeta. now rewrite Habort. }
  rewrite dialAddresses_unfold, Hrun. cbn [fst snd]. split; [reflexivity|].
  rewrite clear_signal_dials. apply afterFailedDial_dials.
Qed.

(** C3, amended.  When the loop visits every calculated address (the limit
    [maxPeerAddrsToDial] is not reached before the last one), every dial
    fails and the composite signal is not aborted at any of the failures:
    the errors collected are those of the dials, one per address and in
    order; with exactly one address the job rejects with that address's own
    error; with two or more it rejects with one [AggregateError] that wraps
    them all, with message "All multiaddr dials failed"; one transport dial
    was made per address.  And in all cases the caller gets one outcome, a
    rejection or a connection, never both. *)
Theorem exhausted_addresses_rejection cfg peerId addrsToDial s0 :
  (forall l,
     loop_reaches cfg peerId (loop_start addrsToDial s0) l ->
     ls_todo l = [] ->
     Forall2 dial_failed_with addrsToDial (ls_errors l) /\
     (forall e, ls_errors l = [e] ->
        fst (dialAddresses cfg peerId addrsToDial s0) = inl e) /\
     ((2 <= length (ls_errors l))%nat ->
        fst (dialAddresses cfg peerId addrsToDial s0) =
          inl (AggregateError (ls_errors l) "All multiaddr dials failed")) /\
     transport_dials (st_trace (snd (dialAddresses cfg peerId addrsToDial s0))) =
       (transport_dials (st_trace s0) + length addrsToDial)%nat) /\
  ((exists e, fst (dialAddresses cfg peerId addrsToDial s0) = inl e) <->
   ~ (exists conn, fst (dialAddresses cfg peerId addrsToDial s0) = inr conn)).
Proof.
  split.
  - intros l Hreach Htodo.
    pose proof (loop_reaches_invariant _ _ _ _ _ Hreach)
      as (_ & Htrace & visited & Hv & Herrs).
    rewrite Htodo, app_nil_r in Hv. subst visited.
    assert (Hrun : runLoop cfg peerId (loop_start addrsToDial s0) =
                   runLoop cfg peerId l) by apply (loop_reaches_run _ _ _ _ Hreach).
    unfold runLoop at 2 in Hrun. rewrite Htodo in Hrun. simpl in Hrun.
    rewrite dialAddresses_unfold. cbn [fst snd].
    split; [assumption|]. split; [|split].
    + intros e He. rewrite Hrun, He. reflexivity.
    + intros Hlen. rewrite Hrun.
      destruct (ls_errors l) as [|e [|e' es]]; simpl in Hlen; try lia.
      reflexivity.
    + rewrite clear_signal_dials, Hrun.
      rewrite (Forall2_length Herrs).
      destruct (ls_errors l) as [|e [|e' es]]; simpl; exact Htrace.
  - destruct (fst (dialAddresses cfg peerId addrsToDial s0)) as [e|conn].
    + split; [intros _ [conn H]; discriminate | intros _; now exists e].
    + split; [intros [e H]; discriminate |
              intros H; exfalso; apply H; now exists conn].
Qed.

End LoopProperties.

(** ** [dial]: short circuit, join, full queue *)

Section DialProperties.
Context {MA : MultiaddrOps}.

(** *** The two [find] predicates against the overlap relations *)

Lemma peerId_equals_true (p : PeerId) (q : option PeerId) :
  peerId_equals p q = true <-> q = Some p.
Proof.
  destruct q as [q|]; simpl.
  - rewrite String.eqb_eq. split; [now intros -> | now intros [= ->]].
  - split; discriminate.
Qed.

Lemma connectionMatches_overlaps options target conn :
  force options <> Some true ->
  connectionMatches options target conn = true <->
  connection_overlaps target conn.
Proof.
  intros Hforce. unfold connectionMatches, connection_overlaps.
  assert (Hfind : match find (fun addr => ma_equals addr (remoteAddr conn))
                             (target_multiaddrs target) with
                  | Some _ => true | None => false end = true <->
                  exists addr, In addr (target_multiaddrs target) /\
                               ma_equals addr (remoteAddr conn) = true).
  { destruct (find _ _) as [addr|] eqn:Hf.
    - apply find_some in Hf. split; [intros _; now exists addr | reflexivity].
    - split; [discriminate|]. intros [addr [Hin Heq]].
      now rewrite (find_none _ _ Hf addr Hin) in Heq. }
  destruct (force options) as [[|]|]; try congruence;
    (destruct (peerId_equals (remotePeer conn) (target_peerId target)) eqn:Hp;
     [apply peerId_equals_true in Hp; tauto|];
     rewrite Hfind; split; [tauto|]; intros [H|H]; [|assumption];
     apply peerId_equals_true in H; congruence).
Qed.

Lemma connectionMatches_forced options target conn :
  force options = Some true -> connectionMatches options target conn = false.
Proof. intros H. unfold connectionMatches. now rewrite H. Qed.

Lemma jobMatches_overlaps target job :
  jobMatches target job = true <-> job_overlaps target job.
Proof.
  unfold jobMatches, job_overlaps.
  assert (Hset : existsb (fun ma => set_has (job_multiaddrs job) (ma_toString ma))
                         (target_multiaddrs target) = true <->
                 exists ma, In ma (target_multiaddrs target) /\
                            In (ma_toString ma) (job_multiaddrs job)).
  { rewrite existsb_exists. split; intros [ma [Hin H]]; exists ma;
      (split; [assumption|]); now apply set_has_true. }
  destruct (target_peerId target) as [p|].
  - destruct (peerId_equals p (job_peerId job)) eqn:Hp.
    + apply peerId_equals_true in Hp. split; [|reflexivity].
      intros _. left. now exists p.
    + rewrite Hset. split; [tauto|]. intros [[q [[= <-] Hq]]|H]; [|assumption].
      apply peerId_equals_true in Hq. congruence.
  - rewrite Hset. split; [tauto|]. intros [[q [[=] _]]|H]. assumption.
Qed.

Lemma jobMatches_false target job :
  jobMatches target job = false <-> ~ job_overlaps target job.
Proof.
  rewrite <- jobMatches_overlaps.
  destruct (jobMatches target job); intuition congruence.
Qed.

(** *** The ways out of [dial] *)

Lemma dial_short_circuit dq target options conn :
  existingConnection dq options target = Some conn ->
  status conn = open ->
  dial dq target options =
  mkDialStep (AlreadyConnected conn)
    (emit_if (onProgress options) "dial-queue:already-connected") dq.
Proof. intros He Hs. unfold dial. now rewrite He, Hs. Qed.

Lemma dial_proceeds dq target options :
  (forall conn, existingConnection dq options target = Some conn ->
                status conn <> open) ->
  dial dq target options = joinOrAdd dq target options.
Proof.
  intros H. unfold dial.
  destruct (existingConnection dq options target) as [conn|]; [|reflexivity].
  specialize (H conn eq_refl). now destruct (status conn).
Qed.

Lemma dial_cases dq target options :
  (exists conn, existingConnection dq options target = Some conn /\
                status conn = open /\
                dial dq target options =
                mkDialStep (AlreadyConnected conn)
                  (emit_if (onProgress options) "dial-queue:already-connected") dq) \/
  dial dq target options = joinOrAdd dq target options.
Proof.
  unfold dial.
  destruct (existingConnection dq options target) as [conn|]; [|now right].
  destruct (status conn) eqn:Hs; simpl; [left|right|right]; try reflexivity.
  exists conn. auto.
Qed.

Lemma joinFirst_at target pre job post :
  (forall j, In j pre -> jobMatches target j = false) ->
  jobMatches target job = true ->
  joinFirst target (pre ++ job :: post) =
  pre ++ mkJob (job_id job) (job_peerId job)
           (set_add_all (job_multiaddrs job)
              (map ma_toString (target_multiaddrs target)))
           (job_priority job) (job_onProgress job) (S (job_recipients job))
       :: post.
Proof.
  intros Hpre Hjob. induction pre as [|j pre IH]; simpl.
  - now rewrite Hjob.
  - rewrite (Hpre j (or_introl eq_refl)). f_equal. apply IH.
    intros j' Hj'. apply Hpre. now right.
Qed.


Lemma queue_insert_length job q : length (queue_insert job q) = S (length q).
Proof.
  induction q as [|j q IH]; simpl; [reflexivity|].
  destruct (job_priority j <? job_priority job); simpl;
    [reflexivity | now rewrite IH].
Qed.

(** A call that does not return an existing connection joins the first job
    of the queue that overlaps the target. *)
Lemma dial_joins_first dq target options pre job post :
  (forall conn, outcome (dial dq target options) <> AlreadyConnected conn) ->
  queue dq = pre ++ job :: post ->
  (forall j, In j pre -> ~ job_overlaps target j) ->
  job_overlaps target job ->
  dial dq target options =
    mkDialStep (JoinedJob (job_id job))
      (emit_if (onProgress options) "dial-queue:already-in-dial-queue")
      (withQueue dq
         (pre ++ mkJob (job_id job) (job_peerId job)
                   (set_add_all (job_multiaddrs job)
                      (map ma_toString (target_multiaddrs target)))
                   (job_priority job) (job_onProgress job)
                   (S (job_recipients job))
              :: post)).
Proof.
  intros Hnot Hq Hpre Hjob.
  assert (Hpre' : forall j, In j pre -> jobMatches target j = false)
    by (intros j Hj; apply jobMatches_false; auto).
  apply jobMatches_overlaps in Hjob.
  destruct (dial_cases dq target options) as [(conn & _ & _ & H)|H].
  - exfalso. apply (Hnot conn). now rewrite H.
  - rewrite H. unfold joinOrAdd, existingDial.
    assert (Hfind : find (jobMatches target) (queue dq) = Some job).
    { apply find_first. exists pre, post. auto. }
    rewrite Hfind, Hq, (joinFirst_at target pre job post Hpre' Hjob).
    reflexivity.
Qed.

(** C5, amended.  When [force] is not set and the first connection of the
    connections map, in its iteration order, that is to the target peer or
    at one of the target multiaddrs is open, [dial] returns that connection
    object; the dial queue is left as it was, so no job is added, and
    without a job nothing reaches the transport manager. *)
Theorem open_first_match_returned dq target options pre conn post :
  force options <> Some true ->
  concat (map snd (connections dq)) = pre ++ conn :: post ->
  (forall c, In c pre -> ~ connection_overlaps target c) ->
  connection_overlaps target conn ->
  status conn = open ->
  dial dq target options =
  mkDialStep (AlreadyConnected conn)
    (emit_if (onProgress options) "dial-queue:already-connected") dq.
Proof.
  intros Hforce Hconns Hpre Hconn Hopen.
  apply dial_short_circuit; [|assumption].
  unfold existingConnection. apply find_first. exists pre, post.
  split; [assumption|]. split.
  - intros c Hc. specialize (Hpre c Hc).
    destruct (connectionMatches options target c) eqn:E; [|reflexivity].
    apply connectionMatches_overlaps in E; tauto.
  - now apply connectionMatches_overlaps.
Qed.

(** C6, amended.  A [dial] call that does not return an existing open
    connection and whose target overlaps a queued job (same peer id, or a
    shared address string) creates no new job: the first overlapping job of
    the queue gets every target address string added to its multiaddr set,
    which becomes the union of the two, and the caller is one more recipient
    of that job's shared result. *)
Theorem join_first_matching_job dq target options pre job post :
  (forall conn, outcome (dial dq target options) <> AlreadyConnected conn) ->
  queue dq = pre ++ job :: post ->
  (forall j, In j pre -> ~ job_overlaps target j) ->
  job_overlaps target job ->
  let joined :=
    mkJob (job_id job) (job_peerId job)
      (set_add_all (job_multiaddrs job)
         (map ma_toString (target_multiaddrs target)))
      (job_priority job) (job_onProgress job) (S (job_recipients job)) in
  dial dq target options =
    mkDialStep (JoinedJob (job_id job))
      (emit_if (onProgress options) "dial-queue:already-in-dial-queue")
      (withQueue dq (pre ++ joined :: post)) /\
  (forall str, In str (job_multiaddrs joined) <->
     In str (job_multiaddrs job) \/
     exists ma, In ma (target_multiaddrs target) /\ ma_toString ma = str) /\
  length (queue (after (dial dq target options))) = length (queue dq).
Proof.
  intros Hnot Hq Hpre Hjob joined.
  pose proof (dial_joins_first dq target options pre job post Hnot Hq Hpre Hjob)
    as Hdial.
  split; [exact Hdial|]. split.
  - intros str. unfold joined. simpl. rewrite set_add_all_in, in_map_iff.
    split; (intros [H|[ma H]]; [now left | right; exists ma; tauto]).
  - rewrite Hdial, Hq. simpl. rewrite !length_app. reflexivity.
Qed.

(** C7.  When no open connection overlaps the target, no queued job
    overlaps it and [queue.size >= maxDialQueueLength], [dial] rejects with
    [DialError("Dial queue is full")] and leaves the dial queue as it was;
    and whenever [dial] does add a job, the queue is one longer than before
    and not longer than [maxDialQueueLength]. *)
Theorem full_queue_rejects dq target options :
  ((forall conn, In conn (concat (map snd (connections dq))) ->
                 status conn = open -> ~ connection_overlaps target conn) ->
   (forall job, In job (queue dq) -> ~ job_overlaps target job) ->
   queue_size dq >= maxDialQueueLength (config dq) ->
   dial dq target options =
     mkDialStep (Rejected (DialError "Dial queue is full")) [] dq) /\
  (forall id, outcome (dial dq target options) = AddedJob id ->
     queue_size (after (dial dq target options)) = queue_size dq + 1 /\
     queue_size (after (dial dq target options))
       <= maxDialQueueLength (config dq)).
Proof.
  split.
  - intros Hconns Hjobs Hfull.
    rewrite dial_proceeds.
    + unfold joinOrAdd, existingDial.
      assert (Hnone : find (jobMatches target) (queue dq) = None).
      { apply find_none_iff. intros j Hj. apply jobMatches_false. auto. }
      rewrite Hnone.
      assert (Hge : (queue_size dq >=? maxDialQueueLength (config dq)) = true)
        by (apply Z.geb_le; lia).
      now rewrite Hge.
    + intros conn Hfind Hopen. unfold existingConnection in Hfind.
      apply find_some in Hfind. destruct Hfind as [Hin Hm].
      destruct (force options) as [[|]|] eqn:Hforce;
        [now rewrite connectionMatches_forced in Hm | |];
        (apply connectionMatches_overlaps in Hm; [|congruence];
         exact (Hconns conn Hin Hopen Hm)).
  - intros id Hadded.
    destruct (dial_cases dq target options) as [(conn & _ & _ & H)|H].
    + rewrite H in Hadded. discriminate.
    + rewrite H in *. unfold joinOrAdd in *.
      destruct (existingDial dq target); [discriminate|].
      destruct (queue_size dq >=? maxDialQueueLength (config dq)) eqn:Hge;
        [discriminate|].
      rewrite Z.geb_leb in Hge. apply Z.leb_gt in Hge.
      unfold queue_size in *. simpl. rewrite queue_insert_length. lia.
Qed.

(** *** The address set of a queued job only grows *)




Lemma queue_insert_in job j (q : list Job) :
  In j q -> In j (queue_insert job q).
Proof.
  induction q as [|j' q IH]; simpl; [contradiction|].
  intros Hin. destruct (job_priority j' <? job_priority job); simpl.
  - now right.
  - destruct Hin as [->|Hin]; [now left | right; auto].
Qed.


(** *** A queued job stays queued *)






End DialProperties.

(** ** A running job and later calls of [dial] *)

Section JobProperties.
Context {MA : MultiaddrOps} {C : Components}.


End JobProperties.

(* ================================================================== *)
(** * Part II, continued: properties of the rest of the code *)
(* ================================================================== *)

Section SilentProperties.
Context {MA : MultiaddrOps} {C : Components}.

Lemma silent_ret {A} p (a : A) : silent p (ret a).
Proof. intros s. reflexivity. Qed.

Lemma silent_throw {A} p (e : Error) : silent p (@throw _ _ A e).
Proof. intros s. reflexivity. Qed.

Lemma silent_bind {A B} p (m : M A) (k : A -> M B) :
  silent p m -> (forall a, silent p (k a)) -> silent p (bind m k).
Proof.
  intros Hm Hk s. unfold bind. specialize (Hm s).
  destruct (m s) as [[e|a] s']; simpl in *; [assumption|].
  now rewrite Hk.
Qed.

Lemma silent_try_catch {A} p (m : M A) (h : Error -> M A) :
  silent p m -> (forall e, silent p (h e)) -> silent p (try_catch m h).
Proof.
  intros Hm Hh s. unfold try_catch. specialize (Hm s).
  destruct (m s) as [[e|a] s']; simpl in *; [|assumption].
  now rewrite Hh.
Qed.

Lemma filter_snoc_other (p : Event -> bool) (t : list Event) (e : Event) :
  p e = false -> filter p (t ++ [e]) = filter p t.
Proof. intros H. rewrite filter_app. simpl. rewrite H. apply app_nil_r. Qed.

Lemma filter_snoc_this (p : Event -> bool) (t : list Event) (e : Event) :
  p e = true -> filter p (t ++ [e]) = filter p t ++ [e].
Proof. intros H. rewrite filter_app. simpl. now rewrite H. Qed.

Lemma silent_emit p (e : Event) : p e = false -> silent p (emit e).
Proof. intros H s. simpl. now apply filter_snoc_other. Qed.

Lemma silent_call {A} p (e : Event) (f : World -> (Error + A) * World) :
  p e = false -> silent p (call e f).
Proof.
  intros H s. unfold call. destruct (f (st_world s)) as [r w]. simpl.
  now apply filter_snoc_other.
Qed.

Lemma silent_mapM {A B} p (f : A -> M B) (l : list A) :
  (forall a, silent p (f a)) -> silent p (mapM f l).
Proof.
  intros Hf. induction l as [|a l IH]; simpl.
  - apply silent_ret.
  - apply silent_bind; [apply Hf|]. intros b.
    apply silent_bind; [apply IH|]. intros bs. apply silent_ret.
Qed.

Lemma silent_progress p (onProgress : bool) (name : string) :
  p (EvProgress name) = false -> silent p (progress onProgress name).
Proof.
  intros H. unfold progress.
  destruct onProgress; [now apply silent_emit | apply silent_ret].
Qed.

(** Parsing the seed strings touches neither the world nor the trace, and
    gives one record per string. *)
Lemma seedAddresses_pure (multiaddrs : StringSet) (s : St) :
  snd (seedAddresses multiaddrs s) = s /\
  forall addrs, fst (seedAddresses multiaddrs s) = inr addrs ->
                length addrs = length multiaddrs.
Proof.
  unfold seedAddresses. induction multiaddrs as [|ma l [IH1 IH2]]; simpl.
  - split; [reflexivity|]. now intros addrs [= <-].
  - unfold bind. destruct (multiaddr ma) as [e|m]; simpl.
    + split; [reflexivity | discriminate].
    + destruct (mapM _ l s) as [[e|bs] s'] eqn:E; simpl in *.
      * split; [assumption | discriminate].
      * split; [assumption|]. intros addrs [= <-]. simpl.
        now rewrite (IH2 bs eq_refl).
Qed.

Lemma silent_gateAddresses p (addrs : list Address) :
  (forall ma, p (EvDenyDialMultiaddr ma) = false) ->
  silent p (gateAddresses addrs).
Proof.
  intros Hp. induction addrs as [|addr rest IH]; simpl; [apply silent_ret|].
  apply silent_bind.
  - destruct connectionGater_denyDialMultiaddr;
      [now apply silent_call | apply silent_ret].
  - intros denied. apply silent_bind; [exact IH|]. intros. apply silent_ret.
Qed.

Lemma silent_resolveAddresses p (addrs : list Address) :
  (forall ma, p (EvResolve ma) = false) ->
  silent p (resolveAddresses addrs).
Proof.
  intros Hp. unfold resolveAddresses.
  apply silent_bind; [|intros; apply silent_ret].
  apply silent_mapM. intros addr. unfold resolveAddress.
  apply silent_bind; [now apply silent_call|].
  intros [|r [|r' result]]; try apply silent_ret.
  destruct (ma_equals r (addr_multiaddr addr)); apply silent_ret.
Qed.

(** The part of [calculateMultiaddrs] after discovery: resolution, gating,
    trace logging. *)
Lemma silent_after_discovery p cfg peerId addrs
  (k := fun addrs =>
     bind (resolveAddresses addrs) (fun resolved =>
       let resolvedAddresses := ensurePeerId peerId resolved in
       let filteredAddrs := filter (dialable peerId) resolvedAddresses in
       let dedupedMultiaddrs := dedupe filteredAddrs in
       match dedupedMultiaddrs with
       | [] => throw (NoValidAddressesError
                        "The dial request has no valid addresses")
       | _ :: _ =>
           bind (gateAddresses dedupedMultiaddrs) (fun gatedAdrs =>
             match sortAddresses cfg gatedAdrs with
             | [] => throw (DialDeniedError
                  "The connection gater denied all addresses in the dial request")
             | sortedGatedAddrs =>
                 bind (emit (EvLogTrace "addresses for %p before filtering")) (fun _ =>
                 bind (emit (EvLogTrace "addresses for %p after filtering")) (fun _ =>
                 ret sortedGatedAddrs))
             end)
       end)) :
  (forall e, is_probe_event e = true -> p e = false) ->
  silent p (k addrs).
Proof.
  intros Hp. unfold k.
  apply silent_bind; [apply silent_resolveAddresses; intros; now apply Hp|].
  intros resolved. cbv zeta.
  destruct (dedupe _) as [|d ds]; [apply silent_throw|].
  apply silent_bind; [apply silent_gateAddresses; intros; now apply Hp|].
  intros gated. destruct (sortAddresses cfg gated); [apply silent_throw|].
  apply silent_bind; [apply silent_emit; now apply Hp|]. intros _.
  apply silent_bind; [apply silent_emit; now apply Hp|]. intros _.
  apply silent_ret.
Qed.


Lemma silent_seedAddresses p multiaddrs : silent p (seedAddresses multiaddrs).
Proof.
  intros s. now rewrite (proj1 (seedAddresses_pure multiaddrs s)).
Qed.

Lemma silent_discoverAddresses p peerId addrs :
  (forall q, p (EvDenyDialPeer q) = false) ->
  (addrs = [] ->
   (forall q, p (EvPeerStoreGet q) = false) /\
   (forall q, p (EvFindPeer q) = false) /\
   (forall m, p (EvLogError m) = false)) ->
  silent p (discoverAddresses peerId addrs).
Proof.
  intros Hgate Hdisc.
  unfold discoverAddresses. destruct peerId as [q|]; [|apply silent_ret].
  destruct (peerId_equals components_peerId (Some q)); [apply silent_throw|].
  apply silent_bind.
  { unfold denyDialPeer. destruct connectionGater_denyDialPeer;
      [now apply silent_call | apply silent_ret]. }
  intros [|]; [apply silent_throw|].
  destruct addrs as [|a l].
  - destruct (Hdisc eq_refl) as (Hget & Hfind & Hlog).
    apply silent_bind.
    + unfold loadFromPeerStore. apply silent_try_catch.
      * apply silent_bind; [now apply silent_call | intros; apply silent_ret].
      * intros e. destruct (negb _); [apply silent_throw | apply silent_ret].
    + intros addrs1. unfold lookUpInPeerRouting.
      destruct addrs1; [|apply silent_ret].
      apply silent_try_catch.
      * apply silent_bind; [now apply silent_call | intros; apply silent_ret].
      * intros e. apply silent_bind; [|intros; apply silent_ret].
        destruct (negb _); [now apply silent_emit | apply silent_ret].
  - simpl. rewrite bind_ret_l. apply silent_ret.
Qed.

(** [calculateMultiaddrs] adds no event of a kind that its stages do not
    produce: discovery events only with a peer id and an empty seed, the
    peer gate only with a peer id. *)
Lemma silent_calculateMultiaddrs p cfg peerId multiaddrs :
  (forall e, is_probe_event e = true -> p e = false) ->
  (peerId <> None -> forall q, p (EvDenyDialPeer q) = false) ->
  (peerId <> None -> multiaddrs = [] ->
   (forall q, p (EvPeerStoreGet q) = false) /\
   (forall q, p (EvFindPeer q) = false) /\
   (forall m, p (EvLogError m) = false)) ->
  silent p (calculateMultiaddrs cfg peerId multiaddrs).
Proof.
  intros Hprobe Hgate Hdisc s.
  unfold calculateMultiaddrs. rewrite bind_run.
  pose proof (seedAddresses_pure multiaddrs s) as [Hs Hlen].
  destruct (seedAddresses multiaddrs s) as [[e|addrs0] s0]; simpl in Hs; subst s0;
    [reflexivity|].
  specialize (Hlen addrs0 eq_refl).
  revert s. apply silent_bind.
  - destruct peerId as [q|]; [|apply silent_ret].
    apply silent_discoverAddresses.
    + apply Hgate. discriminate.
    + intros ->. apply Hdisc; [discriminate|].
      destruct multiaddrs; [reflexivity | discriminate].
  - intros addrs. now apply (silent_after_discovery p cfg peerId addrs).
Qed.

(** X8.  [isDialable] only probes: whatever the addresses and the flag, the
    events it adds to the trace are resolver calls, questions to the gater
    about a multiaddr and trace logs.  It never reads the peer store, never
    asks the routing, never dials and never writes a dial result
    (lines 526-549). *)
Theorem isDialable_only_probes cfg (multiaddrs : list Multiaddr)
  (runOnLimitedConnection : option bool) (s : St) :
  filter (fun e => negb (is_probe_event e))
         (st_trace (snd (isDialable cfg multiaddrs runOnLimitedConnection s))) =
  filter (fun e => negb (is_probe_event e)) (st_trace s).
Proof.
  revert s. change (silent (fun e => negb (is_probe_event e))
                      (isDialable cfg multiaddrs runOnLimitedConnection)).
  unfold isDialable. apply silent_try_catch.
  - apply silent_bind.
    + apply silent_calculateMultiaddrs.
      * intros e He. now rewrite He.
      * intros H. now contradiction H.
      * intros H. now contradiction H.
    + intros addresses. destruct runOnLimitedConnection as [[|]|]; apply silent_ret.
  - intros err. apply silent_bind; [now apply silent_emit | intros; apply silent_ret].
Qed.

(** X3.  A dial of a peer with at least one multiaddr neither loads the peer's
    record from the peer store nor asks the peer routing: both are guarded
    by [addrs.length === 0] (lines 362 and 381). *)
Theorem seeded_dial_skips_discovery cfg (p : PeerId) (multiaddrs : StringSet) (s : St) :
  multiaddrs <> [] ->
  filter (fun e => is_peer_store_get e || is_find_peer e)
         (st_trace (snd (calculateMultiaddrs cfg (Some p) multiaddrs s))) =
  filter (fun e => is_peer_store_get e || is_find_peer e) (st_trace s).
Proof.
  intros Hne. apply silent_calculateMultiaddrs.
  - now intros [] He.
  - reflexivity.
  - intros _ ->. now contradiction Hne.
Qed.

End SilentProperties.

Section CalcMore.
Context {MA : MultiaddrOps} {C : Components}.

(** With parsable seeds, the calculation is discovery followed by the
    rest, from the same state. *)
Lemma calculate_from_seeds cfg peerId multiaddrs s addrs0 :
  fst (seedAddresses multiaddrs s) = inr addrs0 ->
  calculateMultiaddrs cfg peerId multiaddrs s =
  match discoverAddresses peerId addrs0 s with
  | (inl e, s1) => (inl e, s1)
  | (inr addrs, s1) =>
      match resolveAddresses addrs s1 with
      | (inl e, s2) => (inl e, s2)
      | (inr resolved, s2) =>
          match dedupe (filter (dialable peerId) (ensurePeerId peerId resolved)) with
          | [] => (inl (NoValidAddressesError
                          "The dial request has no valid addresses"), s2)
          | d :: ds =>
              match gateAddresses (d :: ds) s2 with
              | (inl e, s3) => (inl e, s3)
              | (inr gated, s3) =>
                  match sortAddresses cfg gated with
                  | [] => (inl (DialDeniedError
                      "The connection gater denied all addresses in the dial request"),
                           s3)
                  | a :: sorted =>
                      (inr (a :: sorted),
                       mkSt (st_world s3)
                         ((st_trace s3 ++
                           [EvLogTrace "addresses for %p before filtering"]) ++
                          [EvLogTrace "addresses for %p after filtering"]))
                  end
              end
          end
      end
  end.
Proof.
  intros Hseed. unfold calculateMultiaddrs, bind.
  pose proof (seedAddresses_pure multiaddrs s) as [Hs _].
  destruct (seedAddresses multiaddrs s) as [[e|a0] s0]; simpl in Hs, Hseed; subst s0;
    [discriminate|].
  injection Hseed as ->.
  destruct (discoverAddresses peerId addrs0 s) as [[e|addrs] s1]; [reflexivity|].
  destruct (resolveAddresses addrs s1) as [[e|resolved] s2]; [reflexivity|].
  cbv zeta.
  destruct (dedupe _) as [|d ds]; [reflexivity|].
  destruct (gateAddresses (d :: ds) s2) as [[e|gated] s3]; [reflexivity|].
  destruct (sortAddresses cfg gated); reflexivity.
Qed.

(** X1.  A dial of the node's own peer id is rejected with
    [DialError "Tried to dial self"] before any collaborator is called: the
    state is the one the calculation started from (lines 351-354). *)
Theorem self_dial_rejected cfg (p : PeerId) (multiaddrs : StringSet) (s : St) addrs0 :
  peerId_equals components_peerId (Some p) = true ->
  fst (seedAddresses multiaddrs s) = inr addrs0 ->
  calculateMultiaddrs cfg (Some p) multiaddrs s =
  (inl (DialError "Tried to dial self"), s).
Proof.
  intros Hself Hseed. rewrite (calculate_from_seeds _ _ _ _ _ Hseed).
  unfold discoverAddresses. now rewrite Hself.
Qed.

(** X2.  When the gater's [denyDialPeer] answers [true] for another peer, the
    calculation is rejected with [DialDeniedError] in the state the gater
    left: the peer store and the routing are not reached
    (lines 356-358). *)
Theorem denied_peer_rejected cfg (p : PeerId) (multiaddrs : StringSet) (s s1 : St) addrs0 :
  peerId_equals components_peerId (Some p) = false ->
  fst (seedAddresses multiaddrs s) = inr addrs0 ->
  denyDialPeer p s = (inr true, s1) ->
  calculateMultiaddrs cfg (Some p) multiaddrs s =
  (inl (DialDeniedError "The dial request is blocked by gater.allowDialPeer"), s1).
Proof.
  intros Hself Hseed Hdeny. rewrite (calculate_from_seeds _ _ _ _ _ Hseed).
  unfold discoverAddresses. rewrite Hself, bind_run, Hdeny. reflexivity.
Qed.

(** X4.  The peer routing is a fallback: when the peer store returns at least
    one address for the peer, [findPeer] is not called (lines 362-404). *)
Theorem routing_is_a_fallback cfg (p : PeerId) (s s1 : St) a peer w :
  peerId_equals components_peerId (Some p) = false ->
  denyDialPeer p s = (inr false, s1) ->
  peerStore_get p (st_world s1) = (inr (a :: peer), w) ->
  filter is_find_peer (st_trace (snd (calculateMultiaddrs cfg (Some p) [] s))) =
  filter is_find_peer (st_trace s).
Proof.
  intros Hself Hgate Hget.
  assert (Hgate_silent : filter is_find_peer (st_trace s1) =
                         filter is_find_peer (st_trace s)).
  { unfold denyDialPeer in Hgate. destruct connectionGater_denyDialPeer.
    - unfold call in Hgate. destruct (p0 p (st_world s)) as [r w0].
      injection Hgate as _ <-. simpl. now apply filter_snoc_other.
    - now injection Hgate as <-. }
  rewrite <- Hgate_silent.
  assert (Hdisc : discoverAddresses (Some p) [] s =
                  (inr (a :: peer), mkSt w (st_trace s1 ++ [EvPeerStoreGet p]))).
  { unfold discoverAddresses. rewrite Hself, bind_run, Hgate, bind_run.
    unfold loadFromPeerStore, try_catch, bind, call. rewrite Hget. reflexivity. }
  unfold calculateMultiaddrs. cbn [seedAddresses mapM].
  rewrite bind_ret_l, bind_run, Hdisc.
  rewrite (silent_after_discovery is_find_peer cfg (Some p) (a :: peer)).
  - simpl. now apply filter_snoc_other.
  - now intros [] He.
Qed.


(** *** Sorting only reorders *)

Lemma sort_insert_perm cmp (x : Address) (l : list Address) :
  Permutation (sort_insert cmp x l) (x :: l).
Proof.
  induction l as [|y l IH]; simpl; [reflexivity|].
  destruct (cmp x y <? 0); [reflexivity|].
  rewrite IH. apply perm_swap.
Qed.

Lemma array_sort_perm cmp (l : list Address) : Permutation (array_sort cmp l) l.
Proof.
  unfold array_sort.
  assert (H : forall acc, Permutation
            (fold_left (fun sorted x => sort_insert cmp x sorted) l acc) (acc ++ l)).
  { induction l as [|x l IH]; intros acc; simpl.
    - now rewrite app_nil_r.
    - rewrite IH, sort_insert_perm. apply Permutation_middle. }
  apply (H []).
Qed.

Lemma sortAddresses_perm cfg (l : list Address) :
  sorter_reorders cfg -> Permutation (sortAddresses cfg l) l.
Proof.
  intros Hs. unfold sortAddresses.
  destruct (addressSorter cfg) as [sorter|] eqn:E;
    [apply array_sort_perm | now apply Hs].
Qed.

(** *** The gate only drops *)

Lemma gateAddresses_drops (l : list Address) : forall s gated s',
  gateAddresses l s = (inr gated, s') ->
  (forall a, In a gated -> In a l) /\
  (forall (f : Address -> string), NoDup (map f l) -> NoDup (map f gated)).
Proof.
  induction l as [|addr rest IH]; simpl; intros s gated s' H.
  - injection H as <- _. split; [tauto | auto].
  - rewrite bind_run in H.
    assert (Hask : exists denied s1,
              (match connectionGater_denyDialMultiaddr with
               | Some deny => call (EvDenyDialMultiaddr (addr_multiaddr addr))
                                   (deny (addr_multiaddr addr))
               | None => ret false
               end) s = (inr denied, s1) /\
              bind (gateAddresses rest)
                   (fun g => ret (if denied then g else addr :: g)) s1 =
              (inr gated, s')).
    { destruct (match connectionGater_denyDialMultiaddr with
                | Some deny => call (EvDenyDialMultiaddr (addr_multiaddr addr))
                                    (deny (addr_multiaddr addr))
                | None => ret false
                end s) as [[e|denied] s1]; [discriminate|]. eauto. }
    destruct Hask as (denied & s1 & _ & H'). clear H. rewrite bind_run in H'.
    destruct (gateAddresses rest s1) as [[e|g] s2] eqn:Hrest; [discriminate|].
    injection H' as <- _. destruct (IH _ _ _ Hrest) as [Hin Hnd].
    destruct denied.
    + split; [intros a Ha; right; auto|].
      intros f Hf. inversion Hf; subst. auto.
    + split; [intros a [<-|Ha]; [now left | right; auto]|].
      intros f Hf. inversion Hf as [|? ? Hnotin Hnd']; subst. simpl.
      constructor; [|auto].
      rewrite in_map_iff. intros [b [Hb Hinb]]. apply Hnotin.
      rewrite in_map_iff. exists b. auto.
Qed.

Lemma gateAddresses_all_denied (l : list Address) (s : St) :
  gater_denies_all -> fst (gateAddresses l s) = inr [].
Proof.
  intros (deny & Hgater & Hdeny). revert s.
  induction l as [|addr rest IH]; intros s; simpl; [reflexivity|].
  rewrite Hgater, bind_run. unfold call.
  specialize (Hdeny (addr_multiaddr addr) (st_world s)).
  destruct (deny (addr_multiaddr addr) (st_world s)) as [r w]. simpl in Hdeny.
  subst r. rewrite bind_run.
  specialize (IH (mkSt w (st_trace s ++ [EvDenyDialMultiaddr (addr_multiaddr addr)]))).
  destruct (gateAddresses rest _) as [[e|g] s2]; simpl in *; [discriminate|].
  now injection IH as ->.
Qed.

(** *** Where the records of the result come from *)

Lemma dedupe_elements (l : list Address) (r : Address) :
  In r (dedupe l) ->
  exists a, In a l /\ addr_multiaddr r = addr_multiaddr a /\
            (isCertified r = true -> exists b, In b l /\ isCertified b = true).
Proof.
  rewrite dedupe_refines_spec. unfold dedupe_spec. rewrite in_map_iff.
  intros [a [<- Ha]].
  destruct (first_occurrences_first _ _ _ Ha) as (pre & post & Heq & _).
  exists a. split; [rewrite Heq; apply in_elt|]. split; [reflexivity|].
  simpl. intros Hc. apply certified_any_true in Hc.
  destruct Hc as (b & Hb & _ & Hcb). now exists b.
Qed.

Lemma dedupe_strings_nodup (l : list Address) :
  NoDup (map addr_string (dedupe l)).
Proof.
  rewrite dedupe_refines_spec. unfold dedupe_spec. rewrite map_map.
  apply (first_occurrences_strings_nodup l []).
Qed.

Lemma ensurePeerId_certified peerId (l : list Address) (a : Address) :
  In a (ensurePeerId peerId l) ->
  exists b, In b l /\ isCertified a = isCertified b.
Proof.
  unfold ensurePeerId. destruct peerId as [p|]; [|intros H; now exists a].
  rewrite in_map_iff. intros [b [<- Hb]]. exists b. split; [assumption|].
  unfold appendPeerId. destruct (ma_lastProtoIsPath _); [reflexivity|].
  destruct (ma_getPeerId _); reflexivity.
Qed.

Lemma mapM_inv {A B} (f : A -> M B) (l : list A) : forall s bs s',
  mapM f l s = (inr bs, s') ->
  Forall2 (fun a b => exists s1 s2, f a s1 = (inr b, s2)) l bs.
Proof.
  induction l as [|a l IH]; simpl; intros s bs s' H.
  - injection H as <- _. constructor.
  - rewrite bind_run in H. destruct (f a s) as [[e|b] s1] eqn:Hf; [discriminate|].
    rewrite bind_run in H. destruct (mapM f l s1) as [[e|bs'] s2] eqn:Hm;
      [discriminate|].
    injection H as <- _. constructor; [now exists s, s1 | eauto].
Qed.

Lemma resolveAddress_certified (addr : Address) s out s' :
  resolveAddress addr s = (inr out, s') ->
  forall a, In a out -> isCertified a = true -> a = addr.
Proof.
  unfold resolveAddress. rewrite bind_run.
  destruct (call _ _ s) as [[e|result] s1]; [discriminate|].
  assert (Hfresh : forall a, In a (map (fun ma => mkAddress ma false) result) ->
                             isCertified a = true -> a = addr).
  { intros a Ha Hc. apply in_map_iff in Ha. destruct Ha as [ma [<- _]].
    discriminate. }
  destruct result as [|r [|r' result]].
  - intros [= <- _]. exact Hfresh.
  - destruct (ma_equals r (addr_multiaddr addr)).
    + intros [= <- _] a [<-|[]] _. reflexivity.
    + intros [= <- _]. exact Hfresh.
  - intros [= <- _]. exact Hfresh.
Qed.

Lemma resolveAddresses_certified (addrs : list Address) s out s' :
  resolveAddresses addrs s = (inr out, s') ->
  forall a, In a out -> isCertified a = true -> In a addrs.
Proof.
  unfold resolveAddresses. rewrite bind_run.
  destruct (mapM resolveAddress addrs s) as [[e|rs] s1] eqn:Hm; [discriminate|].
  intros [= <- _] a Ha Hc. apply mapM_inv in Hm.
  apply in_concat in Ha. destruct Ha as (r & Hr & Har).
  clear -Hm Hr Har Hc. induction Hm as [|addr r0 addrs rs (s1 & s2 & Hres) _ IH].
  - contradiction.
  - destruct Hr as [->|Hr].
    + left. symmetry. exact (resolveAddress_certified _ _ _ _ Hres a Har Hc).
    + right. auto.
Qed.

Lemma seedAddresses_uncertified (multiaddrs : StringSet) : forall s addrs0,
  fst (seedAddresses multiaddrs s) = inr addrs0 ->
  forall a, In a addrs0 -> isCertified a = false.
Proof.
  intros s addrs0 H.
  destruct (seedAddresses multiaddrs s) as [r s'] eqn:E. simpl in H. subst r.
  apply mapM_inv in E. induction E as [|ma a l bs (s1 & s2 & Hf) _ IH].
  - intros a [].
  - intros b [<-|Hb]; [|auto].
    destruct (multiaddr ma) as [e|m]; [discriminate|]. now injection Hf as <- _.
Qed.

(** A certified record after discovery was in the seed or came from the
    peer store, asked for a peer without seed. *)
Lemma discoverAddresses_certified peerId addrs0 s addrs s1 :
  discoverAddresses peerId addrs0 s = (inr addrs, s1) ->
  forall a, In a addrs -> isCertified a = true ->
  In a addrs0 \/
  exists p w peer w', peerId = Some p /\ addrs0 = [] /\
                      peerStore_get p w = (inr peer, w') /\ In a peer.
Proof.
  unfold discoverAddresses. destruct peerId as [p|];
    [|intros [= <- _] a Ha _; now left].
  destruct (peerId_equals components_peerId (Some p)); [discriminate|].
  rewrite bind_run. destruct (denyDialPeer p s) as [[e|[|]] s0]; try discriminate.
  destruct addrs0 as [|a0 l0].
  - rewrite bind_run. unfold loadFromPeerStore, try_catch. rewrite bind_run.
    unfold call. destruct (peerStore_get p (st_world s0)) as [[e|peer] w] eqn:Hget.
    + destruct (negb _); [discriminate|]. unfold ret, lookUpInPeerRouting, try_catch.
      rewrite bind_run. unfold call.
      destruct (peerRouting_findPeer p _) as [[e'|info] w'].
      * rewrite bind_run.
        destruct (negb _); simpl; intros [= <- _] a [].
      * simpl. intros [= <- _] a Ha Hc. apply in_map_iff in Ha.
        destruct Ha as [ma [<- _]]. discriminate.
    + unfold ret. simpl app. destruct peer as [|b peer].
      * unfold lookUpInPeerRouting, try_catch. rewrite bind_run. unfold call.
        destruct (peerRouting_findPeer p _) as [[e'|info] w'].
        -- rewrite bind_run. destruct (negb _); simpl; intros [= <- _] a [].
        -- simpl. intros [= <- _] a Ha Hc. apply in_map_iff in Ha.
           destruct Ha as [ma [<- _]]. discriminate.
      * simpl. intros [= <- _] a Ha _. right.
        exists p, (st_world s0), (b :: peer), w. auto.
  - simpl. intros [= <- _] a Ha _. now left.
Qed.

(** X5.  What [calculateMultiaddrs] returns when it returns, with a sorter that
    only reorders: a non-empty list, without two addresses of the same
    string, each with a transport that can dial it, and none carrying a peer
    id other than the dialled peer's (lines 453-523). *)
Theorem calculated_addresses_sound cfg peerId multiaddrs s out s' :
  sorter_reorders cfg ->
  calculateMultiaddrs cfg peerId multiaddrs s = (inr out, s') ->
  out <> [] /\
  NoDup (map addr_string out) /\
  forall a, In a out ->
    transportManager_dialTransportForMultiaddr (addr_multiaddr a) = true /\
    forall p q, peerId = Some p -> ma_getPeerId (addr_multiaddr a) = Some q ->
                q = p.
Proof.
  intros Hsort Hcalc.
  destruct (fst (seedAddresses multiaddrs s)) as [e|addrs0] eqn:Hseed.
  { exfalso. unfold calculateMultiaddrs in Hcalc. rewrite bind_run in Hcalc.
    destruct (seedAddresses multiaddrs s) as [[e'|a0] s0]; simpl in Hseed;
      discriminate. }
  rewrite (calculate_from_seeds _ _ _ _ _ Hseed) in Hcalc.
  destruct (discoverAddresses peerId addrs0 s) as [[e|addrs] s1]; [discriminate|].
  destruct (resolveAddresses addrs s1) as [[e|resolved] s2]; [discriminate|].
  destruct (dedupe _) as [|d ds] eqn:Hdedupe; [discriminate|].
  destruct (gateAddresses (d :: ds) s2) as [[e|gated] s3] eqn:Hgate; [discriminate|].
  pose proof (sortAddresses_perm cfg gated Hsort) as Hperm.
  destruct (sortAddresses cfg gated) as [|a sorted]; [discriminate|].
  injection Hcalc as <- _.
  destruct (gateAddresses_drops _ _ _ _ Hgate) as [Hin Hnd].
  split; [discriminate|]. split.
  - apply (Permutation_NoDup (l := map addr_string gated)).
    + symmetry. now apply Permutation_map.
    + apply Hnd. rewrite <- Hdedupe. apply dedupe_strings_nodup.
  - intros b Hb. apply (Permutation_in _ Hperm) in Hb. apply Hin in Hb.
    rewrite <- Hdedupe in Hb. apply dedupe_elements in Hb.
    destruct Hb as (c & Hc & Hma & _). rewrite Hma.
    apply filter_In in Hc. destruct Hc as [_ Hd]. unfold dialable in Hd.
    destruct (transportManager_dialTransportForMultiaddr (addr_multiaddr c));
      [|discriminate].
    split; [reflexivity|]. intros p q -> Hq. rewrite Hq in Hd. simpl in Hd.
    apply String.eqb_eq in Hd. now symmetry.
Qed.

(** X6.  An address is returned as certified only when the peer store said so:
    the dial was by peer id alone and the loaded record holds a certified
    address.  Seeds from the job's strings and addresses found by the
    routing are uncertified, resolution keeps the flag, and the merge of
    duplicates only ors flags (lines 345-485). *)
Theorem certified_only_from_peer_store cfg peerId multiaddrs s out s' a :
  sorter_reorders cfg ->
  calculateMultiaddrs cfg peerId multiaddrs s = (inr out, s') ->
  In a out -> isCertified a = true ->
  exists p w peer w' b,
    peerId = Some p /\ multiaddrs = [] /\
    peerStore_get p w = (inr peer, w') /\ In b peer /\ isCertified b = true.
Proof.
  intros Hsort Hcalc Ha Hcert.
  destruct (fst (seedAddresses multiaddrs s)) as [e|addrs0] eqn:Hseed.
  { exfalso. unfold calculateMultiaddrs in Hcalc. rewrite bind_run in Hcalc.
    destruct (seedAddresses multiaddrs s) as [[e'|a0] s0]; simpl in Hseed;
      discriminate. }
  rewrite (calculate_from_seeds _ _ _ _ _ Hseed) in Hcalc.
  destruct (discoverAddresses peerId addrs0 s) as [[e|addrs] s1] eqn:Hdisc;
    [discriminate|].
  destruct (resolveAddresses addrs s1) as [[e|resolved] s2] eqn:Hres; [discriminate|].
  destruct (dedupe _) as [|d ds] eqn:Hdedupe; [discriminate|].
  destruct (gateAddresses (d :: ds) s2) as [[e|gated] s3] eqn:Hgate; [discriminate|].
  pose proof (sortAddresses_perm cfg gated Hsort) as Hperm.
  destruct (sortAddresses cfg gated) as [|a1 sorted]; [discriminate|].
  injection Hcalc as <- _.
  apply (Permutation_in _ Hperm) in Ha.
  apply (proj1 (gateAddresses_drops _ _ _ _ Hgate)) in Ha.
  rewrite <- Hdedupe in Ha. apply dedupe_elements in Ha.
  destruct Ha as (_ & _ & _ & Hsome). destruct (Hsome Hcert) as (b & Hb & Hcb).
  apply filter_In in Hb. destruct Hb as [Hb _].
  apply ensurePeerId_certified in Hb. destruct Hb as (c & Hc & Heq).
  rewrite Heq in Hcb.
  pose proof (resolveAddresses_certified _ _ _ _ Hres c Hc Hcb) as Hc'.
  destruct (discoverAddresses_certified _ _ _ _ _ Hdisc c Hc' Hcb)
    as [Hseeded|(p & w & peer & w' & -> & -> & Hget & Hin)].
  - rewrite (seedAddresses_uncertified _ _ _ Hseed c Hseeded) in Hcb. discriminate.
  - exists p, w, peer, w', c. repeat split; try assumption.
    pose proof (seedAddresses_pure multiaddrs s) as [_ Hlen].
    specialize (Hlen [] Hseed). now destruct multiaddrs.
Qed.


(** X7.  With a gater that denies every multiaddr (and a sorter that only
    reorders) the calculation never returns addresses.  Either the gater
    was asked and the error is the [DialDeniedError] of line 501, or the
    calculation failed before asking it (lines 492-510). *)
Theorem gater_denying_everything cfg peerId multiaddrs s :
  gater_denies_all ->
  sorter_reorders cfg ->
  exists e,
    fst (calculateMultiaddrs cfg peerId multiaddrs s) = inl e /\
    (e = DialDeniedError
           "The connection gater denied all addresses in the dial request" \/
     filter (fun ev => match ev with EvDenyDialMultiaddr _ => true | _ => false end)
            (st_trace (snd (calculateMultiaddrs cfg peerId multiaddrs s))) =
     filter (fun ev => match ev with EvDenyDialMultiaddr _ => true | _ => false end)
            (st_trace s)).
Proof.
  intros Hdeny Hsort.
  set (asked := fun ev => match ev with EvDenyDialMultiaddr _ => true | _ => false end).
  destruct (fst (seedAddresses multiaddrs s)) as [e|addrs0] eqn:Hseed.
  { exists e. unfold calculateMultiaddrs. rewrite bind_run.
    pose proof (seedAddresses_pure multiaddrs s) as [Hs _].
    destruct (seedAddresses multiaddrs s) as [[e'|a0] s0]; simpl in *;
      [|discriminate].
    injection Hseed as ->. subst s0. auto. }
  rewrite (calculate_from_seeds _ _ _ _ _ Hseed).
  pose proof (silent_discoverAddresses asked peerId addrs0
                (fun _ => eq_refl)
                (fun _ => conj (fun _ => eq_refl)
                            (conj (fun _ => eq_refl) (fun _ => eq_refl))) s) as Hd.
  destruct (discoverAddresses peerId addrs0 s) as [[e|addrs] s1];
    [exists e; auto|].
  pose proof (silent_resolveAddresses asked addrs (fun _ => eq_refl) s1) as Hr.
  destruct (resolveAddresses addrs s1) as [[e|resolved] s2];
    [exists e; split; [reflexivity | right; simpl in *; congruence]|].
  destruct (dedupe _) as [|d ds];
    [eexists; split; [reflexivity | right; simpl in *; congruence]|].
  pose proof (gateAddresses_all_denied (d :: ds) s2 Hdeny) as Hg.
  destruct (gateAddresses (d :: ds) s2) as [[e|gated] s3]; simpl in Hg;
    [discriminate|].
  injection Hg as ->.
  pose proof (sortAddresses_perm cfg [] Hsort) as Hperm.
  apply Permutation_sym, Permutation_nil in Hperm. rewrite Hperm.
  eexists. split; [reflexivity | now left].
Qed.

End CalcMore.

Section LoopMore.
Context {MA : MultiaddrOps} {C : Components}.

(** *** What the bookkeeping of a dial writes *)

Lemma recordDialSuccess_trace (conn : Connection) (s : St) :
  st_trace (snd (recordDialSuccess conn s)) =
  st_trace s ++
  EvPeerStoreMerge (remotePeer conn)
    (mkPeerData [remoteAddr conn] LAST_DIAL_SUCCESS_KEY) ::
  match fst (peerStore_merge (remotePeer conn)
               (mkPeerData [remoteAddr conn] LAST_DIAL_SUCCESS_KEY) (st_world s)) with
  | inl _ => [EvLogError "could not update last dial failure key for %p"]
  | inr _ => []
  end.
Proof.
  unfold recordDialSuccess, try_catch, call, emit.
  destruct (peerStore_merge _ _ _) as [[e|[]] w]; simpl;
    [now rewrite <- app_assoc | reflexivity].
Qed.

Lemma noteDialFailure_trace (peerId : option PeerId) (s : St) :
  st_trace (snd (noteDialFailure peerId s)) =
  st_trace s ++
  EvLogError "dial failed to %a" ::
  match peerId with
  | Some p =>
      EvPeerStoreMerge p (mkPeerData [] LAST_DIAL_FAILURE_KEY) ::
      match fst (peerStore_merge p (mkPeerData [] LAST_DIAL_FAILURE_KEY)
                   (st_world s)) with
      | inl _ => [EvLogError "could not update last dial failure key for %p"]
      | inr _ => []
      end
  | None => []
  end.
Proof.
  unfold noteDialFailure, recordDialFailure, bind, try_catch, call, emit, ret.
  destruct peerId as [p|]; simpl; [|reflexivity].
  destruct (peerStore_merge _ _ _) as [[e|[]] w]; simpl;
    rewrite <- ?app_assoc; reflexivity.
Qed.

Lemma afterFailedDial_trace peerId ma s w :
  st_trace (afterFailedDial peerId ma s w) =
  st_trace s ++
  EvTransportDial ma :: EvLogError "dial failed to %a" ::
  match peerId with
  | Some p =>
      EvPeerStoreMerge p (mkPeerData [] LAST_DIAL_FAILURE_KEY) ::
      match fst (peerStore_merge p (mkPeerData [] LAST_DIAL_FAILURE_KEY) w) with
      | inl _ => [EvLogError "could not update last dial failure key for %p"]
      | inr _ => []
      end
  | None => []
  end.
Proof.
  unfold afterFailedDial. rewrite noteDialFailure_trace. simpl.
  now rewrite <- app_assoc.
Qed.

Lemma logged_or_not_filter (p : Event -> bool) (r : Error + unit) :
  p (EvLogError "could not update last dial failure key for %p") = false ->
  filter p match r with
           | inl _ => [EvLogError "could not update last dial failure key for %p"]
           | inr _ => []
           end = [].
Proof. intros H. destruct r; simpl; [now rewrite H | reflexivity]. Qed.

Lemma attemptLoop_dials_in_order cfg peerId addrsToDial :
  forall dialed errors s,
  exists k,
    filter is_transport_dial
      (st_trace (snd (attemptLoop cfg peerId dialed errors addrsToDial s))) =
    filter is_transport_dial (st_trace s) ++
    map (fun a => EvTransportDial (addr_multiaddr a)) (firstn k addrsToDial).
Proof.
  induction addrsToDial as [|address rest IH]; intros dialed errors s.
  - exists 0%nat. simpl. rewrite app_nil_r.
    destruct errors as [|e [|e' errors]]; reflexivity.
  - destruct (Z.eq_dec dialed (maxPeerAddrsToDial cfg)) as [Heq|Hne].
    + exists 0%nat. rewrite attempt_at_limit by assumption. simpl.
      now rewrite app_nil_r.
    + destruct (transportManager_dial (addr_multiaddr address) (st_world s))
        as [[err|conn] w] eqn:Hdial.
      * rewrite (attempt_fails cfg peerId dialed errors address rest s err w
                   Hne Hdial). cbv zeta.
        assert (Hafter : filter is_transport_dial
                  (st_trace (afterFailedDial peerId (addr_multiaddr address) s w)) =
                filter is_transport_dial (st_trace s) ++
                [EvTransportDial (addr_multiaddr address)]).
        { rewrite afterFailedDial_trace, filter_app. f_equal. simpl.
          destruct peerId; simpl; [|reflexivity].
          now rewrite logged_or_not_filter. }
        destruct (signal_aborted _).
        -- exists 1%nat. simpl. exact Hafter.
        -- destruct (IH (dialed + 1) (errors ++ [err])
                        (afterFailedDial peerId (addr_multiaddr address) s w))
             as [k Hk].
           exists (S k). rewrite Hk, Hafter, <- app_assoc. reflexivity.
      * rewrite (attempt_succeeds cfg peerId dialed errors address rest s conn w
                   Hne Hdial).
        exists 1%nat. cbn [snd]. rewrite recordDialSuccess_trace. simpl st_trace.
        rewrite !filter_app. simpl. rewrite logged_or_not_filter by reflexivity.
        now rewrite app_nil_r.
Qed.

(** X9.  The attempt loop dials in the order of the sorted list and without
    gaps: the dials it adds to the trace are those of a prefix of
    [addrsToDial] (lines 254-267). *)
Theorem transport_dials_follow_the_list cfg peerId addrsToDial s :
  exists k,
    filter is_transport_dial
      (st_trace (snd (dialAddresses cfg peerId addrsToDial s))) =
    filter is_transport_dial (st_trace s) ++
    map (fun a => EvTransportDial (addr_multiaddr a)) (firstn k addrsToDial).
Proof.
  destruct (attemptLoop_dials_in_order cfg peerId addrsToDial 0 [] s) as [k Hk].
  exists k. rewrite dialAddresses_unfold. cbn [snd]. unfold clear_signal.
  cbn [st_trace]. rewrite filter_snoc_other by reflexivity. exact Hk.
Qed.

(** X10.  The first successful transport dial ends the loop: from a loop state
    below the limit whose next address connects, the job returns that
    connection, records the success in the peer store (a failed write is
    only logged), clears the signal, and dials nothing more
    (lines 263-283, 314-317). *)
Theorem first_success_wins cfg peerId addrsToDial s0 l address rest conn w :
  loop_reaches cfg peerId (loop_start addrsToDial s0) l ->
  ls_todo l = address :: rest ->
  ls_dialed l <> maxPeerAddrsToDial cfg ->
  transportManager_dial (addr_multiaddr address) (st_world (ls_st l))
    = (inr conn, w) ->
  fst (dialAddresses cfg peerId addrsToDial s0) = inr conn /\
  st_trace (snd (dialAddresses cfg peerId addrsToDial s0)) =
    st_trace (ls_st l) ++
    [EvTransportDial (addr_multiaddr address);
     EvPeerStoreMerge (remotePeer conn)
       (mkPeerData [remoteAddr conn] LAST_DIAL_SUCCESS_KEY)] ++
    match fst (peerStore_merge (remotePeer conn)
                 (mkPeerData [remoteAddr conn] LAST_DIAL_SUCCESS_KEY) w) with
    | inl _ => [EvLogError "could not update last dial failure key for %p"]
    | inr _ => []
    end ++ [EvSignalClear].
Proof.
  intros Hreach Htodo Hlim Hdial.
  assert (Hrun : runLoop cfg peerId (loop_start addrsToDial s0) =
    (inr conn,
     snd (recordDialSuccess conn
            (mkSt w (st_trace (ls_st l) ++
                     [EvTransportDial (addr_multiaddr address)]))))).
  { rewrite (loop_reaches_run _ _ _ _ Hreach). unfold runLoop. rewrite Htodo.
    now apply attempt_succeeds. }
  rewrite dialAddresses_unfold, Hrun. cbn [fst snd]. split; [reflexivity|].
  unfold clear_signal. cbn [st_trace]. rewrite recordDialSuccess_trace.
  cbn [st_trace st_world]. rewrite <- !app_assoc. reflexivity.
Qed.

Lemma attemptLoop_merges cfg peerId addrsToDial :
  forall dialed errors s,
  let r := attemptLoop cfg peerId dialed errors addrsToDial s in
  match peerId with
  | Some _ =>
      (peer_store_merges (st_trace (snd r)) + transport_dials (st_trace s) =
       peer_store_merges (st_trace s) + transport_dials (st_trace (snd r)))%nat
  | None =>
      peer_store_merges (st_trace (snd r)) =
      (peer_store_merges (st_trace s) +
       match fst r with inr _ => 1 | inl _ => 0 end)%nat
  end.
Proof.
  assert (Hm : forall t u, peer_store_merges (t ++ u) =
                           (peer_store_merges t + peer_store_merges u)%nat).
  { intros. unfold peer_store_merges. now rewrite filter_app, length_app. }
  assert (Hlog : forall r : Error + unit, peer_store_merges
            match r with
            | inl _ => [EvLogError "could not update last dial failure key for %p"]
            | inr _ => []
            end = 0%nat).
  { now intros [|]. }
  induction addrsToDial as [|address rest IH]; intros dialed errors s; cbv zeta.
  - simpl. destruct peerId; destruct errors as [|e [|e' errors]]; simpl; lia.
  - destruct (Z.eq_dec dialed (maxPeerAddrsToDial cfg)) as [Heq|Hne].
    + rewrite attempt_at_limit by assumption. simpl. destruct peerId; lia.
    + destruct (transportManager_dial (addr_multiaddr address) (st_world s))
        as [[err|conn] w] eqn:Hdial.
      * rewrite (attempt_fails cfg peerId dialed errors address rest s err w
                   Hne Hdial). cbv zeta.
        pose proof (afterFailedDial_dials peerId (addr_multiaddr address) s w) as Hd.
        pose proof (afterFailedDial_trace peerId (addr_multiaddr address) s w) as Ht.
        specialize (IH (dialed + 1) (errors ++ [err])
                       (afterFailedDial peerId (addr_multiaddr address) s w)).
        cbv zeta in IH.
        assert (Hmerges : peer_store_merges
                  (st_trace (afterFailedDial peerId (addr_multiaddr address) s w)) =
                (peer_store_merges (st_trace s) +
                 match peerId with Some _ => 1 | None => 0 end)%nat).
        { rewrite Ht, Hm. f_equal. destruct peerId; [|reflexivity].
          change (S (peer_store_merges
                       match fst (peerStore_merge p
                                    (mkPeerData [] LAST_DIAL_FAILURE_KEY) w) with
                       | inl _ => [EvLogError
                            "could not update last dial failure key for %p"]
                       | inr _ => []
                       end) = 1%nat).
          now rewrite Hlog. }
        destruct (signal_aborted _); destruct peerId; cbn [fst snd] in *; lia.
      * rewrite (attempt_succeeds cfg peerId dialed errors address rest s conn w
                   Hne Hdial). cbn [fst snd].
        rewrite (proj2 (recordDialSuccess_returns _ _)).
        rewrite recordDialSuccess_trace. cbn [st_trace st_world].
        rewrite transport_dials_snoc_dial, !Hm.
        change (peer_store_merges
                  (EvPeerStoreMerge (remotePeer conn)
                     (mkPeerData [remoteAddr conn] LAST_DIAL_SUCCESS_KEY) ::
                   match fst (peerStore_merge (remotePeer conn)
                                (mkPeerData [remoteAddr conn] LAST_DIAL_SUCCESS_KEY)
                                w) with
                   | inl _ => [EvLogError
                        "could not update last dial failure key for %p"]
                   | inr _ => []
                   end))
          with (S (peer_store_merges
                   match fst (peerStore_merge (remotePeer conn)
                                (mkPeerData [remoteAddr conn] LAST_DIAL_SUCCESS_KEY)
                                w) with
                   | inl _ => [EvLogError
                        "could not update last dial failure key for %p"]
                   | inr _ => []
                   end)).
        rewrite Hlog.
        change (peer_store_merges [EvTransportDial (addr_multiaddr address)])
          with 0%nat.
        destruct peerId; lia.
Qed.


(** X11.  Every transport dial of a known peer is followed by exactly one write
    of a dial result to the peer store; without a peer id only the
    successful dial writes one, the failures none (lines 272-298). *)
Theorem merges_match_dials cfg peerId addrsToDial s :
  let r := dialAddresses cfg peerId addrsToDial s in
  match peerId with
  | Some _ =>
      (peer_store_merges (st_trace (snd r)) + transport_dials (st_trace s) =
       peer_store_merges (st_trace s) + transport_dials (st_trace (snd r)))%nat
  | None =>
      peer_store_merges (st_trace (snd r)) =
      (peer_store_merges (st_trace s) +
       match fst r with inr _ => 1 | inl _ => 0 end)%nat
  end.
Proof.
  cbv zeta. rewrite dialAddresses_unfold. cbn [fst snd].
  rewrite clear_signal_dials.
  assert (Hc : forall s', peer_store_merges (st_trace (clear_signal s')) =
                          peer_store_merges (st_trace s')).
  { intros s'. unfold clear_signal, peer_store_merges. cbn [st_trace].
    now rewrite filter_snoc_other. }
  rewrite Hc. apply (attemptLoop_merges cfg peerId addrsToDial 0 [] s).
Qed.

(** *** The signal *)

Lemma silent_attemptLoop_clear cfg peerId addrsToDial :
  forall dialed errors, silent is_signal_clear
                          (attemptLoop cfg peerId dialed errors addrsToDial).
Proof.
  induction addrsToDial as [|address rest IH]; intros dialed errors; simpl.
  - destruct errors as [|e [|e' errors]]; apply silent_throw.
  - destruct (dialed =? maxPeerAddrsToDial cfg); [apply silent_throw|].
    apply silent_try_catch.
    + apply silent_bind; [now apply silent_call|]. intros conn.
      apply silent_bind; [|intros; apply silent_ret].
      unfold recordDialSuccess. apply silent_try_catch;
        [now apply silent_call | intros; now apply silent_emit].
    + intros err. apply silent_bind.
      * unfold noteDialFailure. apply silent_bind; [now apply silent_emit|].
        intros _. unfold recordDialFailure. destruct peerId; [|apply silent_ret].
        apply silent_try_catch;
          [now apply silent_call | intros; now apply silent_emit].
      * intros _. apply silent_bind; [intros s; reflexivity|].
        intros [|]; [apply silent_throw | apply IH].
Qed.

Lemma progress_returns (p : Event -> bool) (onProgress : bool) (name : string) (s : St) :
  p (EvProgress name) = false ->
  exists s', progress onProgress name s = (inr tt, s') /\
             filter p (st_trace s') = filter p (st_trace s).
Proof.
  intros Hp. unfold progress. destruct onProgress.
  - eexists. split; [reflexivity|]. simpl. now apply filter_snoc_other.
  - now exists s.
Qed.

(** The first part of the job clears the signal when, and only when, the
    calculation throws. *)
Lemma calculateForJob_clear cfg job s :
  filter is_signal_clear (st_trace (snd (calculateForJob cfg job s))) =
  filter is_signal_clear (st_trace s) ++
  match fst (calculateForJob cfg job s) with
  | inr _ => []
  | inl _ => [EvSignalClear]
  end.
Proof.
  unfold calculateForJob. rewrite bind_run.
  destruct (progress_returns is_signal_clear (job_onProgress job)
              "dial-queue:start-dial" s eq_refl) as (s0 & -> & H0).
  unfold try_catch. rewrite bind_run.
  assert (Hcalc : filter is_signal_clear
            (st_trace (snd (calculateMultiaddrs cfg (job_peerId job)
                              (job_multiaddrs job) s0))) =
          filter is_signal_clear (st_trace s)).
  { rewrite <- H0. apply silent_calculateMultiaddrs.
    - now intros [] He.
    - reflexivity.
    - intros _ _. repeat split; reflexivity. }
  destruct (calculateMultiaddrs cfg (job_peerId job) (job_multiaddrs job) s0)
    as [[e|addrs] s1]; cbn [fst snd] in *.
  - unfold clear_signal. cbn [st_trace].
    rewrite filter_snoc_this by reflexivity. now rewrite Hcalc.
  - rewrite bind_run.
    destruct (progress_returns is_signal_clear (job_onProgress job)
                "dial-queue:calculated-addresses" s1 eq_refl) as (s2 & -> & H2).
    cbn [fst snd ret]. now rewrite H2, Hcalc, app_nil_r.
Qed.

(** X12.  A job clears its abort signal exactly once, however it ends: the
    [finally] block of line 314 runs after a failed calculation, a failed
    loop and a connection alike (lines 230-317). *)
Theorem signal_cleared_once dq job s :
  filter is_signal_clear (st_trace (snd (runJob dq job s))) =
  filter is_signal_clear (st_trace s) ++ [EvSignalClear].
Proof.
  unfold runJob, resumeJob.
  pose proof (calculateForJob_clear (config dq) job s) as Hc.
  destruct (calculateForJob (config dq) job s) as [[err|addrs] s1];
    cbn [fst snd] in *; [exact Hc|].
  rewrite dialAddresses_unfold. cbn [snd]. unfold clear_signal at 1.
  cbn [st_trace]. rewrite filter_snoc_this by reflexivity.
  unfold runLoop, loop_start. cbn [ls_dialed ls_errors ls_todo ls_st].
  rewrite (silent_attemptLoop_clear (config dq) (job_peerId job) addrs 0 [] s1).
  now rewrite Hc, app_nil_r.
Qed.

(** X13.  When the address calculation of a job throws, the job rejects with
    that very error, the queue is as it was, and no transport dial is made
    (lines 230-248). *)
Theorem failed_calculation_rejects_job dq job s err :
  fst (calculateMultiaddrs (config dq) (job_peerId job) (job_multiaddrs job)
         (snd (progress (job_onProgress job) "dial-queue:start-dial" s))) = inl err ->
  fst (runJob dq job s) = (inl err, dq) /\
  transport_dials (st_trace (snd (runJob dq job s))) = transport_dials (st_trace s).
Proof.
  intros Hcalc.
  assert (Hjob : fst (calculateForJob (config dq) job s) = inl err).
  { unfold calculateForJob. rewrite bind_run.
    destruct (progress_returns is_signal_clear (job_onProgress job)
                "dial-queue:start-dial" s eq_refl) as (s0 & Hp & _).
    rewrite Hp in *. cbn [snd] in Hcalc. unfold try_catch. rewrite bind_run.
    destruct (calculateMultiaddrs _ _ _ s0) as [[e|addrs] s1]; cbn [fst] in Hcalc;
      [|discriminate].
    now injection Hcalc as ->. }
  pose proof (quiet_calculateForJob (config dq) job s) as Hq.
  unfold runJob.
  destruct (calculateForJob (config dq) job s) as [[e|addrs] s1];
    cbn [fst snd] in *; [|discriminate].
  injection Hjob as ->. split; [reflexivity | exact Hq].
Qed.

End LoopMore.

Section DialMore.
Context {MA : MultiaddrOps}.

Lemma joinOrAdd_never_connected dq target options conn :
  outcome (joinOrAdd dq target options) <> AlreadyConnected conn.
Proof.
  unfold joinOrAdd. destruct (existingDial dq target); [discriminate|].
  destruct (queue_size dq >=? _); discriminate.
Qed.

(** X14.  With [force: true] the connection map is not consulted: the call goes
    to the queue and never returns an existing connection
    (lines 154-174). *)
Theorem forced_dial_never_short_circuits dq target options :
  force options = Some true ->
  dial dq target options = joinOrAdd dq target options /\
  forall conn, outcome (dial dq target options) <> AlreadyConnected conn.
Proof.
  intros Hforce.
  assert (Hnone : existingConnection dq options target = None).
  { unfold existingConnection. apply find_none_iff. intros conn _.
    now apply connectionMatches_forced. }
  assert (Hdial : dial dq target options = joinOrAdd dq target options)
    by (unfold dial; now rewrite Hnone).
  split; [exact Hdial|]. intros conn. rewrite Hdial.
  apply joinOrAdd_never_connected.
Qed.

Lemma queue_insert_split job (q : list Job) :
  exists pre post, q = pre ++ post /\ queue_insert job q = pre ++ job :: post.
Proof.
  induction q as [|j q (pre & post & Hq & Hi)]; simpl.
  - now exists [], [].
  - destruct (job_priority j <? job_priority job).
    + now exists [], (j :: q).
    + exists (j :: pre), post. simpl. now rewrite <- Hq, Hi.
Qed.

Lemma set_of_list_in (xs : list string) (x : string) :
  In x (set_of_list xs) <-> In x xs.
Proof. unfold set_of_list. rewrite set_add_all_in. simpl. tauto. Qed.

(** What a call that adds a job has found and done. *)
Lemma dial_added dq target options id :
  outcome (dial dq target options) = AddedJob id ->
  let job := mkJob (next_job_id dq) (target_peerId target)
               (set_of_list (map ma_toString (target_multiaddrs target)))
               (nullish (priority options) DEFAULT_DIAL_PRIORITY)
               (onProgress options) 1 in
  id = next_job_id dq /\
  existingDial dq target = None /\
  after (dial dq target options) =
    mkDialQueue (config dq) (connections dq) (queue_insert job (queue dq))
      (S (next_job_id dq)).
Proof.
  intros Hadded job.
  destruct (dial_cases dq target options) as [(conn & _ & _ & H)|H];
    rewrite H in *; [discriminate|].
  unfold joinOrAdd in *. destruct (existingDial dq target); [discriminate|].
  destruct (queue_size dq >=? maxDialQueueLength (config dq)); [discriminate|].
  simpl in *. injection Hadded as <-. auto.
Qed.

(** X15.  A dial that added a job and names a peer or an address is joined by
    the same dial repeated: the second call (unless an existing connection
    answers it) gets the first call's job, the queue does not grow, and the
    job then has two recipients (lines 178-222). *)
Theorem repeated_dial_joins dq target options options' id :
  outcome (dial dq target options) = AddedJob id ->
  target_peerId target <> None \/ target_multiaddrs target <> [] ->
  (forall conn, outcome (dial (after (dial dq target options)) target options')
                <> AlreadyConnected conn) ->
  outcome (dial (after (dial dq target options)) target options') = JoinedJob id /\
  length (queue (after (dial (after (dial dq target options)) target options'))) =
    length (queue (after (dial dq target options))) /\
  exists job,
    In job (queue (after (dial (after (dial dq target options)) target options'))) /\
    job_id job = id /\ job_recipients job = 2%nat.
Proof.
  intros Hadded Htarget Hnot.
  destruct (dial_added dq target options id Hadded) as (-> & Hnone & Hafter).
  set (job := mkJob (next_job_id dq) (target_peerId target)
                (set_of_list (map ma_toString (target_multiaddrs target)))
                (nullish (priority options) DEFAULT_DIAL_PRIORITY)
                (onProgress options) 1) in *.
  destruct (queue_insert_split job (queue dq)) as (pre & post & Hq & Hins).
  set (dq1 := after (dial dq target options)) in *.
  assert (Hq1 : queue dq1 = pre ++ job :: post) by (rewrite Hafter; exact Hins).
  assert (Hpre : forall j, In j pre -> ~ job_overlaps target j).
  { intros j Hj. apply jobMatches_false.
    unfold existingDial in Hnone.
    apply (proj1 (find_none_iff _ _) Hnone). rewrite Hq. apply in_or_app. now left. }
  assert (Hjob : job_overlaps target job).
  { assert (Hjp : job_peerId job = target_peerId target) by reflexivity.
    assert (Hjm : job_multiaddrs job =
                  set_of_list (map ma_toString (target_multiaddrs target)))
      by reflexivity.
    clearbody job. clear Hafter Hins Hq1.
    destruct (target_peerId target) as [p|] eqn:Hp.
    - left. exists p. split; [exact Hp | exact Hjp].
    - destruct Htarget as [H|H]; [congruence|].
      destruct (target_multiaddrs target) as [|ma mas] eqn:Hm; [congruence|].
      right. exists ma. split; [rewrite Hm; now left|].
      rewrite Hjm. apply set_of_list_in. now left. }
  pose proof (dial_joins_first dq1 target options' pre job post Hnot Hq1 Hpre Hjob)
    as Hjoin.
  rewrite Hjoin. cbn [outcome after]. split; [reflexivity|]. split.
  - unfold withQueue. cbn [queue]. rewrite Hq1, !length_app. reflexivity.
  - eexists. split; [unfold withQueue; cbn [queue]; apply in_elt|].
    split; reflexivity.
Qed.

(** X16.  [dial] never removes or renumbers a queued job and never touches the
    connection map or the configuration: each job is still queued with its
    id, peer and priority, its address set only grows and its recipients
    only increase (lines 149-222). *)
Theorem dial_keeps_queued_jobs dq target options :
  config (after (dial dq target options)) = config dq /\
  connections (after (dial dq target options)) = connections dq /\
  forall job, In job (queue dq) ->
    exists job', In job' (queue (after (dial dq target options))) /\
      job_id job' = job_id job /\
      job_peerId job' = job_peerId job /\
      job_priority job' = job_priority job /\
      (forall str, In str (job_multiaddrs job) -> In str (job_multiaddrs job')) /\
      (job_recipients job <= job_recipients job')%nat.
Proof.
  assert (Hsame : forall job : Job, job_id job = job_id job /\
            job_peerId job = job_peerId job /\
            job_priority job = job_priority job /\
            (forall str, In str (job_multiaddrs job) -> In str (job_multiaddrs job)) /\
            (job_recipients job <= job_recipients job)%nat) by (intros; auto 6).
  destruct (dial_cases dq target options) as [(conn & _ & _ & H)|H]; rewrite H.
  - simpl. repeat split. intros job Hjob. exists job. split; [assumption | apply Hsame].
  - unfold joinOrAdd. destruct (existingDial dq target) as [first|].
    + simpl. repeat split. intros job Hjob.
      induction (queue dq) as [|j q IH]; simpl in *; [contradiction|].
      destruct (jobMatches target j).
      * destruct Hjob as [->|Hjob].
        -- eexists. split; [left; reflexivity|]. simpl. repeat split; auto.
           intros str Hs. apply set_add_all_in. now left.
        -- exists job. split; [now right | apply Hsame].
      * destruct Hjob as [->|Hjob].
        -- exists job. split; [now left | apply Hsame].
        -- destruct (IH Hjob) as (job' & Hin & H'). exists job'.
           split; [now right | assumption].
    + destruct (queue_size dq >=? maxDialQueueLength (config dq)); simpl.
      * repeat split. intros job Hjob. exists job.
        split; [assumption | apply Hsame].
      * repeat split. intros job Hjob. exists job.
        split; [now apply queue_insert_in | apply Hsame].
Qed.

End DialMore.

Section FilterProperties.
Context {MA : MultiaddrOps} {MO : MatcherOps}.

Lemma filter_filter {A} (f g : A -> bool) (l : list A) :
  filter f (filter g l) = filter (fun x => g x && f x) l.
Proof.
  induction l as [|a l IH]; simpl; [reflexivity|].
  destruct (g a); simpl; [destruct (f a); now rewrite IH | exact IH].
Qed.

(** X17.  The four filters select from their argument, and they are ordered:
    [dnsWss] selects within [wss] and within [dnsWsOrWss], which both select
    within [all] (filters.ts, lines 4-26). *)
Theorem filters_narrow (multiaddrs : list Multiaddr) :
  incl (Filters.all multiaddrs) multiaddrs /\
  incl (Filters.wss multiaddrs) (Filters.all multiaddrs) /\
  incl (Filters.dnsWsOrWss multiaddrs) (Filters.all multiaddrs) /\
  incl (Filters.dnsWss multiaddrs) (Filters.wss multiaddrs) /\
  incl (Filters.dnsWss multiaddrs) (Filters.dnsWsOrWss multiaddrs).
Proof.
  unfold Filters.all, Filters.wss, Filters.dnsWsOrWss, Filters.dnsWss, incl.
  repeat split; intros ma; rewrite !filter_In; intros [Hin H];
    try (apply andb_true_iff in H; destruct H as [Hd H]);
    try rewrite Hd; try rewrite H; try rewrite orb_true_l; auto.
Qed.

(** X18.  The filters compose: [dnsWss] is [wss] after [dnsWsOrWss] and
    [dnsWsOrWss] after [wss]; [all] changes nothing that [wss] or
    [dnsWsOrWss] select, and is idempotent (filters.ts, lines 4-26). *)
Theorem filters_compose (multiaddrs : list Multiaddr) :
  Filters.dnsWss multiaddrs = Filters.wss (Filters.dnsWsOrWss multiaddrs) /\
  Filters.dnsWss multiaddrs = Filters.dnsWsOrWss (Filters.wss multiaddrs) /\
  Filters.wss (Filters.all multiaddrs) = Filters.wss multiaddrs /\
  Filters.dnsWsOrWss (Filters.all multiaddrs) = Filters.dnsWsOrWss multiaddrs /\
  Filters.all (Filters.all multiaddrs) = Filters.all multiaddrs.
Proof.
  unfold Filters.all, Filters.wss, Filters.dnsWsOrWss, Filters.dnsWss.
  rewrite !filter_filter.
  repeat split; apply filter_ext; intros ma;
    destruct (DNS_matches ma), (WebSocketsSecure_exactMatch ma),
             (WebSockets_exactMatch ma); reflexivity.
Qed.

End FilterProperties.

Section ObjectProperties.

Lemma obj_get_set (o : JsObject) (k k' : string) (v : JsValue) :
  obj_get (obj_set o k v) k' = if String.eqb k' k then Some v else obj_get o k'.
Proof.
  induction o as [|[k0 v0] o IH]; simpl.
  - reflexivity.
  - destruct (String.eqb k k0) eqn:E0; simpl.
    + apply String.eqb_eq in E0. subst k0. destruct (String.eqb k' k); reflexivity.
    + rewrite IH. destruct (String.eqb k' k0) eqn:E1; [|reflexivity].
      apply String.eqb_eq in E1. subst k0.
      now rewrite String.eqb_sym, E0.
Qed.

Lemma obj_get_none (o : JsObject) (k : string) :
  ~ In k (map fst o) -> obj_get o k = None.
Proof.
  induction o as [|[k0 v0] o IH]; simpl; [reflexivity|]. intros H.
  destruct (String.eqb k k0) eqn:E.
  - apply String.eqb_eq in E. subst. tauto.
  - apply IH. tauto.
Qed.

Lemma obj_get_spread (a b : JsObject) (k : string) :
  NoDup (map fst b) ->
  obj_get (obj_spread a b) k =
  match obj_get b k with Some v => Some v | None => obj_get a k end.
Proof.
  unfold obj_spread. revert a.
  induction b as [|[k0 v0] b IH]; intros a Hnd; simpl; [reflexivity|].
  inversion Hnd as [|? ? Hnotin Hnd']; subst.
  rewrite (IH _ Hnd'), obj_get_set.
  destruct (String.eqb k k0) eqn:E.
  - apply String.eqb_eq in E. subst k0. now rewrite (obj_get_none b k Hnotin).
  - reflexivity.
Qed.

End ObjectProperties.

Section TcpUtilsProperties.
Import TcpUtils.
Context {MA : MultiaddrOps} {NO : NetOps}.

Lemma inner_loop family (l : list NetworkInterfaceInfo) (acc : list string) :
  fold_left (fun addresses netAddr =>
               if String.eqb (ni_family netAddr) family
               then addresses ++ [ni_address netAddr] else addresses) l acc =
  acc ++ map ni_address (filter (fun n => String.eqb (ni_family n) family) l).
Proof.
  revert acc. induction l as [|n l IH]; intros acc; simpl.
  - now rewrite app_nil_r.
  - rewrite IH. destruct (String.eqb (ni_family n) family); simpl;
      [now rewrite <- app_assoc | reflexivity].
Qed.

Lemma outer_loop family (networks : Networks) (acc : list string) :
  fold_left
    (fun addresses entry =>
       match snd entry with
       | Some netAddrs =>
           fold_left
             (fun addresses netAddr =>
                if String.eqb (ni_family netAddr) family
                then addresses ++ [ni_address netAddr]
                else addresses)
             netAddrs addresses
       | None => addresses
       end) networks acc =
  acc ++ flat_map (fun entry => family_addresses family (snd entry)) networks.
Proof.
  revert acc. induction networks as [|[name l] networks IH]; intros acc; simpl.
  - now rewrite app_nil_r.
  - rewrite IH. destruct l as [l|]; simpl.
    + now rewrite inner_loop, <- app_assoc.
    + reflexivity.
Qed.

Lemma getNetworkAddrs_flat (networks : Networks) (family : string) :
  getNetworkAddrs networks family =
  flat_map (fun entry => family_addresses family (snd entry)) networks.
Proof. unfold getNetworkAddrs. now rewrite outer_loop. Qed.

(** X19.  The two loops of [getNetworkAddrs] collect, interface by interface and
    in order, the addresses whose family is the one asked for; an interface
    without an address list contributes nothing; and the result over more
    interfaces extends the result over fewer (utils.ts, lines 38-52). *)
Theorem getNetworkAddrs_collects (networks : Networks) (family : string) :
  getNetworkAddrs networks family =
    flat_map (fun entry => family_addresses family (snd entry)) networks /\
  (forall address, In address (getNetworkAddrs networks family) <->
     exists name netAddrs netAddr,
       In (name, Some netAddrs) networks /\ In netAddr netAddrs /\
       ni_family netAddr = family /\ ni_address netAddr = address) /\
  (forall more, getNetworkAddrs (networks ++ more) family =
     getNetworkAddrs networks family ++ getNetworkAddrs more family).
Proof.
  assert (Heq : forall nets, getNetworkAddrs nets family =
            flat_map (fun entry => family_addresses family (snd entry)) nets)
    by (intros nets; apply getNetworkAddrs_flat).
  split; [apply Heq|]. split.
  - intros address. rewrite Heq, in_flat_map. split.
    + intros [[name [l|]] [Hin Haddr]]; simpl in Haddr; [|contradiction].
      apply in_map_iff in Haddr. destruct Haddr as (n & Hn & Hf).
      apply filter_In in Hf. destruct Hf as [Hl Hf]. apply String.eqb_eq in Hf.
      now exists name, l, n.
    + intros (name & l & n & Hin & Hl & Hf & Hn).
      exists (name, Some l). split; [assumption|]. simpl.
      apply in_map_iff. exists n. split; [assumption|].
      apply filter_In. split; [assumption|]. now apply String.eqb_eq.
  - intros more. now rewrite !Heq, flat_map_app.
Qed.

Lemma map_throwing_ok {A B} (f : A -> Error + B) (l : list A) (bs : list B) :
  map_throwing f l = inr bs <-> Forall2 (fun a b => f a = inr b) l bs.
Proof.
  revert bs. induction l as [|a l IH]; intros bs; simpl.
  - split.
    + intros H. injection H as <-. constructor.
    + intros H. inversion H. reflexivity.
  - split.
    + intros H. destruct (f a) as [e|b] eqn:Ha; [discriminate|].
      destruct (map_throwing f l) as [e|bs'] eqn:Hl; [discriminate|].
      injection H as <-. constructor; [assumption|]. now apply IH.
    + intros H. inversion H as [|? b ? bs' Ha Hl]; subst. rewrite Ha.
      apply IH in Hl. now rewrite Hl.
Qed.

Lemma map_throwing_fails {A B} (f : A -> Error + B) (l : list A) (e : Error) :
  map_throwing f l = inl e <->
  exists pre a post, l = pre ++ a :: post /\ f a = inl e /\
                     forall x, In x pre -> exists b, f x = inr b.
Proof.
  induction l as [|a l IH]; simpl.
  - split; [discriminate|]. intros (pre & a & post & H & _). now destruct pre.
  - split.
    + intros H. destruct (f a) as [e'|b] eqn:Ha.
      * injection H as ->. exists [], a, l. repeat split; [assumption|].
        intros x [].
      * destruct (map_throwing f l) as [e'|bs'] eqn:Hl; [|discriminate].
        injection H as ->. destruct (proj1 IH eq_refl) as (pre & x & post & -> & Hx & Hpre).
        exists (a :: pre), x, post. repeat split; [assumption|].
        intros y [<-|Hy]; [now exists b | now apply Hpre].
    + intros (pre & x & post & Hl & Hx & Hpre). destruct pre as [|p pre]; simpl in Hl.
      * injection Hl as -> ->. now rewrite Hx.
      * injection Hl as -> ->. destruct (Hpre p (or_introl eq_refl)) as [b ->].
        assert (Hrec : map_throwing f (pre ++ x :: post) = inl e).
        { apply IH. exists pre, x, post. repeat split; [assumption|].
          intros y Hy. apply Hpre. now right. }
        now rewrite Hrec.
Qed.

(** X20.  [getMultiaddrs] returns one multiaddr per host, in order, exactly
    when [multiaddr] parses each host's string, and throws the error of the
    first host that does not parse.  The hosts are the given address, or for
    either wildcard ([0.0.0.0] or [::], whatever the protocol) the interface
    addresses of the protocol's family (utils.ts, lines 27-34). *)
Theorem getMultiaddrs_one_per_host (networks : Networks) (proto : Proto)
  (ip : string) (port : N) :
  let hosts :=
    if (String.eqb ip "0.0.0.0" || String.eqb ip "::")%bool
    then flat_map (fun entry => family_addresses (ProtoFamily proto) (snd entry))
           networks
    else [ip] in
  (forall mas, getMultiaddrs networks proto ip port = inr mas <->
     Forall2 (fun host ma => multiaddr (listen_string proto port host) = inr ma)
       hosts mas) /\
  (forall e, getMultiaddrs networks proto ip port = inl e <->
     exists pre host post, hosts = pre ++ host :: post /\
       multiaddr (listen_string proto port host) = inl e /\
       forall h, In h pre ->
         exists ma, multiaddr (listen_string proto port h) = inr ma).
Proof.
  intros hosts.
  assert (Hhosts : (if isAnyAddr ip
                    then getNetworkAddrs networks (ProtoFamily proto)
                    else [ip]) = hosts).
  { unfold hosts, isAnyAddr. simpl. rewrite orb_false_r.
    destruct (String.eqb ip "0.0.0.0" || String.eqb ip "::")%bool;
      [apply getNetworkAddrs_flat | reflexivity]. }
  unfold getMultiaddrs. rewrite Hhosts. split.
  - intros mas. apply map_throwing_ok.
  - intros e.
    apply (map_throwing_fails (fun ip => multiaddr (listen_string proto port ip))).
Qed.

(** X21.  [multiaddrToNetConfig]: an address with a path gives an object with
    the one key [path] whatever the configuration (the path itself, or the
    named pipe on win32); otherwise every key reads as the multiaddr's
    option when it has one and as the configuration's when not; and an
    error of [toOptions] is thrown on (utils.ts, lines 11-25). *)
Theorem multiaddrToNetConfig_cases (addr : Multiaddr) (config : JsObject) :
  (forall listenPath, ma_getPath addr = Some listenPath ->
     exists p, multiaddrToNetConfig addr config = inr [("path", JsString p)] /\
               (os_platform <> "win32" -> p = listenPath) /\
               (os_platform = "win32" -> p = path_join "\\.\pipe\" listenPath)) /\
  (forall options, ma_getPath addr = None -> ma_toOptions addr = inr options ->
     NoDup (map fst options) ->
     exists o, multiaddrToNetConfig addr config = inr o /\
       forall k, obj_get o k =
         match obj_get options k with
         | Some v => Some v
         | None => obj_get config k
         end) /\
  (forall e, ma_getPath addr = None -> ma_toOptions addr = inl e ->
     multiaddrToNetConfig addr config = inl e).
Proof.
  unfold multiaddrToNetConfig. repeat split.
  - intros listenPath ->. destruct (String.eqb os_platform "win32") eqn:E.
    + apply String.eqb_eq in E. eexists. split; [reflexivity|]. split; [congruence|reflexivity].
    + apply String.eqb_neq in E. eexists. split; [reflexivity|]. split; [reflexivity|congruence].
  - intros options -> -> Hnd. eexists. split; [reflexivity|].
    intros k. now apply obj_get_spread.
  - intros e -> ->. reflexivity.
Qed.

End TcpUtilsProperties.

(* ================================================================== *)
(** * Part III: the properties at concrete inputs *)
(* ================================================================== *)

(** ** Address discovery *)

(** C1, as first stated, fails: a [QueryError] thrown by
    [peerRouting.findPeer] is logged and dropped; the caller is not thrown
    that error but the [NoValidAddressesError] of the empty address list. *)
Lemma routing_error_not_propagated :
  let run := calculateMultiaddrs (C := ScriptedComponents refusing)
               default_config (Some "P") [] (start_of_world refusing) in
  script_routing refusing "P" = inl QueryFailedError /\
  err_name QueryFailedError <> "NoPeerRoutersError" /\
  st_trace (snd run) =
    [EvPeerStoreGet "P"; EvFindPeer "P";
     EvLogError "looking up multiaddrs for %p in the peer routing failed"] /\
  fst run = inl (NoValidAddressesError "The dial request has no valid addresses") /\
  fst run <> inl QueryFailedError.
Proof.
  cbv zeta. repeat split; try reflexivity; discriminate.
Qed.

(** A peer store that fails with a [DatabaseError]: the dial is thrown that
    error. *)
Lemma discovery_error_policy_witness :
  peerId_equals (script_self broken_store) (Some "P") = false /\
  fst (calculateMultiaddrs (C := ScriptedComponents broken_store)
         default_config (Some "P") [] (start_of_world broken_store)) =
    inl DatabaseError.
Proof.
  split; [reflexivity|].
  refine (proj1 (discovery_error_policy (C := ScriptedComponents broken_store)
                   default_config "P" (start_of_world broken_store)
                   (start_of_world broken_store) _ _)
                DatabaseError 1%nat _ _).
  - reflexivity.
  - reflexivity.
  - reflexivity.
  - discriminate.
Defined.

(** ** The attempt loop *)

(** A limit of one address, two addresses, a transport that refuses: one
    transport dial, then the [DialError] of the limit. *)
Lemma transport_dials_capped_witness :
  0 <= maxPeerAddrsToDial (config_with 10 1) /\
  fst (dialAddresses (C := ScriptedComponents refusing) (config_with 10 1)
         (Some "P") [plain "/a"; plain "/b"] (start_of_world refusing)) =
    inl (DialError "Peer had more than maxPeerAddrsToDial") /\
  dials_added (C := ScriptedComponents refusing) (start_of_world refusing)
    (dialAddresses (C := ScriptedComponents refusing) (config_with 10 1)
       (Some "P") [plain "/a"; plain "/b"] (start_of_world refusing)) = 1.
Proof.
  assert (Hcap : 0 <= maxPeerAddrsToDial (config_with 10 1))
    by (vm_compute; discriminate).
  split; [exact Hcap|].
  destruct (transport_dials_capped (C := ScriptedComponents refusing)
              (config_with 10 1) (Some "P") [plain "/a"; plain "/b"]
              (start_of_world refusing) Hcap) as (_ & _ & Hlimit).
  edestruct Hlimit as [Hrun Hcount].
  - eapply reaches_next; [apply reaches_here|].
    apply (@next_after_failure StringMultiaddr (ScriptedComponents refusing)
             (config_with 10 1) (Some "P") 0 [] (plain "/a") [plain "/b"]
             (start_of_world refusing) ConnectionRefused 1%nat);
      [vm_compute; discriminate | reflexivity | reflexivity].
  - reflexivity.
  - reflexivity.
  - rewrite Hrun. split; [reflexivity | exact Hcount].
Defined.

(** C3, as first stated, fails: with a limit of one address and two
    addresses calculated, exactly one address is attempted, its dial fails
    with [ECONNREFUSED] and the signal is not aborted, yet the job rejects
    with the [DialError] of the limit, not with that address's error. *)
Lemma single_attempt_at_limit_rejects_with_DialError :
  let run := dialAddresses (C := ScriptedComponents refusing) (config_with 10 1)
               (Some "P") [plain "/a"; plain "/b"] (start_of_world refusing) in
  filter is_transport_dial (st_trace (snd run)) = [EvTransportDial "/a"] /\
  script_dial refusing "/a" = inl ConnectionRefused /\
  signal_aborted (Components := ScriptedComponents refusing)
    (st_world (snd run)) = false /\
  fst run = inl (DialError "Peer had more than maxPeerAddrsToDial") /\
  fst run <> inl ConnectionRefused.
Proof.
  cbv zeta. repeat split; try reflexivity; discriminate.
Qed.

(** A limit of two addresses, two addresses, a transport that refuses: an
    [AggregateError] of the two errors. *)
Lemma exhausted_addresses_rejection_witness :
  fst (dialAddresses (C := ScriptedComponents refusing) (config_with 10 2)
         (Some "P") [plain "/a"; plain "/b"] (start_of_world refusing)) =
  inl (AggregateError [ConnectionRefused; ConnectionRefused]
         "All multiaddr dials failed").
Proof.
  edestruct (proj1 (exhausted_addresses_rejection
                      (C := ScriptedComponents refusing)
                      (config_with 10 2) (Some "P") [plain "/a"; plain "/b"]
                      (start_of_world refusing))) as (_ & _ & Hmany & _).
  - eapply reaches_next; [eapply reaches_next; [apply reaches_here|]|].
    + apply (@next_after_failure StringMultiaddr (ScriptedComponents refusing)
               (config_with 10 2) (Some "P") 0 [] (plain "/a") [plain "/b"]
               (start_of_world refusing) ConnectionRefused 1%nat);
        [vm_compute; discriminate | reflexivity | reflexivity].
    + apply (@next_after_failure StringMultiaddr (ScriptedComponents refusing)
               (config_with 10 2) (Some "P") (0 + 1) ([] ++ [ConnectionRefused])
               (plain "/b") [] _ ConnectionRefused 3%nat);
        [vm_compute; discriminate | reflexivity | reflexivity].
  - reflexivity.
  - rewrite Hmany; [reflexivity | simpl; lia].
Defined.

(** The signal is aborted and the first dial fails: a [TimeoutError] with
    the message of that failure, after one transport dial. *)
Lemma failed_dial_under_abort_times_out_witness :
  fst (dialAddresses (C := ScriptedComponents refusing_aborted)
         (config_with 10 2) (Some "P") [plain "/a"; plain "/b"]
         (start_of_world refusing_aborted)) =
    inl (TimeoutError "connection refused") /\
  transport_dials
    (st_trace
       (snd (dialAddresses (C := ScriptedComponents refusing_aborted)
               (config_with 10 2) (Some "P") [plain "/a"; plain "/b"]
               (start_of_world refusing_aborted)))) = 1%nat.
Proof.
  destruct (failed_dial_under_abort_times_out
              (C := ScriptedComponents refusing_aborted)
              (config_with 10 2) (Some "P") [plain "/a"; plain "/b"]
              (start_of_world refusing_aborted)
              (loop_start [plain "/a"; plain "/b"]
                 (start_of_world refusing_aborted))
              (plain "/a") [plain "/b"] ConnectionRefused 1%nat)
    as [Hrun Hcount].
  - apply reaches_here.
  - reflexivity.
  - vm_compute; discriminate.
  - reflexivity.
  - reflexivity.
  - rewrite Hcount, Hrun. split; reflexivity.
Defined.

(** ** [dial] *)

(** C5, as first stated, fails: the connections map holds an open connection
    to the target peer, [force] is not set, and [dial] does not return it:
    the first connection to that peer is closing, so a job is added. *)
Lemma open_connection_behind_closing_one_not_returned :
  let conn := connection_to 2 "P" "/ip4/1.2.3.4/tcp/2" open in
  let step := dial closing_then_open (to_peer "P" []) no_options in
  In conn (concat (map snd (connections closing_then_open))) /\
  status conn = open /\
  connection_overlaps (to_peer "P" []) conn /\
  force no_options = None /\
  outcome step = AddedJob 0 /\
  outcome step <> AlreadyConnected conn /\
  length (queue (after step)) = 1%nat.
Proof.
  cbv zeta. repeat split; try reflexivity.
  - simpl. auto.
  - now left.
  - discriminate.
Qed.

(** The only connection to the peer is open: it is returned. *)
Lemma open_first_match_returned_witness :
  force no_options <> Some true /\
  dial open_only (to_peer "P" []) no_options =
  mkDialStep
    (AlreadyConnected (connection_to 2 "P" "/ip4/1.2.3.4/tcp/2" open))
    [] open_only.
Proof.
  split; [discriminate|].
  apply (open_first_match_returned open_only (to_peer "P" []) no_options
           [] (connection_to 2 "P" "/ip4/1.2.3.4/tcp/2" open) []).
  - discriminate.
  - reflexivity.
  - intros c [].
  - now left.
  - reflexivity.
Defined.

(** C6, as first stated, fails: the target overlaps a queued job (same peer
    id) but an open connection to the peer exists by now; [dial] returns
    the connection, the job's set does not get the target's address string
    and the job gets no further recipient. *)
Lemma overlapping_call_short_circuited :
  let target := to_peer "P" ["/ip4/1.2.3.4/tcp/2/p2p/P"] in
  let job := job_for 7 "P" ["/ip4/1.2.3.4/tcp/1/p2p/P"] in
  let step := dial connected_and_queued target no_options in
  queue connected_and_queued = [job] /\
  job_overlaps target job /\
  outcome step =
    AlreadyConnected (connection_to 2 "P" "/ip4/1.2.3.4/tcp/40000/p2p/P" open) /\
  outcome step <> JoinedJob 7 /\
  queue (after step) = [job] /\
  ~ In "/ip4/1.2.3.4/tcp/2/p2p/P" (job_multiaddrs job).
Proof.
  cbv zeta. repeat split; try reflexivity.
  - left. exists "P". split; reflexivity.
  - discriminate.
  - simpl. intros [H|[]]. discriminate.
Qed.

(** No connection to the peer and a job for it in the queue: the call joins
    the job, whose set gets the new address string. *)
Lemma join_first_matching_job_witness :
  dial queued_only (to_peer "P" ["/ip4/1.2.3.4/tcp/2/p2p/P"]) no_options =
  mkDialStep (JoinedJob 7) []
    (withQueue queued_only
       [mkJob 7 (Some "P")
          ["/ip4/1.2.3.4/tcp/1/p2p/P"; "/ip4/1.2.3.4/tcp/2/p2p/P"]
          50 false 2]).
Proof.
  refine (proj1 (join_first_matching_job queued_only
                   (to_peer "P" ["/ip4/1.2.3.4/tcp/2/p2p/P"]) no_options
                   [] (job_for 7 "P" ["/ip4/1.2.3.4/tcp/1/p2p/P"]) []
                   _ _ _ _)).
  - intros conn. discriminate.
  - reflexivity.
  - intros j [].
  - left. exists "P". split; reflexivity.
Defined.

(** Two jobs in a queue limited to two: a third target is refused. *)
Lemma full_queue_rejects_witness :
  queue_size full_queue >= maxDialQueueLength (config full_queue) /\
  dial full_queue (to_peer "C" []) no_options =
  mkDialStep (Rejected (DialError "Dial queue is full")) [] full_queue.
Proof.
  assert (Hfull : queue_size full_queue >= maxDialQueueLength (config full_queue))
    by (vm_compute; discriminate).
  split; [exact Hfull|].
  apply (proj1 (full_queue_rejects full_queue (to_peer "C" []) no_options)).
  - intros conn [].
  - intros job [<-|[<-|[]]] [(p & [= <-] & [=])|(ma & [] & _)].
  - exact Hfull.
Defined.

(** ** A running job and a later call *)



(** ** Whole runs *)

(** The first address is refused, the second connects: the job resolves
    with the second connection, the peer store is told of the failure and
    then of the success, and the job's set holds both string forms. *)
Example first_fails_second_wins :
  let run := runJob (C := ScriptedComponents first_refused) queued_peer
               (job_for 7 "P" []) (start_of_world first_refused) in
  fst (fst run) = inr (connection_to 9 "P" "/ip4/1.2.3.4/tcp/2/p2p/P" open) /\
  map job_multiaddrs (queue (snd (fst run))) =
    [["/ip4/1.2.3.4/tcp/1/p2p/P"; "/ip4/1.2.3.4/tcp/2/p2p/P"]] /\
  st_trace (snd run) =
    [EvPeerStoreGet "P";
     EvResolve "/ip4/1.2.3.4/tcp/1"; EvResolve "/ip4/1.2.3.4/tcp/2";
     EvLogTrace "addresses for %p before filtering";
     EvLogTrace "addresses for %p after filtering";
     EvTransportDial "/ip4/1.2.3.4/tcp/1/p2p/P";
     EvLogError "dial failed to %a";
     EvPeerStoreMerge "P" (mkPeerData [] LAST_DIAL_FAILURE_KEY);
     EvTransportDial "/ip4/1.2.3.4/tcp/2/p2p/P";
     EvPeerStoreMerge "P"
       (mkPeerData ["/ip4/1.2.3.4/tcp/2/p2p/P"] LAST_DIAL_SUCCESS_KEY);
     EvSignalClear].
Proof. cbv zeta. repeat split; reflexivity. Qed.

(** A relay address alone is dialable, but not when limited connections are
    ruled out; without a transport for the address the calculation throws
    [NoValidAddressesError], and [isDialable] returns [false]. *)
Example isDialable_relay_and_unsupported :
  fst (isDialable (C := ScriptedComponents refusing) default_config
         ["/ip4/1.2.3.4/tcp/1/p2p/R/p2p-circuit"] None
         (start_of_world refusing)) = inr true /\
  fst (isDialable (C := ScriptedComponents refusing) default_config
         ["/ip4/1.2.3.4/tcp/1/p2p/R/p2p-circuit"] (Some false)
         (start_of_world refusing)) = inr false /\
  fst (calculateMultiaddrs (C := ScriptedComponents no_transport) default_config
         None ["/ip4/1.2.3.4/udp/1"] (start_of_world no_transport)) =
    inl (NoValidAddressesError "The dial request has no valid addresses") /\
  fst (isDialable (C := ScriptedComponents no_transport) default_config
         ["/ip4/1.2.3.4/udp/1"] None (start_of_world no_transport)) = inr false.
Proof. repeat split; reflexivity. Qed.

(** Three records of [/a], two of them one and the same object, and one
    certified: the object kept is the first, and it ends up certified. *)
Example dedupe_shared_object :
  let h : Heap (MA := StringMultiaddr) := fun r =>
    match r with
    | 0%nat => mkAddress (MA := StringMultiaddr) "/a" false
    | 1%nat => mkAddress (MA := StringMultiaddr) "/b" false
    | _ => mkAddress (MA := StringMultiaddr) "/a" true
    end in
  let result := dedupe_store h [0; 1; 0; 2; 0]%nat in
  fst result = [0; 1]%nat /\
  map (snd result) (fst result) =
    [mkAddress (MA := StringMultiaddr) "/a" true;
     mkAddress (MA := StringMultiaddr) "/b" false].
Proof. cbv zeta. split; reflexivity. Qed.

(** ** The further properties at concrete inputs *)

Lemma self_dial_rejected_witness :
  calculateMultiaddrs (C := ScriptedComponents refusing) default_config
    (Some "self") ["/ip4/1.2.3.4/tcp/1"] (start_of_world refusing) =
  (inl (DialError "Tried to dial self"), start_of_world refusing).
Proof.
  apply (self_dial_rejected (C := ScriptedComponents refusing) default_config
           "self" ["/ip4/1.2.3.4/tcp/1"] (start_of_world refusing)
           [plain "/ip4/1.2.3.4/tcp/1"]); reflexivity.
Defined.

Lemma denied_peer_rejected_witness :
  calculateMultiaddrs (C := GatedComponents known_peer) default_config
    (Some "banned") [] (start_of_gated known_peer) =
  (inl (DialDeniedError "The dial request is blocked by gater.allowDialPeer"),
   snd (denyDialPeer (C := GatedComponents known_peer) "banned"
          (start_of_gated known_peer))).
Proof.
  apply (denied_peer_rejected (C := GatedComponents known_peer) default_config
           "banned" [] (start_of_gated known_peer)
           (snd (denyDialPeer (C := GatedComponents known_peer) "banned"
                   (start_of_gated known_peer)))
           []); reflexivity.
Defined.

Lemma seeded_dial_skips_discovery_witness :
  filter (fun e => is_peer_store_get e || is_find_peer e)
    (st_trace (snd (calculateMultiaddrs (C := ScriptedComponents known_peer)
                      default_config (Some "P") ["/ip4/1.2.3.4/tcp/7"]
                      (start_of_world known_peer)))) = [].
Proof.
  etransitivity;
    [apply (seeded_dial_skips_discovery (C := ScriptedComponents known_peer)
              default_config "P" ["/ip4/1.2.3.4/tcp/7"]
              (start_of_world known_peer)); discriminate
    | reflexivity].
Defined.

Lemma routing_is_a_fallback_witness :
  filter is_find_peer
    (st_trace (snd (calculateMultiaddrs (C := ScriptedComponents known_peer)
                      default_config (Some "P") []
                      (start_of_world known_peer)))) = [].
Proof.
  etransitivity;
    [apply (routing_is_a_fallback (C := ScriptedComponents known_peer)
              default_config "P" (start_of_world known_peer)
              (snd (denyDialPeer (C := ScriptedComponents known_peer) "P"
                      (start_of_world known_peer)))
              (mkAddress (MA := StringMultiaddr) "/ip4/1.2.3.4/tcp/1" true) []
              1%nat); reflexivity
    | reflexivity].
Defined.

Lemma sorter_reorders_scripted sc :
  sorter_reorders (C := ScriptedComponents sc) default_config.
Proof. intros _ l. apply Permutation_refl. Defined.

Lemma calculated_addresses_sound_witness :
  exists out s',
    calculateMultiaddrs (C := ScriptedComponents known_peer) default_config
      (Some "P") [] (start_of_world known_peer) = (inr out, s') /\
    out <> [] /\ NoDup (map addr_string out).
Proof.
  exists [mkAddress (MA := StringMultiaddr) "/ip4/1.2.3.4/tcp/1/p2p/P" true].
  exists (snd (calculateMultiaddrs (C := ScriptedComponents known_peer)
                 default_config (Some "P") [] (start_of_world known_peer))).
  split; [reflexivity|].
  destruct (calculated_addresses_sound (C := ScriptedComponents known_peer)
              default_config (Some "P") [] (start_of_world known_peer)
              [mkAddress (MA := StringMultiaddr) "/ip4/1.2.3.4/tcp/1/p2p/P" true]
              (snd (calculateMultiaddrs (C := ScriptedComponents known_peer)
                      default_config (Some "P") []
                      (start_of_world known_peer)))
              (sorter_reorders_scripted known_peer) eq_refl) as (Hne & Hnd & _).
  split; assumption.
Defined.

Lemma certified_only_from_peer_store_witness :
  exists b,
    In b [mkAddress (MA := StringMultiaddr) "/ip4/1.2.3.4/tcp/1" true] /\
    isCertified b = true.
Proof.
  destruct (certified_only_from_peer_store (C := ScriptedComponents known_peer)
              default_config (Some "P") [] (start_of_world known_peer)
              [mkAddress (MA := StringMultiaddr) "/ip4/1.2.3.4/tcp/1/p2p/P" true]
              (snd (calculateMultiaddrs (C := ScriptedComponents known_peer)
                      default_config (Some "P") []
                      (start_of_world known_peer)))
              (mkAddress (MA := StringMultiaddr) "/ip4/1.2.3.4/tcp/1/p2p/P" true)
              (sorter_reorders_scripted known_peer) eq_refl
              (or_introl eq_refl) eq_refl)
    as (p & w & peer & w' & b & Hp & _ & Hget & Hin & Hb).
  exists b. split; [|exact Hb].
  injection Hget as <- _. exact Hin.
Defined.

Lemma gater_denying_everything_witness :
  exists e,
    fst (calculateMultiaddrs (C := GatedComponents known_peer) default_config
           (Some "P") [] (start_of_gated known_peer)) = inl e.
Proof.
  destruct (gater_denying_everything (C := GatedComponents known_peer)
              default_config (Some "P") [] (start_of_gated known_peer))
    as (e & He & _).
  - eexists. split; [reflexivity|]. intros ma w. reflexivity.
  - intros _ l. apply Permutation_refl.
  - exists e. exact He.
Defined.

Lemma first_success_wins_witness :
  fst (dialAddresses (C := ScriptedComponents first_refused) default_config
         (Some "P") [plain "/ip4/1.2.3.4/tcp/2/p2p/P"]
         (start_of_world first_refused)) =
  inr (connection_to 9 "P" "/ip4/1.2.3.4/tcp/2/p2p/P" open).
Proof.
  refine (proj1 (first_success_wins (C := ScriptedComponents first_refused)
            default_config (Some "P") [plain "/ip4/1.2.3.4/tcp/2/p2p/P"]
            (start_of_world first_refused)
            (loop_start [plain "/ip4/1.2.3.4/tcp/2/p2p/P"]
               (start_of_world first_refused))
            (plain "/ip4/1.2.3.4/tcp/2/p2p/P") []
            (connection_to 9 "P" "/ip4/1.2.3.4/tcp/2/p2p/P" open) 1%nat
            _ _ _ _)).
  - apply reaches_here.
  - reflexivity.
  - discriminate.
  - reflexivity.
Defined.

Lemma failed_calculation_rejects_job_witness :
  exists err,
    fst (runJob (C := ScriptedComponents refusing) queued_peer
           (job_for 7 "P" []) (start_of_world refusing)) =
    (inl err, queued_peer).
Proof.
  eexists.
  refine (proj1 (failed_calculation_rejects_job (C := ScriptedComponents refusing)
                   queued_peer (job_for 7 "P" []) (start_of_world refusing) _ _)).
  reflexivity.
Defined.

Lemma forced_dial_never_short_circuits_witness :
  outcome (dial open_only (to_peer "P" []) forced) = AddedJob 0.
Proof.
  etransitivity;
    [apply (f_equal outcome
              (proj1 (forced_dial_never_short_circuits open_only
                        (to_peer "P" []) forced eq_refl)))
    | reflexivity].
Defined.

Lemma repeated_dial_joins_witness :
  outcome (dial (after (dial idle (to_peer "P" []) no_options))
             (to_peer "P" []) no_options) = JoinedJob 0.
Proof.
  refine (proj1 (repeated_dial_joins idle (to_peer "P" []) no_options no_options
                   0%nat eq_refl _ _)).
  - left. discriminate.
  - intros conn. discriminate.
Defined.

Lemma dial_keeps_queued_jobs_witness :
  exists job',
    In job' (queue (after (dial queued_only (to_peer "Q" []) no_options))) /\
    job_id job' = 7%nat.
Proof.
  destruct (dial_keeps_queued_jobs queued_only (to_peer "Q" []) no_options)
    as (_ & _ & H).
  destruct (H (job_for 7 "P" ["/ip4/1.2.3.4/tcp/1/p2p/P"]) (or_introl eq_refl))
    as (job' & Hin & Hid & _).
  exists job'. split; assumption.
Defined.

Lemma multiaddrToNetConfig_cases_witness :
  exists o,
    TcpUtils.multiaddrToNetConfig (NO := StringNetOps) "/ip4/127.0.0.1/tcp/4001"
      [("port", JsNumber 0); ("noDelay", JsBoolean true)] = inr o /\
    obj_get o "port" = Some (JsNumber 4001) /\
    obj_get o "noDelay" = Some (JsBoolean true).
Proof.
  destruct (multiaddrToNetConfig_cases (NO := StringNetOps)
              "/ip4/127.0.0.1/tcp/4001"
              [("port", JsNumber 0); ("noDelay", JsBoolean true)])
    as (_ & H & _).
  destruct (H [("host", JsString "127.0.0.1"); ("port", JsNumber 4001)]
              eq_refl eq_refl) as (o & Ho & Hget).
  - repeat constructor; simpl; intuition discriminate.
  - exists o. split; [exact Ho|]. split; rewrite Hget; reflexivity.
Defined.
